(** * Plugin state: scoped state manager and context factory

    A shallow embedding of [PluginStateManager] (state.ts) and of
    [PluginContextFactory] (context-factory.ts), and the properties of the
    specification that concern them: event replay, the event-log invariant,
    forking, depth calculation, channel inheritance, round trips, path
    mapping and the behaviour of a context bound without a reducer. *)

From stdpp Require Import base option list gmap strings sorting.
From Stdlib Require Import ZArith Lia.

Local Set Warnings "-register-all".
Local Open Scope string_scope.
Local Open Scope list_scope.
Local Open Scope Z_scope.

(** ** Strings *)

(** [a.localeCompare(b)], negative, zero or positive, is the comparison
    of the collation of the host (ICU). It is not a function of this
    program, and it is not the order of the code units: the default
    locales compare the letters before their case, so that [a] sorts
    before [B]. The program is modelled over the comparison. *)
Class Collation : Type := localeCompare : string -> string -> Z.

(** What ECMA-262 requires of [localeCompare], a consistent comparison
    function: the strings fall into classes of strings that compare
    equal, and these classes are totally ordered. *)
Class ConsistentComparator {collation : Collation} : Prop := {
  localeCompare_total (a b : string) :
    localeCompare a b <= 0 \/ localeCompare b a <= 0;
  localeCompare_trans (a b c : string) :
    localeCompare a b <= 0 -> localeCompare b c <= 0 -> localeCompare a c <= 0
}.

(** The comparison of the code units: the lexicographic order, which is
    the order the specification names. *)
Definition codeUnitCompare (a b : string) : Z :=
  match String.compare a b with
  | Lt => -1
  | Eq => 0
  | Gt => 1
  end.

Definition codeUnitCollation : Collation := codeUnitCompare.

(** [a <= b] in the lexicographic order of strings. *)
Definition lex_le (a b : string) : Prop := String.compare a b <> Gt.

(** The collation of the examples, on ids of ASCII letters and digits:
    the digits before the letters, the letters in alphabetical order
    whatever their case, and between two strings of the same letters
    the lower case first. As ICU does, it compares sort keys: the
    letters without their case, then the cases. *)
Definition isUpperCase (c : Ascii.ascii) : bool :=
  let n := Ascii.N_of_ascii c in ((65 <=? n) && (n <=? 90))%N.

Definition toLowerCase (c : Ascii.ascii) : Ascii.ascii :=
  if isUpperCase c then Ascii.ascii_of_N (Ascii.N_of_ascii c + 32) else c.

Fixpoint letterKey (s : string) : string :=
  match s with
  | EmptyString => EmptyString
  | String c rest => String (toLowerCase c) (letterKey rest)
  end.

Fixpoint caseKey (s : string) : string :=
  match s with
  | EmptyString => EmptyString
  | String c rest =>
      String (Ascii.ascii_of_nat (if isUpperCase c then 49 else 48)) (caseKey rest)
  end.

Definition sortKey (s : string) : string :=
  letterKey s +:+ String (Ascii.ascii_of_nat 0) (caseKey s).

Definition alphanumericCollation : Collation :=
  fun a b => codeUnitCompare (sortKey a) (sortKey b).

(** ** JSON documents and run-time values *)

(** The text of a file, as the document [JSON.parse] reads from it and
    [JSON.stringify] writes to it. Numbers are the integers. *)
Inductive json : Type :=
  | JNull
  | JBool (b : bool)
  | JNum (n : Z)
  | JStr (s : string)
  | JArr (items : list json)
  | JObj (fields : list (string * json)).

Definition loc := positive.

(** What a variable of the program holds: a primitive, or a reference to
    an object (or array) of the heap. Two references to one location are
    the same object: a change made through one is seen through the other. *)
Inductive value : Type :=
  | VNull
  | VBool (b : bool)
  | VNum (n : Z)
  | VStr (s : string)
  | VRef (l : loc).

(** [if (v)]: null, false, 0 and the empty string are falsy, every object
    is truthy. *)
Definition truthy (v : value) : bool :=
  match v with
  | VNull => false
  | VBool b => b
  | VNum n => negb (n =? 0)
  | VStr s => negb (String.eqb s "")
  | VRef _ => true
  end.

(** [v !== null] *)
Definition not_null (v : value) : bool :=
  match v with
  | VNull => false
  | _ => true
  end.

(** The heap gives each object the document it serialises to. *)
Definition JSON_stringify (h : gmap loc json) (v : value) : json :=
  match v with
  | VNull => JNull
  | VBool b => JBool b
  | VNum n => JNum n
  | VStr s => JStr s
  | VRef l => default JNull (h !! l)
  end.

(** [JSON.parse] builds a new object for an array or an object. *)
Definition JSON_parse (doc : json) (h : gmap loc json) : value * gmap loc json :=
  match doc with
  | JNull => (VNull, h)
  | JBool b => (VBool b, h)
  | JNum n => (VNum n, h)
  | JStr s => (VStr s, h)
  | JArr _ | JObj _ => let l := fresh (dom h) in (VRef l, <[l := doc]> h)
  end.

(** ** Paths: [path.join] of Node, POSIX flavour *)

Definition slash : Ascii.ascii := Ascii.ascii_of_nat 47.

Fixpoint segments_from (cur s : string) : list string :=
  match s with
  | EmptyString => [cur]
  | String c rest =>
      if Ascii.eqb c slash then cur :: segments_from "" rest
      else segments_from (cur +:+ String c "") rest
  end.

(** The segments of a path between its separators. *)
Definition segments (p : string) : list string := segments_from "" p.

(** One segment of [normalizeString]; [res] holds the segments kept so
    far, the last one first. *)
Definition normalize_step (allowAboveRoot : bool) (res : list string) (seg : string)
  : list string :=
  if String.eqb seg "" || String.eqb seg "." then res
  else if String.eqb seg ".." then
    match res with
    | last :: before =>
        if String.eqb last ".." then (if allowAboveRoot then ".." :: res else res)
        else before
    | [] => if allowAboveRoot then [".."] else []
    end
  else seg :: res.

Definition starts_with_slash (p : string) : bool :=
  match p with
  | String c _ => Ascii.eqb c slash
  | EmptyString => false
  end.

Fixpoint ends_with_slash (p : string) : bool :=
  match p with
  | EmptyString => false
  | String c EmptyString => Ascii.eqb c slash
  | String _ rest => ends_with_slash rest
  end.

Definition path_normalize (p : string) : string :=
  if String.eqb p "" then "."
  else
    let isAbsolute := starts_with_slash p in
    let trailingSeparator := ends_with_slash p in
    let res :=
      String.concat "/"
        (rev (fold_left (normalize_step (negb isAbsolute)) (segments p) [])) in
    if String.eqb res "" then
      (if isAbsolute then "/" else if trailingSeparator then "./" else ".")
    else
      let res := if trailingSeparator then res +:+ "/" else res in
      if isAbsolute then "/" +:+ res else res.

Definition path_join (args : list string) : string :=
  match filter (fun arg => arg <> "") args with
  | [] => "."
  | joined => path_normalize (String.concat "/" joined)
  end.

(** ** The data of state.ts *)

Inductive StateScope : Type := global | channel | epic.

Record StateEvent : Type := mkStateEvent {
  messageId : string;
  timestamp : string;
  delta : value
}.

Record ChannelStateMetadata : Type := mkMetadata {
  lastModifiedMessageId : option string;
  parentChannelId : option string;
  historyOriginChannelId : option string
}.

(** The result of [getChannelState], which is also the entry of the
    channel cache. *)
Record ChannelState : Type := mkChannelState {
  state : value;
  metadata : ChannelStateMetadata
}.

(** The optional argument [inheritFrom]. *)
Record InheritFrom : Type := mkInheritFrom {
  fromParentChannelId : option string;
  fromHistoryOriginChannelId : option string
}.

(** What the files hold: a channel file is [{state, metadata}], an epic
    file is an array of [{messageId, timestamp, delta}], with documents
    where the program has values. *)
Record ChannelFile : Type := mkChannelFile {
  fileState : json;
  fileMetadata : ChannelStateMetadata
}.

Record StateEventDoc : Type := mkStateEventDoc {
  docMessageId : string;
  docTimestamp : string;
  docDelta : json
}.

Inductive level : Type := Debug | Warn | Error.

(** ** The world of one [PluginStateManager]

    The fields of the manager, the heap of objects, the files under the
    cache directory by path, and what the logger received. There is one
    map per kind of file (global, channel, epic): the paths of the three
    kinds are different paths as long as the channel ids hold no
    separator, and a path that an id with a separator shares with a file
    of another kind is outside of what the maps can tell. Reading an
    absent path is ENOENT; no other failure of the file system is
    modelled, and directories are implicit. *)
Record World : Type := mkWorld {
  cacheDir : string;
  pluginId : string;
  globalCache : value;
  channelCache : gmap string ChannelState;
  epicEventsCache : gmap string (list StateEvent);
  heap : gmap loc json;
  globalFiles : gmap string json;
  channelFiles : gmap string ChannelFile;
  epicFiles : gmap string (list StateEventDoc);
  logged : list (level * string)
}.

Definition set_globalCache (v : value) (w : World) : World :=
  mkWorld (cacheDir w) (pluginId w) v (channelCache w) (epicEventsCache w)
    (heap w) (globalFiles w) (channelFiles w) (epicFiles w) (logged w).

Definition set_channelCache (c : gmap string ChannelState) (w : World) : World :=
  mkWorld (cacheDir w) (pluginId w) (globalCache w) c (epicEventsCache w)
    (heap w) (globalFiles w) (channelFiles w) (epicFiles w) (logged w).

Definition set_epicEventsCache (c : gmap string (list StateEvent)) (w : World) : World :=
  mkWorld (cacheDir w) (pluginId w) (globalCache w) (channelCache w) c
    (heap w) (globalFiles w) (channelFiles w) (epicFiles w) (logged w).

Definition set_heap (h : gmap loc json) (w : World) : World :=
  mkWorld (cacheDir w) (pluginId w) (globalCache w) (channelCache w) (epicEventsCache w)
    h (globalFiles w) (channelFiles w) (epicFiles w) (logged w).

Definition set_globalFiles (f : gmap string json) (w : World) : World :=
  mkWorld (cacheDir w) (pluginId w) (globalCache w) (channelCache w) (epicEventsCache w)
    (heap w) f (channelFiles w) (epicFiles w) (logged w).

Definition set_channelFiles (f : gmap string ChannelFile) (w : World) : World :=
  mkWorld (cacheDir w) (pluginId w) (globalCache w) (channelCache w) (epicEventsCache w)
    (heap w) (globalFiles w) f (epicFiles w) (logged w).

Definition set_epicFiles (f : gmap string (list StateEventDoc)) (w : World) : World :=
  mkWorld (cacheDir w) (pluginId w) (globalCache w) (channelCache w) (epicEventsCache w)
    (heap w) (globalFiles w) (channelFiles w) f (logged w).

Definition set_logged (l : list (level * string)) (w : World) : World :=
  mkWorld (cacheDir w) (pluginId w) (globalCache w) (channelCache w) (epicEventsCache w)
    (heap w) (globalFiles w) (channelFiles w) (epicFiles w) l.

(** [new PluginStateManager(cacheDir, pluginId)] on an empty disk. *)
Definition new_PluginStateManager (dir id : string) : World :=
  mkWorld dir id VNull ∅ ∅ ∅ ∅ ∅ ∅ [].

(** ** Computations on the world *)

Definition M (A : Type) : Type := World -> A * World.

Definition ret {A : Type} (a : A) : M A := fun w => (a, w).

Definition bind {A B : Type} (m : M A) (k : A -> M B) : M B :=
  fun w => match m w with (a, w') => k a w' end.

Notation "'let*' x ':=' m 'in' k" := (bind m (fun x => k))
  (at level 10, x name, m at level 100, k at level 200).
Notation "m ';;' k" := (bind m (fun _ => k))
  (at level 100, k at level 200, right associativity).

Definition gets {A : Type} (f : World -> A) : M A := fun w => (f w, w).

Definition modify (f : World -> World) : M unit := fun w => (tt, f w).

Definition logger (lv : level) (msg : string) : M unit :=
  modify (fun w => set_logged (logged w ++ [(lv, msg)]) w).

(** [JSON.parse] of the text of a file. *)
Definition parse (doc : json) : M value :=
  fun w => match JSON_parse doc (heap w) with (v, h) => (v, set_heap h w) end.

(** [JSON.stringify] of a value. *)
Definition stringify (v : value) : M json :=
  gets (fun w => JSON_stringify (heap w) v).

(** The string of a [string | null | undefined] that is truthy. *)
Definition truthy_id (o : option string) : option string :=
  match o with
  | Some s => if String.eqb s "" then None else Some s
  | None => None
  end.

(** ** Global state *)

Definition globalPath (w : World) : string :=
  path_join [cacheDir w; "plugins"; pluginId w; "global.json"].

Definition getGlobalState : M value :=
  let* cache := gets globalCache in
  if not_null cache then ret cache
  else
    let* file := gets (fun w => globalFiles w !! globalPath w) in
    match file with
    | Some data =>
        let* v := parse data in
        modify (set_globalCache v) ;;
        ret v
    | None => ret VNull
    end.

Definition setGlobalState (st : value) : M unit :=
  let* data := stringify st in
  modify (fun w => set_globalFiles (<[globalPath w := data]> (globalFiles w)) w) ;;
  modify (set_globalCache st) ;;
  logger Debug "Saved global state".

(** ** Channel state *)

Definition channelPath (w : World) (channelId : string) : string :=
  path_join [cacheDir w; "plugins"; pluginId w; "channel"; channelId +:+ ".json"].

(** The cache, then the file: [None] is the ENOENT of [fs.readFile]. *)
Definition loadChannelState (channelId : string) : M (option ChannelState) :=
  let* cached := gets (fun w => channelCache w !! channelId) in
  match cached with
  | Some result => ret (Some result)
  | None =>
      let* file := gets (fun w => channelFiles w !! channelPath w channelId) in
      match file with
      | Some parsed =>
          let* st := parse (fileState parsed) in
          let result := mkChannelState st (fileMetadata parsed) in
          modify (fun w => set_channelCache (<[channelId := result]> (channelCache w)) w) ;;
          ret (Some result)
      | None => ret None
      end
  end.

Definition noChannelState : ChannelState :=
  mkChannelState VNull (mkMetadata None None None).

(** [getChannelState(channelId)] without [inheritFrom]: the calls the
    method makes to itself, and the one of [setChannelState]. *)
Definition getOwnChannelState (channelId : string) : M ChannelState :=
  let* found := loadChannelState channelId in
  match found with
  | Some result => ret result
  | None => ret noChannelState
  end.

(** The branch of the .history origin; [None] when it does not return. *)
Definition inheritFromOrigin (inheritFrom : option InheritFrom) : M (option ChannelState) :=
  match truthy_id (inheritFrom ≫= fromHistoryOriginChannelId) with
  | Some originId =>
      let* origin := getOwnChannelState originId in
      if truthy (state origin) then
        logger Debug "Inheriting channel state from .history origin" ;;
        ret (Some (mkChannelState (state origin)
                     (mkMetadata (lastModifiedMessageId (metadata origin))
                                 (parentChannelId (metadata origin))
                                 (Some originId))))
      else ret None
  | None => ret None
  end.

(** The branch of the parent of a thread. *)
Definition inheritFromParent (inheritFrom : option InheritFrom) : M (option ChannelState) :=
  match truthy_id (inheritFrom ≫= fromParentChannelId) with
  | Some parentId =>
      let* parent := getOwnChannelState parentId in
      if truthy (state parent) then
        logger Debug "Inheriting channel state from parent channel" ;;
        ret (Some (mkChannelState (state parent)
                     (mkMetadata (lastModifiedMessageId (metadata parent))
                                 (Some parentId)
                                 (historyOriginChannelId (metadata parent)))))
      else ret None
  | None => ret None
  end.

Definition getChannelState (channelId : string) (inheritFrom : option InheritFrom)
  : M ChannelState :=
  let* found := loadChannelState channelId in
  match found with
  | Some result => ret result
  | None =>
      let* inherited := inheritFromOrigin inheritFrom in
      match inherited with
      | Some result => ret result
      | None =>
          let* inherited := inheritFromParent inheritFrom in
          match inherited with
          | Some result => ret result
          | None => ret noChannelState
          end
      end
  end.

Definition setChannelState (channelId : string) (st : value) (msgId : option string)
  : M unit :=
  let* existing := getOwnChannelState channelId in
  let md :=
    mkMetadata
      (match truthy_id msgId with
       | Some m => Some m
       | None => lastModifiedMessageId (metadata existing)
       end)
      (parentChannelId (metadata existing))
      (historyOriginChannelId (metadata existing)) in
  let data := mkChannelState st md in
  let* doc := stringify st in
  modify (fun w =>
    set_channelFiles (<[channelPath w channelId := mkChannelFile doc md]> (channelFiles w)) w) ;;
  modify (fun w => set_channelCache (<[channelId := data]> (channelCache w)) w) ;;
  logger Debug "Saved channel state".

(** ** Epic state: the event log *)

Definition epicEventsPath (w : World) (channelId : string) : string :=
  path_join [cacheDir w; "plugins"; pluginId w; "epic"; channelId +:+ ".json"].

(** [JSON.parse] of an epic file: the deltas are built in order. *)
Fixpoint parse_events (docs : list StateEventDoc) (h : gmap loc json)
  : list StateEvent * gmap loc json :=
  match docs with
  | [] => ([], h)
  | d :: rest =>
      match JSON_parse (docDelta d) h with
      | (v, h1) =>
          match parse_events rest h1 with
          | (events, h2) => (mkStateEvent (docMessageId d) (docTimestamp d) v :: events, h2)
          end
      end
  end.

Definition stringify_event (h : gmap loc json) (e : StateEvent) : StateEventDoc :=
  mkStateEventDoc (messageId e) (timestamp e) (JSON_stringify h (delta e)).

Definition getEpicEvents (channelId : string) : M (list StateEvent) :=
  let* cached := gets (fun w => epicEventsCache w !! channelId) in
  match cached with
  | Some events => ret events
  | None =>
      let* file := gets (fun w => epicFiles w !! epicEventsPath w channelId) in
      match file with
      | Some data =>
          let* events :=
            (fun w => match parse_events data (heap w) with
                      | (events, h) => (events, set_heap h w)
                      end) in
          modify (fun w => set_epicEventsCache (<[channelId := events]> (epicEventsCache w)) w) ;;
          ret events
      | None => ret []
      end
  end.

Definition saveEpicEvents (channelId : string) (events : list StateEvent) : M unit :=
  modify (fun w =>
    set_epicFiles
      (<[epicEventsPath w channelId := stringify_event (heap w) <$> events]> (epicFiles w)) w) ;;
  modify (fun w => set_epicEventsCache (<[channelId := events]> (epicEventsCache w)) w).

(** [Array.prototype.sort] with a comparator is a stable sort; the result
    of a stable sort does not depend on the algorithm. This one inserts
    each element before the first one that is not smaller. *)
Fixpoint sort_insert {A : Type} (compareFn : A -> A -> Z) (x : A) (sorted : list A)
  : list A :=
  match sorted with
  | [] => [x]
  | y :: rest =>
      if compareFn x y <=? 0 then x :: y :: rest
      else y :: sort_insert compareFn x rest
  end.

Fixpoint Array_sort {A : Type} (compareFn : A -> A -> Z) (l : list A) : list A :=
  match l with
  | [] => []
  | x :: rest => sort_insert compareFn x (Array_sort compareFn rest)
  end.

Definition compareMessageId {collation : Collation} (a b : StateEvent) : Z :=
  localeCompare (messageId a) (messageId b).

(** [now] is the reading of the clock, [new Date().toISOString()]. *)
Definition recordEpicEvent {collation : Collation} (channelId msgId : string)
    (d : value) (now : string) : M unit :=
  let* events := getEpicEvents channelId in
  let filtered := filter (fun e => messageId e <> msgId) events in
  let filtered := filtered ++ [mkStateEvent msgId now d] in
  let filtered := Array_sort compareMessageId filtered in
  saveEpicEvents channelId filtered ;;
  logger Debug "Recorded epic event".

(** A reducer is a function of the plugin: it reads and builds objects. *)
Definition Reducer : Type := value -> value -> gmap loc json -> value * gmap loc json.

Definition call (reducer : Reducer) (st d : value) : M value :=
  fun w => match reducer st d (heap w) with (st', h) => (st', set_heap h w) end.

(** [upToMessageId && event.messageId.localeCompare(upToMessageId) > 0] *)
Definition pastTarget {collation : Collation} (upToMessageId : option string)
    (event : StateEvent) : bool :=
  match truthy_id upToMessageId with
  | Some upTo => localeCompare (messageId event) upTo >? 0
  | None => false
  end.

(** [messageIds && !messageIds.has(event.messageId)] *)
Definition deleted (messageIds : option (gset string)) (event : StateEvent) : bool :=
  match messageIds with
  | Some ids => negb (bool_decide (messageId event ∈ ids))
  | None => false
  end.

(** The loop of [getEpicState], from the state [st]. *)
Fixpoint replay {collation : Collation} (upToMessageId : option string)
    (messageIds : option (gset string)) (reducer : Reducer) (events : list StateEvent)
    (st : value) : M value :=
  match events with
  | [] => ret st
  | event :: rest =>
      if pastTarget upToMessageId event then ret st
      else if deleted messageIds event then
        logger Debug "Skipping epic event for deleted message" ;;
        replay upToMessageId messageIds reducer rest st
      else
        let* st' := call reducer st (delta event) in
        replay upToMessageId messageIds reducer rest st'
  end.

Definition getEpicState {collation : Collation} (channelId : string)
    (upToMessageId : option string) (messageIds : option (gset string))
    (reducer : Reducer) : M value :=
  let* events := getEpicEvents channelId in
  replay upToMessageId messageIds reducer events VNull.

Definition forkEpicState {collation : Collation}
    (parentChannelIdArg threadId threadCreationMessageId : string) : M unit :=
  let* parentEvents := getEpicEvents parentChannelIdArg in
  let forkedEvents :=
    filter (fun e => localeCompare (messageId e) threadCreationMessageId <= 0) parentEvents in
  if (0 <? Z.of_nat (length forkedEvents)) then
    saveEpicEvents threadId forkedEvents ;;
    logger Debug "Forked epic state for thread"
  else ret tt.

Definition clearCache : M unit :=
  modify (set_globalCache VNull) ;;
  modify (set_channelCache ∅) ;;
  modify (set_epicEventsCache ∅).

(** ** The context factory *)

(** The loop of the constructor: [messagePositions.set(messageIds[i], i)]. *)
Fixpoint setPositions (i : nat) (ids : list string) (positions : gmap string nat)
  : gmap string nat :=
  match ids with
  | [] => positions
  | id :: rest => setPositions (S i) rest (<[id := i]> positions)
  end.

Record PluginContextFactory : Type := mkFactory {
  messageIds : list string;
  messageIdSet : gset string;
  messagePositions : gmap string nat
}.

Definition new_PluginContextFactory (ids : list string) : PluginContextFactory :=
  mkFactory ids (list_to_set ids) (setPositions 0 ids ∅).

Definition calculateCurrentDepth (this : PluginContextFactory)
    (lastModifiedAt : option string) (targetDepth : Z) : Z :=
  match truthy_id lastModifiedAt with
  | None => targetDepth
  | Some id =>
      match messagePositions this !! id with
      | None => targetDepth
      | Some position =>
          let messagesSince := Z.of_nat (length (messageIds this)) - 1 - Z.of_nat position in
          Z.min messagesSince targetDepth
      end
  end.

(** What the closures of [createStateContext] capture. *)
Record PluginStateContext : Type := mkContext {
  channelId : string;
  currentMessageId : string;
  inheritanceInfo : option InheritFrom;
  epicReducer : option Reducer;
  contextMessageIds : gset string
}.

Definition createStateContext (this : PluginContextFactory) (channel current : string)
    (info : option InheritFrom) (reducer : option Reducer) : PluginStateContext :=
  mkContext channel current info reducer (messageIdSet this).

Definition getState {collation : Collation} (ctx : PluginStateContext)
    (scope : StateScope) : M value :=
  match scope with
  | global => getGlobalState
  | channel =>
      let* result := getChannelState (channelId ctx) (inheritanceInfo ctx) in
      ret (state result)
  | epic =>
      match epicReducer ctx with
      | None =>
          logger Warn "Epic reducer not provided, falling back to channel state" ;;
          let* channelResult := getChannelState (channelId ctx) (inheritanceInfo ctx) in
          ret (state channelResult)
      | Some reducer =>
          getEpicState (channelId ctx) None (Some (contextMessageIds ctx)) reducer
      end
  end.

Definition setState {collation : Collation} (ctx : PluginStateContext)
    (scope : StateScope) (st : value) (now : string) : M unit :=
  match scope with
  | global => setGlobalState st
  | channel => setChannelState (channelId ctx) st (Some (currentMessageId ctx))
  | epic => recordEpicEvent (channelId ctx) (currentMessageId ctx) st now
  end.

Definition getStateAtMessage {collation : Collation} (ctx : PluginStateContext)
    (msgId : string) : M value :=
  match epicReducer ctx with
  | None =>
      logger Warn "getStateAtMessage requires epic scope with reducer" ;;
      ret VNull
  | Some reducer =>
      getEpicState (channelId ctx) (Some msgId) (Some (contextMessageIds ctx)) reducer
  end.

(** ** The replay of the specification *)

#[global] Instance lex_le_dec (a b : string) : Decision (lex_le a b).
Proof. unfold lex_le. apply _. Defined.

(** The replay in the words of the specification: the events in stored
    order up to the first one whose id is greater than the bound (all of
    them without a bound), those of them whose id is live (all of them
    without a live set), folded by the reducer from [null]. Greater is
    what the collation says; with [codeUnitCollation] it is the
    lexicographic order the specification names. *)
Fixpoint eventsUpTo {collation : Collation} (upTo : string) (events : list StateEvent)
  : list StateEvent :=
  match events with
  | [] => []
  | e :: rest =>
      if decide (localeCompare (messageId e) upTo <= 0)
      then e :: eventsUpTo upTo rest else []
  end.

Definition boundedEvents {collation : Collation} (bound : option string)
    (events : list StateEvent) : list StateEvent :=
  match bound with
  | Some upTo => eventsUpTo upTo events
  | None => events
  end.

Definition liveEvents (live : option (gset string)) (events : list StateEvent)
  : list StateEvent :=
  match live with
  | Some ids => filter (fun e => messageId e ∈ ids) events
  | None => events
  end.

Fixpoint foldReducer (reducer : Reducer) (deltas : list value) (st : value)
    (h : gmap loc json) : value * gmap loc json :=
  match deltas with
  | [] => (st, h)
  | d :: rest =>
      match reducer st d h with
      | (st', h') => foldReducer reducer rest st' h'
      end
  end.

Definition replaySpec {collation : Collation} (bound : option string)
    (live : option (gset string)) (reducer : Reducer) (events : list StateEvent)
    (h : gmap loc json) : value * gmap loc json :=
  foldReducer reducer (delta <$> liveEvents live (boundedEvents bound events)) VNull h.

(** A reducer that creates and changes no object: it leaves the heap as
    it is. *)
Definition keepsObjects (reducer : Reducer) : Prop :=
  forall st d h, (reducer st d h).2 = h.

(** An event without the reading of the clock. *)
Definition undated (e : StateEvent) : StateEvent :=
  mkStateEvent (messageId e) "" (delta e).

(** The reducer of scenario S3: [(s, d) => (s || 0) + d]. *)
Definition sumReducer : Reducer := fun st d h =>
  (VNum ((match st with VNum n => n | _ => 0 end) + (match d with VNum n => n | _ => 0 end)), h).

(** ** The event log of a channel and its invariant *)

(** The log of a channel, as [getEpicEvents] reads it. *)
Definition eventLog (w : World) (c : string) : list StateEvent :=
  fst (getEpicEvents c w).

(** The log and the heap a replay of the channel starts from. *)
Definition replayed (c : string) (w : World) : list StateEvent * gmap loc json :=
  (eventLog w c, heap (getEpicEvents c w).2).

(** The message ids of the stored log: those of the cache entry, else of
    the file. *)
Definition logIds (w : World) (c : string) : list string :=
  match epicEventsCache w !! c with
  | Some events => messageId <$> events
  | None =>
      match epicFiles w !! epicEventsPath w c with
      | Some docs => docMessageId <$> docs
      | None => []
      end
  end.

(** [a] is stored before [b]: the id of [a] is not greater than the id
    of [b] in the collation. *)
Definition idOrder {collation : Collation} (a b : StateEvent) : Prop :=
  localeCompare (messageId a) (messageId b) <= 0.

(** The same in the lexicographic order of the specification. *)
Definition lexOrder (a b : StateEvent) : Prop := lex_le (messageId a) (messageId b).

(** At most one event per message id, and sorted by message id. *)
Definition logInvariant {collation : Collation} (events : list StateEvent) : Prop :=
  NoDup (messageId <$> events) /\ StronglySorted idOrder events.

(** One call [recordEpicEvent(channelId, messageId, delta)] and the
    reading of the clock during it. *)
Record RecordCall : Type := mkRecordCall {
  callChannelId : string;
  callMessageId : string;
  callDelta : value;
  callNow : string
}.

Fixpoint recordAll {collation : Collation} (calls : list RecordCall) : M unit :=
  match calls with
  | [] => ret tt
  | call :: rest =>
      recordEpicEvent (callChannelId call) (callMessageId call) (callDelta call) (callNow call) ;;
      recordAll rest
  end.

(** The log [recordEpicEvent] computes from the log it reads. *)
Definition recorded {collation : Collation} (events : list StateEvent) (m : string)
    (d : value) (now : string) : list StateEvent :=
  Array_sort compareMessageId (filter (fun e => messageId e <> m) events ++ [mkStateEvent m now d]).

(** The events [forkEpicState] copies: those with an id up to the fork
    point. *)
Definition forked {collation : Collation} (events : list StateEvent) (forkPoint : string)
  : list StateEvent :=
  filter (fun e => localeCompare (messageId e) forkPoint <= 0) events.

(** The channel has no log: no cache entry and no file. *)
Definition noLog (w : World) (c : string) : Prop :=
  epicEventsCache w !! c = None /\ epicFiles w !! epicEventsPath w c = None.

(** ** Stored channel state *)

(** The channel has no stored state: no cache entry and no file. *)
Definition noState (w : World) (c : string) : Prop :=
  channelCache w !! c = None /\ channelFiles w !! channelPath w c = None.

(** Truthiness of the value [JSON.parse] reads from a document. *)
Definition truthy_json (doc : json) : bool :=
  match doc with
  | JNull => false
  | JBool b => b
  | JNum n => negb (n =? 0)
  | JStr s => negb (String.eqb s "")
  | JArr _ | JObj _ => true
  end.

(** The channel has a state that [if (origin.state)] accepts: that of
    the cache entry, else that of the file. *)
Definition hasTruthyState (w : World) (c : string) : bool :=
  match channelCache w !! c with
  | Some result => truthy (state result)
  | None =>
      match channelFiles w !! channelPath w c with
      | Some parsed => truthy_json (fileState parsed)
      | None => false
      end
  end.

(** What [getChannelState] returns for a state inherited from the
    .history origin [originId], and from the parent [parentId]. *)
Definition inheritedFromOrigin (origin : ChannelState) (originId : string) : ChannelState :=
  mkChannelState (state origin)
    (mkMetadata (lastModifiedMessageId (metadata origin))
                (parentChannelId (metadata origin))
                (Some originId)).

Definition inheritedFromParent (parent : ChannelState) (parentId : string) : ChannelState :=
  mkChannelState (state parent)
    (mkMetadata (lastModifiedMessageId (metadata parent))
                (Some parentId)
                (historyOriginChannelId (metadata parent))).

(** [getChannelState(id)] for an id that may be absent or empty: the
    read is made for a truthy id only. *)
Definition readNamed (id : option string) : M ChannelState :=
  match truthy_id id with
  | Some c => getOwnChannelState c
  | None => ret noChannelState
  end.

(** A change made in place through a reference, as [state.counter = 6]
    makes it: the object takes the new content. *)
Definition assignInPlace (v : value) (content : json) : M unit :=
  match v with
  | VRef l => modify (fun w => set_heap (<[l := content]> (heap w)) w)
  | _ => ret tt
  end.

(** The id that [inheritFrom] names and whose channel has a truthy
    state. *)
Definition namedWithState (w : World) (id : option string) : option string :=
  match truthy_id id with
  | Some c => if hasTruthyState w c then Some c else None
  | None => None
  end.

(** The metadata [setChannelState] writes over the existing one. *)
Definition writtenMetadata (existing : ChannelStateMetadata) (msgId : option string)
  : ChannelStateMetadata :=
  mkMetadata
    (match truthy_id msgId with
     | Some m => Some m
     | None => lastModifiedMessageId existing
     end)
    (parentChannelId existing)
    (historyOriginChannelId existing).

(** ** Worlds of the scenarios *)

(** An object [{counter: n}]. *)
Definition counter (n : Z) : json := JObj [("counter", JNum n)].

(** A manager of plugin ["notes"] whose parent channel ["P"] has the
    state [{counter: 5}], written at message ["m1"], after a restart
    (the caches are empty, the state is in the file). *)
Definition parentOnDisk : World :=
  ((setChannelState "P" (VRef 1%positive) (Some "m1") ;; clearCache)
     (set_heap {[1%positive := counter 5]} (new_PluginStateManager "cache" "notes"))).2.

(** A manager whose channel ["O"] has the state [0], written at message
    ["m1"], and whose channel ["P"] has the state [7], written at ["m2"]. *)
Definition zeroOrigin : World :=
  ((setChannelState "O" (VNum 0) (Some "m1") ;; setChannelState "P" (VNum 7) (Some "m2"))
     (new_PluginStateManager "cache" "notes")).2.


(** ** The snapshot of message ids *)

(** [updateMessageIds]: the array and the set are replaced by new ones,
    the position map is cleared and filled again in place. *)
Definition updateMessageIds (this : PluginContextFactory) (ids : list string)
  : PluginContextFactory :=
  mkFactory ids (list_to_set ids) (setPositions 0 ids ∅).

(** What the closures of a context hold of the message ids: the array
    and the set of the factory at the time of [createStateContext]. The
    position map is not in it: the closures hold the [Map] object of the
    factory itself, which [updateMessageIds] changes in place, so that
    they read the positions the factory has at the time of the call. *)
Record Snapshot : Type := mkSnapshot {
  capturedMessageIds : list string;
  capturedMessageIdSet : gset string
}.

Definition snapshotOf (this : PluginContextFactory) : Snapshot :=
  mkSnapshot (messageIds this) (messageIdSet this).

(** [messagesSinceId] of a context created when the factory was
    [snapshot], called when the factory is [this]; [None] is [Infinity]. *)
Definition messagesSinceId (snapshot : Snapshot) (this : PluginContextFactory)
    (msgId : option string) : option Z :=
  match truthy_id msgId with
  | None => None
  | Some id =>
      match messagePositions this !! id with
      | None => None
      | Some position =>
          Some (Z.of_nat (length (capturedMessageIds snapshot)) - 1 - Z.of_nat position)
      end
  end.

(** [k] is the last index of [id] in [ids]. *)
Definition lastIndex (ids : list string) (id : string) (k : nat) : Prop :=
  ids !! k = Some id /\ forall j, (k < j)%nat -> ids !! j <> Some id.


(** ** Sequences of calls on the event logs *)

(** A call of one of the public methods on the epic state. *)
Inductive EpicCall : Type :=
  | CallRecord (channelId msgId : string) (d : value) (now : string)
  | CallFork (parentId threadId threadCreationMessageId : string)
  | CallReplay (channelId : string) (upToMessageId : option string)
      (messageIds : option (gset string)) (reducer : Reducer).

Definition runEpicCall {collation : Collation} (call : EpicCall) : M unit :=
  match call with
  | CallRecord c m d now => recordEpicEvent c m d now
  | CallFork p t forkPoint => forkEpicState p t forkPoint
  | CallReplay c upTo live reducer => getEpicState c upTo live reducer ;; ret tt
  end.

Fixpoint runEpicCalls {collation : Collation} (calls : list EpicCall) : M unit :=
  match calls with
  | [] => ret tt
  | call :: rest => runEpicCall call ;; runEpicCalls rest
  end.


(** ** Sequences of calls on the channel states *)

(** A call of one of the public methods on the channel state. *)
Inductive ChannelCall : Type :=
  | CallGet (channelId : string) (inheritFrom : option InheritFrom)
  | CallSet (channelId : string) (st : value) (msgId : option string).

Definition runChannelCall (call : ChannelCall) : M unit :=
  match call with
  | CallGet c inheritFrom => getChannelState c inheritFrom ;; ret tt
  | CallSet c st msgId => setChannelState c st msgId
  end.

Fixpoint runChannelCalls (calls : list ChannelCall) : M unit :=
  match calls with
  | [] => ret tt
  | call :: rest => runChannelCall call ;; runChannelCalls rest
  end.

(** The metadata names no parent and no history origin. *)
Definition noAncestry (md : ChannelStateMetadata) : Prop :=
  parentChannelId md = None /\ historyOriginChannelId md = None.

(** No stored metadata, in the cache or in a file, names a parent or a
    history origin. *)
Definition storedWithoutAncestry (w : World) : Prop :=
  (forall c result, channelCache w !! c = Some result -> noAncestry (metadata result))
  /\ (forall path parsed, channelFiles w !! path = Some parsed ->
        noAncestry (fileMetadata parsed)).


(** ** Identifiers without a separator *)

Fixpoint hasSlash (s : string) : bool :=
  match s with
  | EmptyString => false
  | String c rest => Ascii.eqb c slash || hasSlash rest
  end.

(** A name that [path.join] keeps as one segment: not empty, without a
    separator, and neither [.] nor [..]. *)
Definition plainName (s : string) : Prop :=
  hasSlash s = false /\ s <> "" /\ s <> "." /\ s <> "..".

(** * Properties *)

Section Properties.
Context {collation : Collation}.

(** ** The order of the code units *)

Lemma ascii_compare_refl (c : Ascii.ascii) : Ascii.compare c c = Eq.
Proof. unfold Ascii.compare. apply N.compare_refl. Qed.

Lemma string_compare_refl (s : string) : String.compare s s = Eq.
Proof. induction s as [|c s IH]; simpl; [done|]. by rewrite ascii_compare_refl. Qed.

Lemma ascii_compare_lt_trans (a b c : Ascii.ascii) :
  Ascii.compare a b = Lt -> Ascii.compare b c = Lt -> Ascii.compare a c = Lt.
Proof.
  unfold Ascii.compare. rewrite !N.compare_lt_iff. apply N.lt_trans.
Qed.

Lemma string_compare_lt_trans (a b c : string) :
  String.compare a b = Lt -> String.compare b c = Lt -> String.compare a c = Lt.
Proof.
  revert b c. induction a as [|x a IH]; intros [|y b] [|z c]; simpl; try done.
  destruct (Ascii.compare x y) eqn:Hxy; try done;
    destruct (Ascii.compare y z) eqn:Hyz; try done.
  - apply Ascii.compare_eq_iff in Hxy, Hyz. subst.
    rewrite ascii_compare_refl. apply IH.
  - apply Ascii.compare_eq_iff in Hxy. subst. by rewrite Hyz.
  - apply Ascii.compare_eq_iff in Hyz. subst. by rewrite Hxy.
  - by rewrite (ascii_compare_lt_trans x y z).
Qed.

Lemma lex_le_refl (a : string) : lex_le a a.
Proof. unfold lex_le. by rewrite string_compare_refl. Qed.

Lemma lex_le_total (a b : string) : lex_le a b \/ lex_le b a.
Proof.
  unfold lex_le. rewrite (String.compare_antisym a b).
  destruct (String.compare b a); simpl; auto.
Qed.

Lemma lex_le_trans (a b c : string) : lex_le a b -> lex_le b c -> lex_le a c.
Proof.
  unfold lex_le. intros Hab Hbc.
  destruct (String.compare a b) eqn:E1; [| |done].
  - apply String.compare_eq_iff in E1. by subst.
  - destruct (String.compare b c) eqn:E2; [| |done].
    + apply String.compare_eq_iff in E2. subst. by rewrite E1.
    + by rewrite (string_compare_lt_trans a b c).
Qed.

Lemma codeUnitCompare_le (a b : string) : codeUnitCompare a b <= 0 <-> lex_le a b.
Proof.
  unfold codeUnitCompare, lex_le.
  destruct (String.compare a b); split; intros H; try done; try lia.
Qed.

(** The order of the code units is a consistent comparison, and so is
    every comparison of sort keys in it. *)
Lemma codeUnitCollation_consistent : @ConsistentComparator codeUnitCollation.
Proof.
  split; unfold localeCompare, codeUnitCollation.
  - intros a b. rewrite !codeUnitCompare_le. apply lex_le_total.
  - intros a b c. rewrite !codeUnitCompare_le. apply lex_le_trans.
Qed.

Lemma alphanumericCollation_consistent : @ConsistentComparator alphanumericCollation.
Proof.
  split; unfold localeCompare, alphanumericCollation.
  - intros a b. rewrite !codeUnitCompare_le. apply lex_le_total.
  - intros a b c. rewrite !codeUnitCompare_le. apply lex_le_trans.
Qed.

(** [> 0] is the negation of [<= 0]. *)
Lemma localeCompare_gt (a b : string) :
  (localeCompare a b >? 0) = true <-> ~ localeCompare a b <= 0.
Proof. rewrite Z.gtb_ltb, Z.ltb_lt. lia. Qed.

(** ** Sorting *)

Section Sorting.
Context {A : Type} (compareFn : A -> A -> Z) (R : A -> A -> Prop).

Hypothesis compare_le : forall x y, compareFn x y <= 0 <-> R x y.
Hypothesis R_total : forall x y, R x y \/ R y x.
Hypothesis R_trans : forall x y z, R x y -> R y z -> R x z.

Lemma sort_insert_perm (x : A) (l : list A) : sort_insert compareFn x l ≡ₚ x :: l.
Proof.
  induction l as [|y l IH]; simpl; [done|].
  destruct (compareFn x y <=? 0); [done|].
  rewrite IH. apply Permutation_swap.
Qed.

Lemma Array_sort_perm (l : list A) : Array_sort compareFn l ≡ₚ l.
Proof.
  induction l as [|x l IH]; simpl; [done|].
  by rewrite sort_insert_perm, IH.
Qed.

Lemma sort_insert_sorted (x : A) (l : list A) :
  StronglySorted R l -> StronglySorted R (sort_insert compareFn x l).
Proof.
  induction l as [|y l IH]; simpl; intros Hs.
  - repeat constructor.
  - apply StronglySorted_cons in Hs as [Hy Hl].
    destruct (compareFn x y <=? 0) eqn:E.
    + apply Z.leb_le, compare_le in E. apply StronglySorted_cons. split.
      * constructor; [done|].
        eapply Forall_impl; [exact Hy|]. intros z Hz. by apply R_trans with y.
      * by apply StronglySorted_cons.
    + apply Z.leb_gt in E. apply StronglySorted_cons. split; [|by apply IH].
      rewrite sort_insert_perm. constructor; [|done].
      destruct (R_total x y) as [H|H]; [apply compare_le in H; lia|done].
Qed.

Lemma Array_sort_sorted (l : list A) : StronglySorted R (Array_sort compareFn l).
Proof.
  induction l as [|x l IH]; simpl; [constructor|]. by apply sort_insert_sorted.
Qed.

(** An element that is not greater than any of the list goes first. *)
Lemma sort_insert_least (x : A) (l : list A) :
  Forall (R x) l -> sort_insert compareFn x l = x :: l.
Proof.
  destruct 1 as [|y l Hy _]; simpl; [done|].
  apply compare_le, Z.leb_le in Hy. by rewrite Hy.
Qed.

(** Sorting leaves a sorted list as it is. *)
Lemma Array_sort_sorted_id (l : list A) :
  StronglySorted R l -> Array_sort compareFn l = l.
Proof.
  induction 1 as [|x l Hs IH Hall]; simpl; [done|].
  rewrite IH. by apply sort_insert_least.
Qed.

Lemma filter_sort_insert (P : A -> Prop) `{!forall x, Decision (P x)} (x : A) (l : list A) :
  StronglySorted R l ->
  filter P (sort_insert compareFn x l) =
    if decide (P x) then sort_insert compareFn x (filter P l) else filter P l.
Proof.
  induction 1 as [|y l Hs IH Hall]; simpl.
  - rewrite filter_cons, filter_nil. by destruct (decide (P x)).
  - destruct (compareFn x y <=? 0) eqn:E.
    + rewrite filter_cons. destruct (decide (P x)) as [Hx|Hx]; [|done].
      symmetry. apply sort_insert_least.
      apply Z.leb_le, compare_le in E.
      apply Forall_forall. intros z Hz. apply list_elem_of_filter in Hz as [_ Hz].
      apply elem_of_cons in Hz as [->|Hz]; [done|].
      rewrite Forall_forall in Hall. apply R_trans with y; [done|by apply Hall].
    + rewrite !(filter_cons _ y), IH.
      destruct (decide (P y)); destruct (decide (P x)); simpl; try done.
      by rewrite E.
Qed.

(** A stable sort and a filter can be done in either order. *)
Lemma filter_Array_sort (P : A -> Prop) `{!forall x, Decision (P x)} (l : list A) :
  filter P (Array_sort compareFn l) = Array_sort compareFn (filter P l).
Proof.
  induction l as [|x l IH]; simpl; [done|].
  rewrite filter_sort_insert by apply Array_sort_sorted.
  rewrite filter_cons. destruct (decide (P x)); simpl; by rewrite IH.
Qed.

Lemma sort_insert_comm (x y : A) (l : list A) :
  ~ R x y ->
  sort_insert compareFn y (sort_insert compareFn x l) =
  sort_insert compareFn x (sort_insert compareFn y l).
Proof.
  intros Hxy.
  assert (R y x) as Hyx by (by destruct (R_total x y)).
  assert ((compareFn x y <=? 0) = false) as Ex.
  { apply Z.leb_gt. rewrite <- compare_le in Hxy. lia. }
  assert ((compareFn y x <=? 0) = true) as Ey by by apply Z.leb_le, compare_le.
  induction l as [|z l IH]; simpl.
  - by rewrite Ex, Ey.
  - destruct (compareFn x z <=? 0) eqn:Exz; destruct (compareFn y z <=? 0) eqn:Eyz;
      simpl; rewrite ?Ex, ?Ey, ?Exz, ?Eyz; try done.
    + exfalso. apply Z.leb_le, compare_le in Exz. apply Z.leb_gt in Eyz.
      pose proof (R_trans y x z Hyx Exz) as H. apply compare_le in H. lia.
    + by rewrite IH.
Qed.

Lemma foldr_sort_insert (x : A) (sorted acc : list A) :
  foldr (sort_insert compareFn) acc (sort_insert compareFn x sorted) =
  sort_insert compareFn x (foldr (sort_insert compareFn) acc sorted).
Proof.
  induction sorted as [|y sorted IH]; simpl; [done|].
  destruct (compareFn x y <=? 0) eqn:E; [done|].
  simpl. rewrite IH. apply sort_insert_comm.
  intros H. apply compare_le in H. apply Z.leb_gt in E. lia.
Qed.

Lemma Array_sort_app (l1 l2 : list A) :
  Array_sort compareFn (l1 ++ l2) =
  foldr (sort_insert compareFn) (Array_sort compareFn l2) l1.
Proof. induction l1 as [|x l1 IH]; simpl; [done|]. by rewrite IH. Qed.

Lemma foldr_Array_sort (acc l : list A) :
  foldr (sort_insert compareFn) acc (Array_sort compareFn l) =
  foldr (sort_insert compareFn) acc l.
Proof.
  induction l as [|x l IH]; simpl; [done|]. by rewrite foldr_sort_insert, IH.
Qed.

(** Sorting a part of the list first does not change the result. *)
Lemma Array_sort_app_sorted (l1 l2 : list A) :
  Array_sort compareFn (Array_sort compareFn l1 ++ l2) = Array_sort compareFn (l1 ++ l2).
Proof. by rewrite !Array_sort_app, foldr_Array_sort. Qed.

(** The sort sees the elements through the comparison only. *)
Lemma sort_insert_fmap (f : A -> A) (x : A) (l : list A) :
  (forall x y, compareFn (f x) (f y) = compareFn x y) ->
  f <$> sort_insert compareFn x l = sort_insert compareFn (f x) (f <$> l).
Proof.
  intros Hf. induction l as [|y l IH]; [done|].
  rewrite fmap_cons. cbn [sort_insert]. rewrite Hf.
  destruct (compareFn x y <=? 0); [done|]. by rewrite fmap_cons, IH.
Qed.

Lemma Array_sort_fmap (f : A -> A) (l : list A) :
  (forall x y, compareFn (f x) (f y) = compareFn x y) ->
  f <$> Array_sort compareFn l = Array_sort compareFn (f <$> l).
Proof.
  intros Hf. induction l as [|x l IH]; [done|].
  rewrite fmap_cons. cbn [Array_sort]. by rewrite sort_insert_fmap, IH.
Qed.
End Sorting.
(** ** Replay (C1) *)

Lemma boundedEvents_cons (upTo : option string) (e : StateEvent) (rest : list StateEvent) :
  boundedEvents (truthy_id upTo) (e :: rest) =
    if pastTarget upTo e then [] else e :: boundedEvents (truthy_id upTo) rest.
Proof.
  unfold pastTarget, boundedEvents. destruct (truthy_id upTo) as [u|]; [|done].
  simpl. destruct (localeCompare (messageId e) u >? 0) eqn:E.
  - apply localeCompare_gt in E. by rewrite decide_False.
  - rewrite decide_True; [done|]. rewrite Z.gtb_ltb, Z.ltb_ge in E. done.
Qed.

Lemma liveEvents_cons (live : option (gset string)) (e : StateEvent) (rest : list StateEvent) :
  liveEvents live (e :: rest) =
    if deleted live e then liveEvents live rest else e :: liveEvents live rest.
Proof.
  unfold deleted, liveEvents. destruct live as [ids|]; [|done].
  rewrite filter_cons. case_bool_decide; simpl.
  - by rewrite decide_True.
  - by rewrite decide_False.
Qed.

(** The loop of [getEpicState] computes the fold of the live events up to
    the bound, and changes nothing of the world but the heap the reducer
    works on and the log. *)
Lemma replay_fold (upTo : option string) (live : option (gset string)) (reducer : Reducer)
    (events : list StateEvent) (st : value) (w : World) :
  let r := replay upTo live reducer events st w in
  let kept := liveEvents live (boundedEvents (truthy_id upTo) events) in
  (fst r, heap (snd r)) = foldReducer reducer (delta <$> kept) st (heap w)
  /\ set_logged [] (set_heap ∅ (snd r)) = set_logged [] (set_heap ∅ w).
Proof.
  revert st w. induction events as [|e rest IH]; intros st w.
  - cbn zeta. unfold boundedEvents. by destruct (truthy_id upTo), live.
  - cbn zeta. rewrite boundedEvents_cons. simpl replay.
    destruct (pastTarget upTo e); [by destruct live|].
    rewrite liveEvents_cons. destruct (deleted live e).
    + unfold bind, logger, modify.
      destruct (IH st (set_logged (logged w ++ [(Debug, "Skipping epic event for deleted message")]) w))
        as [H1 H2].
      split; [exact H1|]. rewrite H2. done.
    + unfold bind, call. rewrite fmap_cons. simpl foldReducer.
      destruct (reducer st (delta e) (heap w)) as [st' h'].
      destruct (IH st' (set_heap h' w)) as [H1 H2].
      split; [exact H1|]. rewrite H2. done.
Qed.

(** C1, as amended: [getEpicState] folds the events of the log in stored
    order from the state [null], stops before the first event whose id
    compares greater than [upToMessageId] under [localeCompare] (whatever
    the collation is) when [upToMessageId] is a non-empty string, replays
    every event when it is [null] or the empty string, skips the events
    whose id is not in the live set when there is one, and returns the
    accumulated state. *)
Theorem getEpicState_replays (c : string) (upTo : option string)
    (live : option (gset string)) (reducer : Reducer) (w : World) :
  let log := getEpicEvents c w in
  let r := getEpicState c upTo live reducer w in
  (fst r, heap (snd r)) =
    replaySpec (truthy_id upTo) live reducer (fst log) (heap (snd log)).
Proof.
  cbn zeta. unfold getEpicState, bind.
  destruct (getEpicEvents c w) as [events w1]. simpl.
  apply replay_fold.
Qed.

(** ** The event log (C2) *)

Lemma parse_events_ids (docs : list StateEventDoc) (h : gmap loc json) :
  messageId <$> (parse_events docs h).1 = docMessageId <$> docs.
Proof.
  revert h. induction docs as [|d rest IH]; intros h; simpl; [done|].
  destruct (JSON_parse (docDelta d) h) as [v h1].
  specialize (IH h1). destruct (parse_events rest h1) as [events h2].
  simpl in *. by f_equal.
Qed.

Lemma stringify_events_ids (h : gmap loc json) (events : list StateEvent) :
  docMessageId <$> (stringify_event h <$> events) = messageId <$> events.
Proof. rewrite <- list_fmap_compose. done. Qed.

(** The three ways [getEpicEvents] returns. *)
Lemma getEpicEvents_cases (c : string) (w : World) :
  (exists events, epicEventsCache w !! c = Some events /\ getEpicEvents c w = (events, w))
  \/ (exists docs, epicEventsCache w !! c = None
        /\ epicFiles w !! epicEventsPath w c = Some docs
        /\ getEpicEvents c w =
             ((parse_events docs (heap w)).1,
              set_epicEventsCache
                (<[c := (parse_events docs (heap w)).1]> (epicEventsCache w))
                (set_heap (parse_events docs (heap w)).2 w)))
  \/ (epicEventsCache w !! c = None /\ epicFiles w !! epicEventsPath w c = None
        /\ getEpicEvents c w = ([], w)).
Proof.
  unfold getEpicEvents, bind, gets, ret, modify.
  destruct (epicEventsCache w !! c) as [events|] eqn:Hc; [left; eauto|right].
  destruct (epicFiles w !! epicEventsPath w c) as [docs|] eqn:Hf; [left|right; done].
  exists docs. split; [done|]. split; [done|].
  by destruct (parse_events docs (heap w)).
Qed.

Lemma eventLog_ids (w : World) (c : string) : messageId <$> eventLog w c = logIds w c.
Proof.
  unfold eventLog, logIds.
  destruct (getEpicEvents_cases c w) as [(events & Hc & ->)|[(docs & Hc & Hf & ->)|(Hc & Hf & ->)]];
    rewrite Hc, ?Hf; simpl; [done| |done].
  apply parse_events_ids.
Qed.

(** Reading a log changes no stored log. *)
Lemma getEpicEvents_logIds (c c' : string) (w : World) :
  logIds (getEpicEvents c w).2 c' = logIds w c'.
Proof.
  destruct (getEpicEvents_cases c w) as [(events & Hc & ->)|[(docs & Hc & Hf & ->)|(Hc & Hf & ->)]];
    [done| |done].
  unfold logIds, epicEventsPath. simpl.
  destruct (decide (c = c')) as [<-|Hne].
  - rewrite lookup_insert_eq, Hc. unfold epicEventsPath in Hf. rewrite Hf.
    apply parse_events_ids.
  - by rewrite lookup_insert_ne.
Qed.

Lemma logInvariant_ids (events events' : list StateEvent) :
  messageId <$> events = messageId <$> events' ->
  logInvariant events -> logInvariant events'.
Proof.
  unfold logInvariant. intros Heq [Hnd Hs]. split; [by rewrite <- Heq|].
  clear Hnd. revert events' Heq.
  induction Hs as [|e events Hs IH Hall]; intros [|e' events'] Heq; try done;
    [constructor|].
  rewrite !fmap_cons in Heq. injection Heq as He Hrest.
  constructor; [by apply IH|].
  apply Forall_forall. intros x Hx.
  assert (messageId x ∈ messageId <$> events) as Hin.
  { rewrite Hrest. by apply list_elem_of_fmap_2. }
  apply list_elem_of_fmap in Hin as (y & Hy & Hyin).
  rewrite Forall_forall in Hall. specialize (Hall y Hyin).
  unfold idOrder in *. by rewrite <- He, Hy.
Qed.

(** The sorting lemmas, for the comparison of the ids of two events. *)
Lemma idOrder_compare (a b : StateEvent) : compareMessageId a b <= 0 <-> idOrder a b.
Proof. done. Qed.

Lemma idOrder_total `{!ConsistentComparator} (a b : StateEvent) :
  idOrder a b \/ idOrder b a.
Proof. apply localeCompare_total. Qed.

Lemma idOrder_trans `{!ConsistentComparator} (a b c : StateEvent) :
  idOrder a b -> idOrder b c -> idOrder a c.
Proof. apply localeCompare_trans. Qed.

Lemma Array_sort_idOrder `{!ConsistentComparator} (events : list StateEvent) :
  StronglySorted idOrder (Array_sort compareMessageId events).
Proof.
  apply Array_sort_sorted;
    [apply idOrder_compare|apply idOrder_total|apply idOrder_trans].
Qed.

Lemma Array_sort_idOrder_id `{!ConsistentComparator} (events : list StateEvent) :
  StronglySorted idOrder events -> Array_sort compareMessageId events = events.
Proof. apply Array_sort_sorted_id. apply idOrder_compare. Qed.

Lemma filter_Array_sort_idOrder `{!ConsistentComparator} (P : StateEvent -> Prop)
    `{!forall e, Decision (P e)} (events : list StateEvent) :
  filter P (Array_sort compareMessageId events) =
  Array_sort compareMessageId (filter P events).
Proof.
  apply (filter_Array_sort compareMessageId idOrder);
    [apply idOrder_compare|apply idOrder_total|apply idOrder_trans].
Qed.

Lemma Array_sort_app_idOrder `{!ConsistentComparator} (l1 l2 : list StateEvent) :
  Array_sort compareMessageId (Array_sort compareMessageId l1 ++ l2) =
  Array_sort compareMessageId (l1 ++ l2).
Proof.
  apply (Array_sort_app_sorted compareMessageId idOrder);
    [apply idOrder_compare|apply idOrder_total|apply idOrder_trans].
Qed.

Lemma Array_sort_ids (events : list StateEvent) :
  Array_sort compareMessageId events ≡ₚ events.
Proof. apply Array_sort_perm. Qed.

Lemma filter_ids_NoDup (P : StateEvent -> Prop) `{!forall e, Decision (P e)}
    (events : list StateEvent) :
  NoDup (messageId <$> events) -> NoDup (messageId <$> filter P events).
Proof.
  induction events as [|e events IH]; [done|].
  rewrite fmap_cons, NoDup_cons, filter_cons. intros [Hn Hnd].
  destruct (decide (P e)); [|by apply IH].
  rewrite fmap_cons, NoDup_cons. split; [|by apply IH].
  intros Hin. apply Hn.
  apply list_elem_of_fmap in Hin as (y & Hy & Hyin).
  apply list_elem_of_filter in Hyin as [_ Hyin].
  rewrite Hy. by apply list_elem_of_fmap_2.
Qed.

Lemma recorded_perm (events : list StateEvent) (m : string) (d : value) (now : string) :
  recorded events m d now ≡ₚ
    mkStateEvent m now d :: filter (fun e => messageId e <> m) events.
Proof.
  unfold recorded. rewrite Array_sort_ids. by rewrite Permutation_app_comm.
Qed.

Lemma recorded_invariant `{!ConsistentComparator} (events : list StateEvent) (m : string)
    (d : value) (now : string) :
  NoDup (messageId <$> events) -> logInvariant (recorded events m d now).
Proof.
  intros Hnd. split; [|apply Array_sort_idOrder].
  rewrite recorded_perm, fmap_cons, NoDup_cons. simpl. split.
  - intros Hin. apply list_elem_of_fmap in Hin as (y & Hy & Hyin).
    apply list_elem_of_filter in Hyin as [Hne _]. done.
  - by apply filter_ids_NoDup.
Qed.

(** The world after [recordEpicEvent]: the file and the cache entry of
    the channel hold the new log. *)
Lemma recordEpicEvent_world (c m : string) (d : value) (now : string) (w : World) :
  let w1 := (getEpicEvents c w).2 in
  let log := recorded (eventLog w c) m d now in
  (recordEpicEvent c m d now w).2 =
    set_logged (logged w1 ++ [(Debug, "Recorded epic event")])
      (set_epicEventsCache (<[c := log]> (epicEventsCache w1))
         (set_epicFiles
            (<[epicEventsPath w1 c := stringify_event (heap w1) <$> log]> (epicFiles w1)) w1)).
Proof.
  cbn zeta. unfold recordEpicEvent, eventLog, bind.
  destruct (getEpicEvents c w) as [events w1]. done.
Qed.

Lemma getEpicEvents_cached (c : string) (events : list StateEvent) (w : World) :
  epicEventsCache w !! c = Some events -> getEpicEvents c w = (events, w).
Proof. intros H. unfold getEpicEvents, bind, gets, ret. by rewrite H. Qed.

Lemma recordEpicEvent_log (c m : string) (d : value) (now : string) (w : World) :
  eventLog (recordEpicEvent c m d now w).2 c = recorded (eventLog w c) m d now.
Proof.
  rewrite recordEpicEvent_world. unfold eventLog at 1.
  rewrite (getEpicEvents_cached c (recorded (eventLog w c) m d now)); [done|].
  simpl. apply lookup_insert_eq.
Qed.

(** The stored log of any channel after [recordEpicEvent] is the one it
    had, or the new log (the channel itself, or one whose file is the
    same file). *)
Lemma recordEpicEvent_logIds (c m : string) (d : value) (now : string) (w : World)
    (c' : string) :
  logIds (recordEpicEvent c m d now w).2 c' = logIds w c'
  \/ logIds (recordEpicEvent c m d now w).2 c' =
       messageId <$> recorded (eventLog w c) m d now.
Proof.
  rewrite recordEpicEvent_world. rewrite <- (getEpicEvents_logIds c c' w).
  set (w1 := (getEpicEvents c w).2). set (log := recorded (eventLog w c) m d now).
  unfold logIds, epicEventsPath. simpl.
  destruct (decide (c = c')) as [<-|Hne].
  - right. by rewrite lookup_insert_eq.
  - rewrite lookup_insert_ne by done.
    destruct (epicEventsCache w1 !! c'); [by left|].
    rewrite lookup_insert. case_decide as Hp.
    + right. apply stringify_events_ids.
    + by left.
Qed.

(** C2, as amended: for every consistent [localeCompare], after
    [recordEpicEvent(channelId, messageId, delta)] the log of the channel
    is sorted by message id in the ascending order of [localeCompare]
    (each id is not greater than the ids behind it; this is not the
    lexicographic order of the code units) and holds the new event and
    the events of the other message ids, so that an event the message id
    already had is replaced; the file of the channel holds the events of
    the same ids in the same order; and every sequence of
    [recordEpicEvent] calls keeps the invariant of the event logs: at
    most one event per message id, sorted by message id in that order. *)
Theorem recordEpicEvent_log_invariant `{!ConsistentComparator} (w : World) (c m : string) (d : value)
    (now : string) (calls : list RecordCall) :
  let w' := (recordEpicEvent c m d now w).2 in
  StronglySorted idOrder (eventLog w' c)
  /\ eventLog w' c ≡ₚ
       mkStateEvent m now d :: filter (fun e => messageId e <> m) (eventLog w c)
  /\ fmap docMessageId <$> (epicFiles w' !! epicEventsPath w' c) =
       Some (messageId <$> eventLog w' c)
  /\ ((forall c', logInvariant (eventLog w c')) ->
      forall c', logInvariant (eventLog (recordAll calls w).2 c')).
Proof.
  cbn zeta. rewrite recordEpicEvent_log.
  split; [apply Array_sort_idOrder|]. split; [apply recorded_perm|].
  split.
  { rewrite recordEpicEvent_world. unfold epicEventsPath. simpl.
    rewrite lookup_insert_eq. simpl. by rewrite stringify_events_ids. }
  clear c m d now. revert w. induction calls as [|call rest IH]; intros w Hinv c'.
  - apply Hinv.
  - simpl. unfold bind.
    destruct (recordEpicEvent (callChannelId call) (callMessageId call)
                (callDelta call) (callNow call) w) as [[] w1] eqn:E.
    apply IH. intros c0.
    replace w1 with (recordEpicEvent (callChannelId call) (callMessageId call)
                       (callDelta call) (callNow call) w).2 by by rewrite E.
    destruct (recordEpicEvent_logIds (callChannelId call) (callMessageId call)
                (callDelta call) (callNow call) w c0) as [Heq|Heq];
      rewrite <- !eventLog_ids in Heq.
    + eapply logInvariant_ids; [symmetry; exact Heq|apply Hinv].
    + eapply logInvariant_ids; [symmetry; exact Heq|].
      apply recorded_invariant, Hinv.
Qed.

(** ** Fork (C3, C10) *)

Lemma getEpicEvents_paths (c : string) (w : World) :
  cacheDir (getEpicEvents c w).2 = cacheDir w /\ pluginId (getEpicEvents c w).2 = pluginId w.
Proof.
  by destruct (getEpicEvents_cases c w)
    as [(events & Hc & ->)|[(docs & Hc & Hf & ->)|(Hc & Hf & ->)]].
Qed.

Lemma getEpicEvents_epicEventsPath (c c' : string) (w : World) :
  epicEventsPath (getEpicEvents c w).2 c' = epicEventsPath w c'.
Proof.
  unfold epicEventsPath. by destruct (getEpicEvents_paths c w) as [-> ->].
Qed.

Lemma getEpicEvents_files (c : string) (w : World) :
  globalFiles (getEpicEvents c w).2 = globalFiles w
  /\ channelFiles (getEpicEvents c w).2 = channelFiles w
  /\ epicFiles (getEpicEvents c w).2 = epicFiles w.
Proof.
  by destruct (getEpicEvents_cases c w)
    as [(events & Hc & ->)|[(docs & Hc & Hf & ->)|(Hc & Hf & ->)]].
Qed.

Lemma getEpicEvents_cache_other (c c' : string) (w : World) :
  c' <> c -> epicEventsCache (getEpicEvents c w).2 !! c' = epicEventsCache w !! c'.
Proof.
  intros Hne.
  destruct (getEpicEvents_cases c w)
    as [(events & Hc & ->)|[(docs & Hc & Hf & ->)|(Hc & Hf & ->)]]; [done| |done].
  simpl. by rewrite lookup_insert_ne.
Qed.

(** After a read the log is in the cache, or the channel has no log. *)
Lemma getEpicEvents_again (c : string) (w : World) :
  getEpicEvents c (getEpicEvents c w).2 = ((getEpicEvents c w).1, (getEpicEvents c w).2).
Proof.
  destruct (getEpicEvents_cases c w)
    as [(events & Hc & ->)|[(docs & Hc & Hf & ->)|(Hc & Hf & ->)]]; simpl.
  - by apply getEpicEvents_cached.
  - apply getEpicEvents_cached. simpl. apply lookup_insert_eq.
  - unfold getEpicEvents, bind, gets, ret. by rewrite Hc, Hf.
Qed.

Lemma getEpicEvents_noLog (c : string) (w : World) :
  noLog w c -> getEpicEvents c w = ([], w).
Proof.
  intros [Hc Hf]. unfold getEpicEvents, bind, gets, ret. by rewrite Hc, Hf.
Qed.

Lemma noLog_getEpicEvents (c c' : string) (w : World) :
  c' <> c -> noLog w c' -> noLog (getEpicEvents c w).2 c'.
Proof.
  intros Hne [Hc Hf]. split.
  - by rewrite getEpicEvents_cache_other.
  - rewrite getEpicEvents_epicEventsPath.
    by destruct (getEpicEvents_files c w) as (_ & _ & ->).
Qed.

(** The world after [forkEpicState]: the parent's log has been read, and
    the copy is saved only when it has an event. *)
Lemma forkEpicState_world (p t forkPoint : string) (w : World) :
  let w1 := (getEpicEvents p w).2 in
  let copy := forked (eventLog w p) forkPoint in
  (forkEpicState p t forkPoint w).2 =
    match copy with
    | [] => w1
    | _ :: _ =>
        set_logged (logged w1 ++ [(Debug, "Forked epic state for thread")])
          (set_epicEventsCache (<[t := copy]> (epicEventsCache w1))
             (set_epicFiles
                (<[epicEventsPath w1 t := stringify_event (heap w1) <$> copy]> (epicFiles w1))
                w1))
    end.
Proof.
  cbn zeta. unfold forkEpicState, eventLog, forked, bind.
  destruct (getEpicEvents p w) as [events w1]. simpl.
  by destruct (filter _ events).
Qed.

Lemma eventsUpTo_all (upTo : string) (events : list StateEvent) :
  Forall (fun e => localeCompare (messageId e) upTo <= 0) events ->
  eventsUpTo upTo events = events.
Proof.
  induction 1 as [|e events He _ IH]; simpl; [done|].
  by rewrite decide_True, IH.
Qed.

Lemma filter_none {A : Type} (P : A -> Prop) `{!forall x, Decision (P x)} (l : list A) :
  Forall (fun x => ~ P x) l -> filter P l = [].
Proof.
  induction 1 as [|x l Hx _ IH]; [done|]. by rewrite filter_cons_False.
Qed.

(** On a sorted log the events up to a bound are the events not greater
    than the bound. *)
Lemma eventsUpTo_sorted `{!ConsistentComparator} (upTo : string)
    (events : list StateEvent) :
  StronglySorted idOrder events ->
  eventsUpTo upTo events =
    filter (fun e => localeCompare (messageId e) upTo <= 0) events.
Proof.
  induction 1 as [|e events Hs IH Hall]; simpl; [done|].
  rewrite filter_cons.
  destruct (decide (localeCompare (messageId e) upTo <= 0)) as [|Hn].
  - by rewrite IH.
  - symmetry. apply filter_none.
    eapply Forall_impl; [exact Hall|]. intros x Hx Hle. apply Hn.
    by apply localeCompare_trans with (messageId x).
Qed.

(** The loop of [getEpicState] reads the log up to the bound only. *)
Lemma replay_bounded (upTo : option string) (live : option (gset string)) (reducer : Reducer)
    (events : list StateEvent) (st : value) (w : World) :
  replay upTo live reducer events st w =
    replay upTo live reducer (boundedEvents (truthy_id upTo) events) st w.
Proof.
  revert st w. induction events as [|e rest IH]; intros st w.
  - unfold boundedEvents. by destruct (truthy_id upTo).
  - rewrite boundedEvents_cons. simpl. destruct (pastTarget upTo e) eqn:E; [done|].
    simpl. rewrite E. destruct (deleted live e); unfold bind.
    + destruct (logger Debug "Skipping epic event for deleted message" w). apply IH.
    + destruct (call reducer st (delta e) w). apply IH.
Qed.

Lemma getEpicEvents_cache_self (c : string) (w : World) :
  (getEpicEvents c w).1 <> [] ->
  epicEventsCache (getEpicEvents c w).2 !! c = Some (getEpicEvents c w).1.
Proof.
  destruct (getEpicEvents_cases c w)
    as [(events & Hc & ->)|[(docs & Hc & Hf & ->)|(Hc & Hf & ->)]]; simpl; [done| |done].
  intros _. apply lookup_insert_eq.
Qed.

Lemma recordEpicEvent_cache_other (c m : string) (d : value) (now : string) (w : World)
    (c' : string) :
  c' <> c ->
  epicEventsCache (recordEpicEvent c m d now w).2 !! c' = epicEventsCache w !! c'.
Proof.
  intros Hne. rewrite recordEpicEvent_world. simpl.
  rewrite lookup_insert_ne by done. by apply getEpicEvents_cache_other.
Qed.

Lemma recordEpicEvent_noLog_other (c m : string) (d : value) (now : string) (w : World)
    (c' : string) :
  epicEventsPath w c' <> epicEventsPath w c ->
  noLog w c' -> noLog (recordEpicEvent c m d now w).2 c'.
Proof.
  intros Hp [Hc Hf].
  assert (c' <> c) as Hne by (intros ->; done).
  split; [by rewrite recordEpicEvent_cache_other|].
  rewrite recordEpicEvent_world. unfold epicEventsPath at 1. simpl.
  destruct (getEpicEvents_paths c w) as [Hd Hi]. rewrite Hd, Hi.
  fold (epicEventsPath w c'). rewrite getEpicEvents_epicEventsPath.
  rewrite lookup_insert_ne by done.
  by destruct (getEpicEvents_files c w) as (_ & _ & ->).
Qed.

Lemma forked_all (events : list StateEvent) (forkPoint : string) :
  Forall (fun e => localeCompare (messageId e) forkPoint <= 0) (forked events forkPoint).
Proof.
  apply Forall_forall. intros e He.
  by apply list_elem_of_filter in He as [? _].
Qed.

(** C3, as amended: for every consistent [localeCompare], a parent log
    sorted in its order, a non-empty fork point [M] and a child whose
    file is not the parent's, when the parent has an event with an id
    not greater than [M] under [localeCompare] or the child has no log
    of its own: after [forkEpicState(parent, child, M)] the log of the
    child is exactly the parent's events with an id not greater than [M]
    under [localeCompare], the replay of the child with [upto = M] is
    the replay of the parent with [upto = M] for the same live set and
    reducer, and an event recorded on the parent after the fork leaves
    the log of the child as it is. *)
Theorem forkEpicState_correct `{!ConsistentComparator} (p t forkPoint : string)
    (w : World) :
  StronglySorted idOrder (eventLog w p) ->
  forkPoint <> "" ->
  epicEventsPath w t <> epicEventsPath w p ->
  (noLog w t \/
   exists e, e ∈ eventLog w p /\ localeCompare (messageId e) forkPoint <= 0) ->
  let w' := (forkEpicState p t forkPoint w).2 in
  eventLog w' t =
    filter (fun e => localeCompare (messageId e) forkPoint <= 0) (eventLog w p)
  /\ (forall live reducer,
        getEpicState t (Some forkPoint) live reducer w' =
        getEpicState p (Some forkPoint) live reducer w')
  /\ (forall m d now, eventLog (recordEpicEvent p m d now w').2 t = eventLog w' t).
Proof.
  intros Hsorted Hfp Hpath Hchild. cbn zeta.
  assert (t <> p) as Hne by (intros ->; done).
  assert (truthy_id (Some forkPoint) = Some forkPoint) as Htruthy.
  { simpl. by destruct (String.eqb_spec forkPoint ""). }
  pose proof (getEpicEvents_again p w) as Hagain.
  pose proof (getEpicEvents_cache_self p w) as Hself.
  pose proof (eventsUpTo_sorted forkPoint _ Hsorted) as Hupto.
  pose proof (forked_all (eventLog w p) forkPoint) as Hall.
  fold (forked (eventLog w p) forkPoint) in Hupto |- *. rewrite forkEpicState_world.
  fold (eventLog w p) in Hagain, Hself.
  set (w1 := (getEpicEvents p w).2) in *.
  set (events := eventLog w p) in *.
  assert (epicEventsPath w1 t <> epicEventsPath w1 p) as Hpath1.
  { unfold w1. by rewrite !getEpicEvents_epicEventsPath. }
  destruct (forked events forkPoint) as [|e0 copy] eqn:Hcopy.
  - (* nothing to copy: the child has no log *)
    destruct Hchild as [Hno|(e & Hin & Hle)]; last first.
    { exfalso. eapply filter_nil_not_elem_of; [exact Hcopy| |exact Hin]. done. }
    assert (noLog w1 t) as Hno1 by by apply noLog_getEpicEvents.
    split; [|split].
    + unfold eventLog. by rewrite getEpicEvents_noLog.
    + intros live reducer. unfold getEpicState, bind.
      rewrite Hagain, (getEpicEvents_noLog t w1 Hno1).
      rewrite (replay_bounded _ _ _ events), Htruthy. unfold boundedEvents.
      by rewrite Hupto.
    + intros m d now. unfold eventLog.
      rewrite (getEpicEvents_noLog t w1 Hno1).
      rewrite getEpicEvents_noLog; [done|].
      by apply recordEpicEvent_noLog_other.
  - (* the copy is saved in the file and the cache entry of the child *)
    assert (events <> []) as Hnonempty.
    { intros Hnil. rewrite Hnil in Hcopy. done. }
    specialize (Hself Hnonempty).
    set (w2 := set_logged _ _).
    assert (epicEventsCache w2 !! t = Some (e0 :: copy)) as Hct.
    { simpl. apply lookup_insert_eq. }
    assert (epicEventsCache w2 !! p = Some events) as Hcp.
    { simpl. by rewrite lookup_insert_ne. }
    split; [|split].
    + unfold eventLog. by rewrite (getEpicEvents_cached t _ w2 Hct).
    + intros live reducer. unfold getEpicState, bind.
      rewrite (getEpicEvents_cached t _ w2 Hct), (getEpicEvents_cached p _ w2 Hcp).
      rewrite (replay_bounded _ _ _ events), (replay_bounded _ _ _ (e0 :: copy)).
      rewrite Htruthy. unfold boundedEvents.
      by rewrite Hupto, (eventsUpTo_all _ _ Hall).
    + intros m d now. unfold eventLog.
      rewrite (getEpicEvents_cached t _ w2 Hct).
      rewrite (getEpicEvents_cached t (e0 :: copy)); [done|].
      by rewrite recordEpicEvent_cache_other.
Qed.

Lemma new_PluginStateManager_noLog (dir id c : string) :
  noLog (new_PluginStateManager dir id) c.
Proof. split; apply lookup_empty. Qed.

Lemma new_PluginStateManager_invariant (dir id c : string) :
  logInvariant (eventLog (new_PluginStateManager dir id) c).
Proof.
  unfold eventLog. rewrite getEpicEvents_noLog by apply new_PluginStateManager_noLog.
  split; simpl; constructor.
Qed.

(** C10, as amended: when no event of the parent has an id that is not
    greater than the fork point under [localeCompare] (an empty parent
    log in particular), [forkEpicState] writes nothing: it only reads
    the parent's log, no file changes, a cache entry of the child stays
    what it was, the stored ids of the child's log are the same, and a
    child with no log still has none and replays to [null]. *)
Theorem forkEpicState_nothing_to_copy (p t forkPoint : string) (w : World) :
  (forall e, e ∈ eventLog w p -> ~ localeCompare (messageId e) forkPoint <= 0) ->
  let w' := (forkEpicState p t forkPoint w).2 in
  w' = (getEpicEvents p w).2
  /\ (globalFiles w' = globalFiles w /\ channelFiles w' = channelFiles w
      /\ epicFiles w' = epicFiles w)
  /\ (forall events, epicEventsCache w !! t = Some events ->
        epicEventsCache w' !! t = Some events)
  /\ logIds w' t = logIds w t
  /\ (noLog w t ->
        noLog w' t
        /\ forall upTo live reducer, (getEpicState t upTo live reducer w').1 = VNull).
Proof.
  intros Hnone. cbn zeta. rewrite forkEpicState_world. unfold forked.
  rewrite (filter_none _ (eventLog w p)) by
    (apply Forall_forall; intros e He Hle; by apply (Hnone e He)).
  split; [done|]. split; [apply getEpicEvents_files|].
  split; [|split; [apply getEpicEvents_logIds|]].
  - intros events Hc. destruct (decide (t = p)) as [->|Hne].
    + by rewrite (getEpicEvents_cached p events w Hc).
    + by rewrite getEpicEvents_cache_other.
  - intros Hno.
    assert (noLog (getEpicEvents p w).2 t) as Hno'.
    { destruct (decide (t = p)) as [->|Hne].
      - by rewrite (getEpicEvents_noLog p w Hno).
      - by apply noLog_getEpicEvents. }
    split; [done|]. intros upTo live reducer.
    unfold getEpicState, bind. by rewrite (getEpicEvents_noLog t _ Hno').
Qed.

(** ** Depth (C4) *)

Lemma setPositions_notin (ids : list string) (i : nat) (positions : gmap string nat)
    (id : string) :
  id ∉ ids -> setPositions i ids positions !! id = positions !! id.
Proof.
  revert i positions. induction ids as [|x rest IH]; intros i positions Hn; [done|].
  apply not_elem_of_cons in Hn as [Hne Hn]. simpl.
  rewrite IH by done. by rewrite lookup_insert_ne.
Qed.

(** The position map holds, for an id of the list, the last index at
    which it occurs. *)
Lemma setPositions_in (ids : list string) (i : nat) (positions : gmap string nat)
    (id : string) :
  id ∈ ids ->
  exists k, setPositions i ids positions !! id = Some (i + k)%nat
    /\ ids !! k = Some id
    /\ forall j, (k < j)%nat -> ids !! j <> Some id.
Proof.
  revert i positions. induction ids as [|x rest IH]; intros i positions Hin.
  - by apply elem_of_nil in Hin.
  - simpl. destruct (decide (id ∈ rest)) as [Hrest|Hrest].
    + destruct (IH (S i) (<[x := i]> positions) Hrest) as (k & Hk & Hat & Hlast).
      exists (S k). split; [|split].
      * rewrite Hk. f_equal. lia.
      * done.
      * intros [|j] Hj; [lia|]. simpl. apply Hlast. lia.
    + apply elem_of_cons in Hin as [->|Hin]; [|done].
      exists 0%nat. split; [|split].
      * rewrite setPositions_notin by done. rewrite lookup_insert_eq. f_equal. lia.
      * done.
      * intros [|j] Hj; [lia|]. simpl. intros Hat. apply Hrest.
        by apply list_elem_of_lookup_2 in Hat.
Qed.

(** C4, as amended: [calculateCurrentDepth] returns [targetDepth] when
    [lastModifiedAt] is null, is the empty string or is not in the list
    of message ids, and otherwise [min(n - 1 - pos, targetDepth)], where
    [n] is the length of the list and [pos] the index of
    [lastModifiedAt] in it (the last one, should the id occur twice). *)
Theorem calculateCurrentDepth_spec (ids : list string) (lastModifiedAt : option string)
    (targetDepth : Z) :
  let depth := calculateCurrentDepth (new_PluginContextFactory ids) lastModifiedAt targetDepth in
  match lastModifiedAt with
  | None => depth = targetDepth
  | Some id =>
      (id = "" \/ id ∉ ids -> depth = targetDepth)
      /\ (id <> "" -> id ∈ ids ->
          exists pos, ids !! pos = Some id
            /\ (forall j, (pos < j)%nat -> ids !! j <> Some id)
            /\ depth = Z.min (Z.of_nat (length ids) - 1 - Z.of_nat pos) targetDepth)
  end.
Proof.
  cbn zeta. destruct lastModifiedAt as [id|]; [|done].
  unfold calculateCurrentDepth. simpl.
  destruct (String.eqb_spec id "") as [->|Hne].
  - split; [done|]. by intros [].
  - split.
    + intros [|Hn]; [done|]. by rewrite setPositions_notin, lookup_empty.
    + intros _ Hin.
      destruct (setPositions_in ids 0 ∅ id Hin) as (k & Hk & Hat & Hlast).
      exists k. rewrite Hk. done.
Qed.

(** Scenario S1: the ids a..e, an injection modified at c, target depth 1. *)
Lemma calculateCurrentDepth_spec_witness :
  let ids := ["a"; "b"; "c"; "d"; "e"] in
  ("c" <> "" /\ "c" ∈ ids)
  /\ exists pos, ids !! pos = Some "c"
       /\ (forall j, (pos < j)%nat -> ids !! j <> Some "c")
       /\ calculateCurrentDepth (new_PluginContextFactory ids) (Some "c") 1 =
            Z.min (Z.of_nat (length ids) - 1 - Z.of_nat pos) 1.
Proof.
  cbn zeta.
  assert ("c" <> "") as H1 by discriminate.
  assert ("c" ∈ ["a"; "b"; "c"; "d"; "e"]) as H2 by (do 2 constructor; by left).
  split; [done|].
  exact (proj2 (calculateCurrentDepth_spec ["a"; "b"; "c"; "d"; "e"] (Some "c") 1) H1 H2).
Defined.

(** C4 as stated fails for the empty string as id: it is in the list, at
    index 0 of 2, and the result is [targetDepth], not [min (2-1-0) 5]. *)
Lemma calculateCurrentDepth_empty_id :
  let ids := [""; "a"] in
  ids !! 0%nat = Some ""
  /\ calculateCurrentDepth (new_PluginContextFactory ids) (Some "") 5 = 5
  /\ Z.min (Z.of_nat (length ids) - 1 - 0) 5 = 1
  /\ calculateCurrentDepth (new_PluginContextFactory ids) (Some "") 5 <>
       Z.min (Z.of_nat (length ids) - 1 - 0) 5.
Proof. vm_compute. repeat split; congruence. Qed.

(** ** Channel state (C5, C6, C7) *)

Lemma truthy_parse (doc : json) (h : gmap loc json) :
  truthy (JSON_parse doc h).1 = truthy_json doc.
Proof. by destruct doc. Qed.

(** The three ways the read of a channel returns. *)
Lemma loadChannelState_cases (c : string) (w : World) :
  (exists result, channelCache w !! c = Some result
      /\ loadChannelState c w = (Some result, w))
  \/ (exists parsed, channelCache w !! c = None
        /\ channelFiles w !! channelPath w c = Some parsed
        /\ let result := mkChannelState (JSON_parse (fileState parsed) (heap w)).1
                           (fileMetadata parsed) in
           loadChannelState c w =
             (Some result,
              set_channelCache (<[c := result]> (channelCache w))
                (set_heap (JSON_parse (fileState parsed) (heap w)).2 w)))
  \/ (noState w c /\ loadChannelState c w = (None, w)).
Proof.
  unfold loadChannelState, noState, bind, gets, ret, modify, parse.
  destruct (channelCache w !! c) as [result|] eqn:Hc; [left; eauto|right].
  destruct (channelFiles w !! channelPath w c) as [parsed|] eqn:Hf; [left|right; done].
  exists parsed. split; [done|]. split; [done|].
  by destruct (JSON_parse (fileState parsed) (heap w)).
Qed.

Lemma loadChannelState_noState (c : string) (w : World) :
  noState w c -> loadChannelState c w = (None, w).
Proof.
  intros [Hc Hf]. unfold loadChannelState, bind, gets, ret. by rewrite Hc, Hf.
Qed.

Lemma loadChannelState_cached (c : string) (result : ChannelState) (w : World) :
  channelCache w !! c = Some result -> loadChannelState c w = (Some result, w).
Proof. intros Hc. unfold loadChannelState, bind, gets, ret. by rewrite Hc. Qed.

Lemma getOwnChannelState_cached (c : string) (result : ChannelState) (w : World) :
  channelCache w !! c = Some result -> getOwnChannelState c w = (result, w).
Proof.
  intros Hc. unfold getOwnChannelState, bind. by rewrite (loadChannelState_cached c result).
Qed.

Lemma getOwnChannelState_noState (c : string) (w : World) :
  noState w c -> getOwnChannelState c w = (noChannelState, w).
Proof.
  intros Hno. unfold getOwnChannelState, bind. by rewrite loadChannelState_noState.
Qed.

(** [getChannelState] without [inheritFrom] is the read of the own state. *)
Lemma getChannelState_own (c : string) (w : World) :
  getChannelState c None w = getOwnChannelState c w.
Proof.
  unfold getChannelState, getOwnChannelState, bind.
  by destruct (loadChannelState c w) as [[result|] w1].
Qed.

(** A read keeps the paths and the files, and the cache entries of the
    other channels. *)
Lemma getOwnChannelState_frame (c : string) (w : World) :
  let w1 := (getOwnChannelState c w).2 in
  cacheDir w1 = cacheDir w /\ pluginId w1 = pluginId w
  /\ channelFiles w1 = channelFiles w
  /\ logged w1 = logged w
  /\ (forall c', c' <> c -> channelCache w1 !! c' = channelCache w !! c').
Proof.
  cbn zeta. unfold getOwnChannelState, bind.
  destruct (loadChannelState_cases c w)
    as [(result & Hc & ->)|[(parsed & Hc & Hf & ->)|(Hno & ->)]]; simpl;
    repeat split; try done.
  intros c' Hne. by rewrite lookup_insert_ne.
Qed.

(** The state a read returns is truthy exactly for a channel that has a
    truthy state. *)
Lemma getOwnChannelState_truthy (c : string) (w : World) :
  truthy (state (getOwnChannelState c w).1) = hasTruthyState w c.
Proof.
  unfold getOwnChannelState, hasTruthyState, bind.
  destruct (loadChannelState_cases c w)
    as [(result & Hc & ->)|[(parsed & Hc & Hf & ->)|([Hc Hf] & ->)]];
    rewrite Hc, ?Hf; simpl; [done| |done].
  apply truthy_parse.
Qed.

Lemma getOwnChannelState_hasTruthyState (c c' : string) (w : World) :
  hasTruthyState (getOwnChannelState c w).2 c' = hasTruthyState w c'.
Proof.
  unfold getOwnChannelState, bind.
  destruct (loadChannelState_cases c w)
    as [(result & Hc & ->)|[(parsed & Hc & Hf & ->)|(Hno & ->)]]; [done| |done].
  unfold hasTruthyState, channelPath. simpl.
  destruct (decide (c = c')) as [<-|Hne].
  - rewrite lookup_insert_eq, Hc. unfold channelPath in Hf. rewrite Hf. simpl.
    apply truthy_parse.
  - by rewrite lookup_insert_ne.
Qed.

(** After a read the state is in the cache, or the channel has none. *)
Lemma getOwnChannelState_cache_self (c : string) (w : World) :
  truthy (state (getOwnChannelState c w).1) = true ->
  channelCache (getOwnChannelState c w).2 !! c = Some (getOwnChannelState c w).1.
Proof.
  unfold getOwnChannelState, bind.
  destruct (loadChannelState_cases c w)
    as [(result & Hc & ->)|[(parsed & Hc & Hf & ->)|(Hno & ->)]]; simpl; [done| |done].
  intros _. apply lookup_insert_eq.
Qed.

Lemma inheritFromParent_result (inheritFrom : option InheritFrom) (w : World) :
  let parentId := inheritFrom ≫= fromParentChannelId in
  (inheritFromParent inheritFrom w).1 =
    match namedWithState w parentId with
    | Some p => Some (inheritedFromParent (readNamed parentId w).1 p)
    | None => None
    end.
Proof.
  cbn zeta. unfold inheritFromParent, namedWithState, readNamed.
  destruct (truthy_id (inheritFrom ≫= fromParentChannelId)) as [p|]; [|done].
  unfold bind. rewrite <- getOwnChannelState_truthy.
  destruct (getOwnChannelState p w) as [parent w1]. simpl.
  by destruct (truthy (state parent)).
Qed.

Lemma readNamed_hasTruthyState (id : option string) (c' : string) (w : World) :
  hasTruthyState (readNamed id w).2 c' = hasTruthyState w c'.
Proof.
  unfold readNamed. destruct (truthy_id id); [|done].
  apply getOwnChannelState_hasTruthyState.
Qed.

Lemma inheritFromOrigin_result (inheritFrom : option InheritFrom) (w : World) :
  let originId := inheritFrom ≫= fromHistoryOriginChannelId in
  (inheritFromOrigin inheritFrom w).1 =
    match namedWithState w originId with
    | Some o => Some (inheritedFromOrigin (readNamed originId w).1 o)
    | None => None
    end
  /\ (namedWithState w originId = None ->
      (inheritFromOrigin inheritFrom w).2 = (readNamed originId w).2).
Proof.
  cbn zeta. unfold inheritFromOrigin, namedWithState, readNamed.
  destruct (truthy_id (inheritFrom ≫= fromHistoryOriginChannelId)) as [o|]; [|done].
  unfold bind. rewrite <- getOwnChannelState_truthy.
  destruct (getOwnChannelState o w) as [origin w1]. simpl.
  by destruct (truthy (state origin)).
Qed.

(** C5, as amended: for a channel with no stored state, when
    [inheritFrom] names a history origin whose state is truthy (not
    null, false, 0 or the empty string), [getChannelState] returns that
    state with the metadata of the origin and [historyOriginChannelId]
    recorded; otherwise, when it names a parent whose state is truthy,
    the state of the parent with its metadata and [parentChannelId]
    recorded; otherwise [(null, {lastModifiedMessageId: null})]. The
    origin is consulted first. *)
Theorem getChannelState_inheritance (c : string) (inheritFrom : option InheritFrom)
    (w : World) :
  noState w c ->
  let originId := inheritFrom ≫= fromHistoryOriginChannelId in
  let parentId := inheritFrom ≫= fromParentChannelId in
  let origin := readNamed originId w in
  let parent := readNamed parentId origin.2 in
  (getChannelState c inheritFrom w).1 =
    match namedWithState w originId with
    | Some o => inheritedFromOrigin origin.1 o
    | None =>
        match namedWithState w parentId with
        | Some p => inheritedFromParent parent.1 p
        | None => noChannelState
        end
    end.
Proof.
  intros Hno. cbn zeta. unfold getChannelState, bind.
  rewrite loadChannelState_noState by done.
  pose proof (inheritFromOrigin_result inheritFrom w) as [Ho Hw]. cbn zeta in Ho, Hw.
  destruct (inheritFromOrigin inheritFrom w) as [inherited w1]. simpl in Ho, Hw. subst inherited.
  destruct (namedWithState w (inheritFrom ≫= fromHistoryOriginChannelId)); [done|].
  rewrite <- (Hw eq_refl).
  pose proof (inheritFromParent_result inheritFrom w1) as Hp. cbn zeta in Hp.
  destruct (inheritFromParent inheritFrom w1) as [inherited w2]. simpl in Hp. subst inherited.
  replace (namedWithState w (inheritFrom ≫= fromParentChannelId))
    with (namedWithState w1 (inheritFrom ≫= fromParentChannelId)).
  - by destruct (namedWithState w1 (inheritFrom ≫= fromParentChannelId)).
  - unfold namedWithState. destruct (truthy_id _); [|done].
    by rewrite (Hw eq_refl), readNamed_hasTruthyState.
Qed.

(** The world after [setChannelState]: the file and the cache entry of
    the channel hold the new state. *)
Lemma setChannelState_world (c : string) (v : value) (msgId : option string) (w : World) :
  let existing := getOwnChannelState c w in
  let w1 := existing.2 in
  let md := writtenMetadata (metadata existing.1) msgId in
  (setChannelState c v msgId w).2 =
    set_logged (logged w1 ++ [(Debug, "Saved channel state")])
      (set_channelCache (<[c := mkChannelState v md]> (channelCache w1))
         (set_channelFiles
            (<[channelPath w1 c := mkChannelFile (JSON_stringify (heap w1) v) md]>
               (channelFiles w1)) w1)).
Proof.
  cbn zeta. unfold setChannelState, bind.
  by destruct (getOwnChannelState c w) as [existing w1].
Qed.

(** C6, as amended: for a parent channel (or .history origin) with a
    stored state and a child channel without one, the state the child
    inherits is the state held in the parent's cache entry itself (the
    same reference, not a copy); reading the child with inheritance and
    then calling [setChannelState] on the child with a new blob changes
    neither that cache entry, nor an object of the heap, nor the parent's
    file: a subsequent read of the parent returns what it returned
    before. *)
Theorem inherited_read_then_write (p c : string) (viaOrigin : bool) (newBlob : value)
    (msgId : option string) (w : World) :
  noState w c ->
  p <> "" ->
  is_Some (channelFiles w !! channelPath w p) ->
  let inheritFrom :=
    if viaOrigin then mkInheritFrom None (Some p) else mkInheritFrom (Some p) None in
  let parent := getOwnChannelState p w in
  let read := getChannelState c (Some inheritFrom) w in
  let w2 := (setChannelState c newBlob msgId read.2).2 in
  read.1 = (if truthy (state parent.1)
            then (if viaOrigin then inheritedFromOrigin parent.1 p
                  else inheritedFromParent parent.1 p)
            else noChannelState)
  /\ channelCache read.2 !! p = Some parent.1
  /\ getOwnChannelState p w2 = (parent.1, w2)
  /\ heap w2 = heap parent.2
  /\ channelFiles w2 !! channelPath w2 p = channelFiles w !! channelPath w p.
Proof.
  intros Hno Hp [f Hf]. cbn zeta.
  assert (c <> p) as Hne.
  { intros ->. destruct Hno as [_ Hno]. congruence. }
  assert (channelPath w c <> channelPath w p) as Hpath.
  { intros Heq. destruct Hno as [_ Hno]. congruence. }
  assert (channelCache (getOwnChannelState p w).2 !! p = Some (getOwnChannelState p w).1)
    as Hcached.
  { unfold getOwnChannelState, bind.
    destruct (loadChannelState_cases p w)
      as [(result & Hc & ->)|[(parsed & Hc & Hf' & ->)|([_ Hno'] & _)]]; simpl.
    - done.
    - apply lookup_insert_eq.
    - congruence. }
  destruct (getOwnChannelState_frame p w) as (Hdir & Hid & Hfiles & Hlog & Hcache).
  (* the read of the child *)
  assert (exists l,
    getChannelState c
      (Some (if viaOrigin then mkInheritFrom None (Some p) else mkInheritFrom (Some p) None))
      w =
      ((if truthy (state (getOwnChannelState p w).1)
        then (if viaOrigin then inheritedFromOrigin (getOwnChannelState p w).1 p
              else inheritedFromParent (getOwnChannelState p w).1 p)
        else noChannelState),
       set_logged l (getOwnChannelState p w).2)) as [l Hread].
  { unfold getChannelState, bind. rewrite loadChannelState_noState by done.
    unfold inheritFromOrigin, inheritFromParent.
    destruct viaOrigin; simpl;
      (destruct (String.eqb_spec p "") as [|_]; [done|]);
      unfold bind; destruct (getOwnChannelState p w) as [parent w1]; simpl;
      (destruct (truthy (state parent)); simpl;
       [by eexists|exists (logged w1); by destruct w1]). }
  rewrite Hread. simpl fst. simpl snd.
  set (parent := (getOwnChannelState p w).1) in *.
  set (w1 := (getOwnChannelState p w).2) in *.
  assert (noState (set_logged l w1) c) as Hno1.
  { destruct Hno as [Hc Hfc]. split; simpl.
    - by rewrite Hcache.
    - unfold channelPath. simpl. rewrite Hdir, Hid, Hfiles. exact Hfc. }
  rewrite setChannelState_world.
  rewrite (getOwnChannelState_noState c _ Hno1). simpl.
  split; [done|]. split; [done|]. split; [|split; [done|]].
  - apply getOwnChannelState_cached. simpl. by rewrite lookup_insert_ne.
  - unfold channelPath. simpl. rewrite Hdir, Hid, Hfiles.
    by rewrite lookup_insert_ne.
Qed.

(** C7: what [setGlobalState] stored is what [getGlobalState] returns,
    and what [setChannelState] stored for a channel is the state
    [getChannelState] returns for it. *)
Theorem set_then_get (v : value) (c : string) (msgId : option string)
    (inheritFrom : option InheritFrom) (w : World) :
  (getGlobalState (setGlobalState v w).2).1 = v
  /\ state (getChannelState c inheritFrom (setChannelState c v msgId w).2).1 = v.
Proof.
  split.
  - unfold setGlobalState, getGlobalState, stringify, logger, parse, bind, gets, modify, ret.
    simpl. destruct v; simpl; try done.
    unfold globalPath. simpl. by rewrite lookup_insert_eq.
  - rewrite setChannelState_world. unfold getChannelState, bind.
    rewrite (loadChannelState_cached c
               (mkChannelState v (writtenMetadata (metadata (getOwnChannelState c w).1) msgId)));
      [done|]. simpl. apply lookup_insert_eq.
Qed.

(** ** A context without a reducer (C9) *)






(** ** Paths (C8) *)

Lemma append_nil_l (b : string) : "" +:+ b = b.
Proof. reflexivity. Qed.

Lemma append_cons (x : Ascii.ascii) (a b : string) :
  String x a +:+ b = String x (a +:+ b).
Proof. reflexivity. Qed.

Lemma append_assoc (a b c : string) : (a +:+ b) +:+ c = a +:+ (b +:+ c).
Proof.
  induction a as [|x a IH]; [done|]. by rewrite !append_cons, IH.
Qed.

Lemma append_nil_r (a : string) : a +:+ "" = a.
Proof. induction a as [|x a IH]; [done|]. by rewrite append_cons, IH. Qed.

Lemma append_length (a b : string) :
  String.length (a +:+ b) = (String.length a + String.length b)%nat.
Proof.
  induction a as [|x a IH]; [done|]. rewrite append_cons. simpl. by rewrite IH.
Qed.

Lemma append_inv_tail (a b t : string) : a +:+ t = b +:+ t -> a = b.
Proof.
  revert b. induction a as [|x a IH]; intros [|y b] H.
  - done.
  - apply (f_equal String.length) in H.
    rewrite append_nil_l, append_cons in H. simpl in H.
    rewrite append_length in H. lia.
  - apply (f_equal String.length) in H.
    rewrite append_nil_l, append_cons in H. simpl in H.
    rewrite append_length in H. lia.
  - rewrite !append_cons in H. injection H as -> H. f_equal. by apply IH.
Qed.

Lemma append_nonempty (a b : string) : b <> "" -> a +:+ b <> "".
Proof. intros Hb. destruct a; [done|]. rewrite append_cons. discriminate. Qed.

Lemma eqb_false (a b : string) : a <> b -> String.eqb a b = false.
Proof. intros H. by destruct (String.eqb_spec a b). Qed.

Lemma segments_from_slash (cur s t : string) :
  segments_from cur (s +:+ String slash t) = segments_from cur s ++ segments_from "" t.
Proof.
  revert cur. induction s as [|x s IH]; intros cur.
  - rewrite append_nil_l. simpl. by rewrite ?Ascii.eqb_refl.
  - rewrite append_cons. simpl. destruct (Ascii.eqb x slash); simpl; by rewrite IH.
Qed.

Lemma segments_from_plain (cur t : string) :
  hasSlash t = false -> segments_from cur t = [cur +:+ t].
Proof.
  revert cur. induction t as [|x t IH]; intros cur H; simpl in *.
  - by rewrite append_nil_r.
  - apply orb_false_iff in H as [Hx Ht]. rewrite Hx, IH by done.
    by rewrite append_assoc.
Qed.

Lemma ends_with_slash_plain (t : string) : hasSlash t = false -> ends_with_slash t = false.
Proof.
  induction t as [|x t IH]; simpl; [done|].
  intros H. apply orb_false_iff in H as [Hx Ht]. destruct t; [done|]. by apply IH.
Qed.

Lemma ends_with_slash_append (s t : string) :
  t <> "" -> ends_with_slash (s +:+ t) = ends_with_slash t.
Proof.
  intros Ht. induction s as [|x s IH]; [done|].
  rewrite append_cons. simpl.
  destruct (s +:+ t) eqn:E; [|done].
  by destruct (append_nonempty s t Ht).
Qed.

Lemma starts_with_slash_append (s t : string) :
  s <> "" -> starts_with_slash (s +:+ t) = starts_with_slash s.
Proof. by destruct s. Qed.

Lemma concat_cons (a b : string) (l : list string) :
  String.concat "/" (a :: b :: l) = a +:+ String slash (String.concat "/" (b :: l)).
Proof. reflexivity. Qed.

Lemma concat_snoc (l : list string) (x : string) :
  l <> [] -> String.concat "/" (l ++ [x]) = String.concat "/" l +:+ String slash x.
Proof.
  induction l as [|a l IH]; [done|]. intros _. destruct l as [|b l].
  - done.
  - change ((a :: b :: l) ++ [x]) with (a :: b :: (l ++ [x])).
    rewrite !concat_cons.
    change (b :: l ++ [x]) with ((b :: l) ++ [x]).
    rewrite IH by done.
    by rewrite append_assoc, append_cons.
Qed.

(** [normalizeString] keeps no empty segment. *)
Lemma normalize_step_nonempty (allow : bool) (res : list string) (seg : string) :
  Forall (fun s => s <> "") res -> Forall (fun s => s <> "") (normalize_step allow res seg).
Proof.
  intros Hres. unfold normalize_step.
  destruct (String.eqb_spec seg "") as [->|Hne]; simpl; [done|].
  destruct (String.eqb seg "."); [done|].
  destruct (String.eqb seg "..").
  - destruct Hres as [|a res Ha Hres].
    + destruct allow; repeat constructor; discriminate.
    + destruct (String.eqb a ".."); [|done].
      destruct allow; repeat constructor; done || discriminate.
  - by constructor.
Qed.

Lemma normalize_fold_nonempty (allow : bool) (segs res : list string) :
  Forall (fun s => s <> "") res ->
  Forall (fun s => s <> "") (fold_left (normalize_step allow) segs res).
Proof.
  revert res. induction segs as [|seg segs IH]; intros res Hres; simpl; [done|].
  by apply IH, normalize_step_nonempty.
Qed.

Lemma normalize_step_plain (allow : bool) (res : list string) (x : string) :
  plainName x -> normalize_step allow res x = x :: res.
Proof.
  intros (_ & H1 & H2 & H3). unfold normalize_step.
  by rewrite !eqb_false.
Qed.

Lemma concat_nonempty (l : list string) :
  l <> [] -> Forall (fun s => s <> "") l -> String.concat "/" l <> "".
Proof.
  intros Hl Hall. destruct Hall as [|a l Ha Hall]; [done|].
  destruct l as [|b l]; [done|].
  rewrite concat_cons. destruct a; [done|]. rewrite append_cons. discriminate.
Qed.

Lemma hasSlash_append (a b : string) :
  hasSlash a = false -> hasSlash b = false -> hasSlash (a +:+ b) = false.
Proof.
  intros Ha Hb. induction a as [|x a IH]; [done|].
  rewrite append_cons. simpl in *. apply orb_false_iff in Ha as [Hx Ha].
  by rewrite Hx, IH.
Qed.

(** The file name of an identifier without a separator is one segment. *)
Lemma plainName_json (c : string) : hasSlash c = false -> plainName (c +:+ ".json").
Proof.
  intros Hc. split; [by apply hasSlash_append|].
  assert (forall s, c +:+ ".json" = s -> (5 <= String.length s)%nat) as Hlen.
  { intros s <-. rewrite append_length. simpl. lia. }
  repeat split; intros H; apply Hlen in H; simpl in H; lia.
Qed.

(** A plain name joined to a directory: the normalised directory comes
    first, whatever the name. *)
Lemma path_normalize_dir (P : string) :
  P <> "" ->
  exists X, forall x, plainName x -> path_normalize (P +:+ String slash x) = X +:+ x.
Proof.
  intros HP.
  exists ((if starts_with_slash P then "/" else "") +:+
          match fold_left (normalize_step (negb (starts_with_slash P))) (segments P) [] with
          | [] => ""
          | res => String.concat "/" (rev res) +:+ "/"
          end).
  intros x Hx. pose proof Hx as (Hslash & Hne & _).
  unfold path_normalize.
  rewrite eqb_false by (apply append_nonempty; discriminate).
  rewrite starts_with_slash_append by done.
  rewrite ends_with_slash_append by discriminate.
  assert (ends_with_slash (String slash x) = false) as ->.
  { destruct x as [|a x]; [done|]. by apply (ends_with_slash_plain (String a x)). }
  unfold segments. rewrite segments_from_slash, (segments_from_plain "" x) by done.
  rewrite append_nil_l, fold_left_app. cbn [fold_left].
  rewrite normalize_step_plain by done.
  destruct (fold_left _ (segments_from "" P) []) as [|r res] eqn:E.
  - cbn [rev app String.concat]. rewrite eqb_false by done.
    by destruct (starts_with_slash P).
  - change (rev (x :: r :: res)) with (rev (r :: res) ++ [x]).
    rewrite concat_snoc by (simpl; by destruct (rev res)).
    rewrite eqb_false by (apply append_nonempty; discriminate).
    destruct (starts_with_slash P); by rewrite ?append_nil_l, !append_assoc.
Qed.

(** A plain name joined to a path that ends in a plain name. *)
Lemma path_normalize_file (P dir x : string) :
  P <> "" -> plainName dir -> plainName x ->
  path_normalize ((P +:+ String slash dir) +:+ String slash x) =
    path_normalize (P +:+ String slash dir) +:+ String slash x.
Proof.
  intros HP Hdir Hx. pose proof Hx as (Hslash & Hne & _).
  pose proof Hdir as (Hdslash & Hdne & _).
  assert (ends_with_slash (String slash x) = false) as Hex.
  { destruct x as [|a x]; [done|]. by apply (ends_with_slash_plain (String a x)). }
  assert (ends_with_slash (String slash dir) = false) as Hed.
  { destruct dir as [|a dir]; [done|]. by apply (ends_with_slash_plain (String a dir)). }
  unfold path_normalize.
  rewrite !eqb_false by (apply append_nonempty; discriminate).
  rewrite (starts_with_slash_append (P +:+ String slash dir))
    by (apply append_nonempty; discriminate).
  rewrite !ends_with_slash_append by discriminate. rewrite Hex, Hed.
  set (allow := negb (starts_with_slash (P +:+ String slash dir))).
  unfold segments.
  rewrite (segments_from_slash "" (P +:+ String slash dir) x).
  rewrite (segments_from_plain "" x), append_nil_l, fold_left_app by done.
  cbn [fold_left]. rewrite normalize_step_plain by done.
  rewrite (segments_from_slash "" P dir).
  rewrite (segments_from_plain "" dir), append_nil_l, fold_left_app by done.
  cbn [fold_left]. rewrite normalize_step_plain by done.
  set (res := fold_left (normalize_step allow) (segments_from "" P) []).
  change (rev (x :: dir :: res)) with (rev (dir :: res) ++ [x]).
  rewrite concat_snoc by (simpl; by destruct (rev res)).
  assert (String.concat "/" (rev (dir :: res)) <> "") as Hc.
  { apply concat_nonempty; [simpl; by destruct (rev res)|].
    apply Forall_rev. constructor; [done|].
    apply normalize_fold_nonempty. constructor. }
  rewrite !eqb_false by (done || apply append_nonempty; discriminate).
  by destruct (starts_with_slash (P +:+ String slash dir)).
Qed.

Lemma filter_args (d p : string) (rest : list string) :
  Forall (fun s => s <> "") rest ->
  exists pre, pre <> [] /\ Forall (fun s => s <> "") pre /\
    filter (fun arg => arg <> "") (d :: "plugins" :: p :: rest) = pre ++ rest.
Proof.
  intros Hrest.
  exists (filter (fun arg => arg <> "") [d; "plugins"; p]). split; [|split].
  - intros H. assert ("plugins" ∈ filter (fun arg => arg <> "") [d; "plugins"; p]) as Hin.
    { apply list_elem_of_filter. split; [done|]. set_solver. }
    rewrite H in Hin. by apply elem_of_nil in Hin.
  - apply Forall_forall. intros s Hs. by apply list_elem_of_filter in Hs as [? _].
  - change (d :: "plugins" :: p :: rest) with ([d; "plugins"; p] ++ rest).
    rewrite filter_app. f_equal.
    induction Hrest as [|a rest Ha Hrest IH]; [done|].
    by rewrite filter_cons_True, IH.
Qed.

Lemma path_join_nonempty (l : list string) :
  l <> [] ->
  match l with
  | [] => "."
  | s :: rest => path_normalize (String.concat "/" (s :: rest))
  end =
    path_normalize (String.concat "/" l).
Proof. by destruct l. Qed.

(** [path.join(cacheDir, 'plugins', pluginId, name)]: one directory for
    all plain names. *)
Lemma path_join_dir (d p : string) :
  exists X, forall x, plainName x -> path_join [d; "plugins"; p; x] = X +:+ x.
Proof.
  destruct (filter_args d p [] (Forall_nil_2 _)) as (pre & Hne & Hall & Hpre).
  rewrite app_nil_r in Hpre.
  destruct (path_normalize_dir (String.concat "/" pre)) as [X HX];
    [by apply concat_nonempty|].
  exists X. intros x Hx. pose proof Hx as (_ & Hxne & _).
  destruct (filter_args d p [x]) as (pre' & _ & _ & Hpre'); [by constructor|].
  assert (pre' = pre) as ->.
  { change [d; "plugins"; p; x] with ([d; "plugins"; p] ++ [x]) in Hpre'.
    rewrite filter_app, Hpre in Hpre'.
    rewrite (filter_cons_True _ x), filter_nil in Hpre' by done.
    by apply app_inv_tail in Hpre'. }
  unfold path_join. rewrite Hpre'.
  rewrite path_join_nonempty by (by destruct pre).
  rewrite concat_snoc by done. by apply HX.
Qed.

(** [path.join(cacheDir, 'plugins', pluginId, dir, name)] for plain
    [dir] and [name]. *)
Lemma path_join_file (d p dir x : string) :
  plainName dir -> plainName x ->
  path_join [d; "plugins"; p; dir; x] =
    path_join [d; "plugins"; p; dir] +:+ String slash x.
Proof.
  intros Hdir Hx. pose proof Hdir as (_ & Hdne & _). pose proof Hx as (_ & Hxne & _).
  destruct (filter_args d p [dir]) as (pre & Hne & Hall & Hpre); [by constructor|].
  destruct (filter_args d p [dir; x]) as (pre' & _ & _ & Hpre'); [by repeat constructor|].
  assert (pre' = pre) as ->.
  { change [d; "plugins"; p; dir; x] with ([d; "plugins"; p; dir] ++ [x]) in Hpre'.
    rewrite filter_app, Hpre in Hpre'.
    rewrite (filter_cons_True _ x), filter_nil in Hpre' by done.
    rewrite <- app_assoc in Hpre'. by apply app_inv_tail in Hpre'. }
  unfold path_join. rewrite Hpre, Hpre'.
  rewrite !path_join_nonempty by (by destruct pre).
  change (pre ++ [dir; x]) with (pre ++ [dir] ++ [x]). rewrite app_assoc.
  rewrite !concat_snoc by (done || by destruct pre).
  apply path_normalize_file; [by apply concat_nonempty|done..].
Qed.

Lemma plainName_channel : plainName "channel".
Proof. repeat split; discriminate. Qed.

Lemma plainName_epic : plainName "epic".
Proof. repeat split; discriminate. Qed.

Lemma plainName_global : plainName "global.json".
Proof. repeat split; discriminate. Qed.

Lemma filter_all {A : Type} (P : A -> Prop) `{!forall x, Decision (P x)} (l : list A) :
  Forall P l -> filter P l = l.
Proof.
  induction 1 as [|x l Hx Hl IH]; [done|]. by rewrite filter_cons_True, IH.
Qed.

Lemma stringify_parse (doc : json) (h : gmap loc json) :
  JSON_stringify (JSON_parse doc h).2 (JSON_parse doc h).1 = doc.
Proof. destruct doc; simpl; try done; by rewrite lookup_insert_eq. Qed.

(** A read that finds nothing in the cache returns what the file at the
    path of the channel holds. *)
Lemma getChannelState_from_file (c : string) (parsed : ChannelFile)
    (inheritFrom : option InheritFrom) (w : World) :
  channelCache w !! c = None ->
  channelFiles w !! channelPath w c = Some parsed ->
  let read := getChannelState c inheritFrom w in
  JSON_stringify (heap read.2) (state read.1) = fileState parsed
  /\ metadata read.1 = fileMetadata parsed.
Proof.
  intros Hc Hf. cbn zeta. unfold getChannelState, bind.
  destruct (loadChannelState_cases c w)
    as [(result & Hc' & _)|[(parsed' & _ & Hf' & ->)|([_ Hf'] & _)]]; try congruence.
  rewrite Hf in Hf'. injection Hf' as <-. simpl. split; [|done].
  apply stringify_parse.
Qed.

(** The arguments [path.join] keeps of [cacheDir, 'plugins', pluginId]
    and of what follows them. *)
Lemma filter_args_pre (d p : string) (rest : list string) :
  Forall (fun s => s <> "") rest ->
  filter (fun arg => arg <> "") (d :: "plugins" :: p :: rest) =
    filter (fun arg => arg <> "") [d; "plugins"; p] ++ rest.
Proof.
  intros Hrest.
  change (d :: "plugins" :: p :: rest) with ([d; "plugins"; p] ++ rest).
  rewrite filter_app. f_equal. by apply filter_all.
Qed.

(** The path of a file in a directory of the manager, before it is
    normalised: a prefix that depends on [cacheDir] and [pluginId] only. *)
Lemma path_join_string (d p : string) :
  exists pre, pre <> "" /\ forall dir x, dir <> "" -> x <> "" ->
    path_join [d; "plugins"; p; dir; x] =
      path_normalize ((pre +:+ String slash dir) +:+ String slash x).
Proof.
  destruct (filter_args d p [] (Forall_nil_2 _)) as (pre & Hne & Hall & Hpre).
  rewrite app_nil_r in Hpre.
  exists (String.concat "/" pre). split; [by apply concat_nonempty|].
  intros dir x Hdir Hx. unfold path_join.
  rewrite filter_args_pre by (by repeat constructor). rewrite Hpre.
  change (pre ++ [dir; x]) with (pre ++ [dir] ++ [x]). rewrite app_assoc.
  rewrite path_join_nonempty by (by destruct pre).
  by rewrite !concat_snoc by (done || by destruct pre).
Qed.

(** [path.normalize] reads of a path whether it is absolute, whether it
    ends with a separator, and the segments it keeps. *)
Lemma path_normalize_congr (P Q : string) :
  P <> "" -> Q <> "" ->
  starts_with_slash P = starts_with_slash Q ->
  ends_with_slash P = ends_with_slash Q ->
  fold_left (normalize_step (negb (starts_with_slash P))) (segments P) [] =
  fold_left (normalize_step (negb (starts_with_slash P))) (segments Q) [] ->
  path_normalize P = path_normalize Q.
Proof.
  intros HP HQ Hs He Hf. unfold path_normalize.
  rewrite (eqb_false P), (eqb_false Q) by done.
  rewrite <- Hs, <- He, Hf. reflexivity.
Qed.

Lemma segments_slash (allow : bool) (P t : string) :
  fold_left (normalize_step allow) (segments (P +:+ String slash t)) [] =
  fold_left (normalize_step allow) (segments t)
    (fold_left (normalize_step allow) (segments P) []).
Proof. unfold segments. by rewrite segments_from_slash, fold_left_app. Qed.

(** [..] takes back the segment before it. *)
Lemma normalize_step_up (allow : bool) (res : list string) (a : string) :
  a <> ".." -> normalize_step allow (a :: res) ".." = res.
Proof. intros Ha. unfold normalize_step. simpl. by rewrite eqb_false. Qed.

Lemma append_slash_assoc (s a t : string) :
  s +:+ String slash (a +:+ t) = (s +:+ String slash a) +:+ t.
Proof. symmetry. apply (append_assoc s (String slash a) t). Qed.

(** One more name at the end of the path is one more segment. *)
Lemma segments_name (allow : bool) (P t : string) :
  hasSlash t = false ->
  fold_left (normalize_step allow) (segments (P +:+ String slash t)) [] =
  normalize_step allow (fold_left (normalize_step allow) (segments P) []) t.
Proof.
  intros Ht. rewrite segments_slash. unfold segments at 1.
  by rewrite (segments_from_plain "" t), append_nil_l.
Qed.

(** The segments kept of [P/dir/name] and of [P/dir/a/../name]. *)
Lemma segments_file (allow : bool) (P dir x : string) :
  plainName dir -> plainName x ->
  fold_left (normalize_step allow)
    (segments ((P +:+ String slash dir) +:+ String slash x)) [] =
  x :: dir :: fold_left (normalize_step allow) (segments P) [].
Proof.
  intros Hdir Hx. pose proof Hdir as (Hd & _). pose proof Hx as (Hxs & _).
  rewrite !segments_name by done. by rewrite !normalize_step_plain.
Qed.

Lemma segments_file_up (allow : bool) (P dir a x : string) :
  plainName dir -> plainName a -> plainName x ->
  fold_left (normalize_step allow)
    (segments ((P +:+ String slash dir) +:+
               String slash (a +:+ String slash (".." +:+ String slash x)))) [] =
  x :: dir :: fold_left (normalize_step allow) (segments P) [].
Proof.
  intros Hdir Ha Hx. pose proof Hdir as (Hd & _). pose proof Hx as (Hxs & _).
  pose proof Ha as (Has & _ & _ & Hup).
  rewrite !append_slash_assoc. rewrite !segments_name by done.
  rewrite (normalize_step_plain _ _ dir), (normalize_step_plain _ _ a) by done.
  by rewrite normalize_step_up, normalize_step_plain.
Qed.

(** The segments kept of [P/dir/../other/name]. *)
Lemma segments_file_across (allow : bool) (P dir other x : string) :
  plainName dir -> plainName other -> plainName x ->
  fold_left (normalize_step allow)
    (segments ((P +:+ String slash dir) +:+
               String slash (".." +:+ String slash (other +:+ String slash x)))) [] =
  x :: other :: fold_left (normalize_step allow) (segments P) [].
Proof.
  intros Hdir Ho Hx. pose proof Hdir as (Hd & _ & _ & Hup).
  pose proof Hx as (Hxs & _). pose proof Ho as (Hos & _).
  rewrite !append_slash_assoc. rewrite !segments_name by done.
  rewrite (normalize_step_plain _ _ dir) by done.
  by rewrite normalize_step_up, !normalize_step_plain.
Qed.

Lemma starts_with_dir (pre dir t : string) :
  pre <> "" ->
  starts_with_slash ((pre +:+ String slash dir) +:+ t) = starts_with_slash pre.
Proof.
  intros Hpre. rewrite starts_with_slash_append by (apply append_nonempty; discriminate).
  by apply starts_with_slash_append.
Qed.

(** The file of the id [a/../x] of a directory is the file of [x]. *)
Lemma path_join_up (d p dir a x : string) :
  plainName dir -> plainName a -> hasSlash x = false ->
  path_join [d; "plugins"; p; dir; (a +:+ "/../" +:+ x) +:+ ".json"] =
  path_join [d; "plugins"; p; dir; x +:+ ".json"].
Proof.
  intros Hdir Ha Hx. pose proof (plainName_json x Hx) as Hxj.
  destruct (path_join_string d p) as (pre & Hpre & Hjoin).
  destruct Hdir as (Hds & Hdne & Hd1 & Hd2).
  rewrite !Hjoin by (done || apply append_nonempty; discriminate).
  replace ((a +:+ "/../" +:+ x) +:+ ".json")
    with (a +:+ String slash (".." +:+ String slash (x +:+ ".json")))
    by (by rewrite !append_assoc).
  apply path_normalize_congr.
  - apply append_nonempty. discriminate.
  - apply append_nonempty. discriminate.
  - by rewrite !starts_with_dir.
  - rewrite !append_slash_assoc. by rewrite !(ends_with_slash_append _ ".json").
  - by rewrite segments_file_up, segments_file.
Qed.

(** The file of the id [../other/x] of a directory is the file of [x]
    in the directory [other]. *)
Lemma path_join_across (d p dir other x : string) :
  plainName dir -> plainName other -> hasSlash x = false ->
  path_join [d; "plugins"; p; dir; ("../" +:+ other +:+ "/" +:+ x) +:+ ".json"] =
  path_join [d; "plugins"; p; other; x +:+ ".json"].
Proof.
  intros Hdir Ho Hx. pose proof (plainName_json x Hx) as Hxj.
  destruct (path_join_string d p) as (pre & Hpre & Hjoin).
  destruct Hdir as (Hds & Hdne & Hd1 & Hd2). pose proof Ho as (_ & Hone & _).
  rewrite !Hjoin by (done || apply append_nonempty; discriminate).
  replace (("../" +:+ other +:+ "/" +:+ x) +:+ ".json")
    with (".." +:+ String slash (other +:+ String slash (x +:+ ".json")))
    by (by rewrite !append_assoc).
  apply path_normalize_congr.
  - apply append_nonempty. discriminate.
  - apply append_nonempty. discriminate.
  - by rewrite !starts_with_dir.
  - rewrite !append_slash_assoc. by rewrite !(ends_with_slash_append _ ".json").
  - rewrite starts_with_dir by done.
    rewrite segments_file_across by done.
    by rewrite segments_file.
Qed.

(** The global file of the plugin id [a/../q] is the global file of [q]. *)
Lemma path_join_plugin (d a q : string) :
  plainName a -> plainName q ->
  path_join [d; "plugins"; a +:+ "/../" +:+ q; "global.json"] =
  path_join [d; "plugins"; q; "global.json"].
Proof.
  intros Ha Hq. pose proof Ha as (Has & Hane & _ & Hup). pose proof Hq as (Hqs & Hqne & _).
  assert (exists pre, pre <> "" /\ forall pid, pid <> "" ->
            path_join [d; "plugins"; pid; "global.json"] =
              path_normalize ((pre +:+ String slash pid) +:+ String slash "global.json"))
    as (pre & Hpre & Hjoin).
  { exists (String.concat "/" (filter (fun arg => arg <> "") [d] ++ ["plugins"])).
    split; [destruct d; [done|]; rewrite filter_cons_True by done; simpl; discriminate|].
    intros pid Hpid. unfold path_join.
    change [d; "plugins"; pid; "global.json"] with ([d] ++ ["plugins"; pid; "global.json"]).
    rewrite filter_app, (filter_all _ ["plugins"; pid; "global.json"])
      by (by repeat constructor).
    change ["plugins"; pid; "global.json"] with (["plugins"] ++ [pid] ++ ["global.json"]).
    rewrite !app_assoc.
    rewrite path_join_nonempty by (by destruct (filter _ [d])).
    by rewrite !concat_snoc by (by destruct (filter _ [d])). }
  rewrite !Hjoin by (done || apply append_nonempty; discriminate).
  change (a +:+ "/../" +:+ q) with (a +:+ String slash (".." +:+ String slash q)).
  apply path_normalize_congr.
  - apply append_nonempty. discriminate.
  - apply append_nonempty. discriminate.
  - by rewrite !starts_with_dir.
  - by rewrite !(ends_with_slash_append _ (String slash "global.json")).
  - rewrite !append_slash_assoc. rewrite !segments_name by done.
    rewrite (normalize_step_plain _ _ a) by done.
    by rewrite normalize_step_up.
Qed.

(** C8, as amended: no state operation checks its identifiers: the
    path of a file is what [path.join] makes of the identifiers,
    separators expanded, so that an id with a separator names the file
    of another id or of another scope. For every cache directory and
    plugin id, every id [x] without a separator and every name [a] of
    one segment: the channel id [a/../x] has the channel file and the
    epic file of the channel [x]; the channel id [../epic/x] has as its
    channel file the epic file of [x], and [../channel/x] as its epic
    file the channel file of [x]; and a manager with the plugin id
    [a/../q] has the global file of the plugin [q]. *)
Theorem paths_are_not_checked (a x : string) (w : World) :
  plainName a ->
  hasSlash x = false ->
  channelPath w (a +:+ "/../" +:+ x) = channelPath w x
  /\ epicEventsPath w (a +:+ "/../" +:+ x) = epicEventsPath w x
  /\ channelPath w ("../epic/" +:+ x) = epicEventsPath w x
  /\ epicEventsPath w ("../channel/" +:+ x) = channelPath w x
  /\ (forall w', cacheDir w' = cacheDir w ->
        pluginId w' = a +:+ "/../" +:+ pluginId w ->
        plainName (pluginId w) ->
        globalPath w' = globalPath w).
Proof.
  intros Ha Hx. split; [|split; [|split; [|split]]].
  - apply path_join_up; [apply plainName_channel|done..].
  - apply path_join_up; [apply plainName_epic|done..].
  - apply (path_join_across _ _ "channel" "epic");
      [apply plainName_channel|apply plainName_epic|done].
  - apply (path_join_across _ _ "epic" "channel");
      [apply plainName_epic|apply plainName_channel|done].
  - intros w' Hd Hp Hq. unfold globalPath. rewrite Hd, Hp. by apply path_join_plugin.
Qed.

(** C8 as stated fails: an id with a separator is accepted and names the
    file at the expanded path. The channel ["../epic/x"] is the epic file
    of channel ["x"], the plugin ["../../etc"] has its global state
    outside of the cache directory, and a write to the channel
    ["a/../b"] replaces the file of the channel ["b"]. *)
Lemma separator_is_expanded :
  let w := new_PluginStateManager "cache" "p" in
  channelPath w "../epic/x" = "cache/plugins/p/epic/x.json"
  /\ channelPath w "../epic/x" = epicEventsPath w "x"
  /\ globalPath (new_PluginStateManager "cache" "../../etc") = "etc/global.json"
  /\ (let w2 := (setChannelState "b" (VNum 1) None ;;
                 setChannelState "a/../b" (VNum 2) None ;;
                 clearCache) w in
      state (getChannelState "b" None w2.2).1 = VNum 2).
Proof. vm_compute. repeat split. Qed.

(** The channel ids ["a/../b"], ["../epic/b"] and ["../channel/b"] of
    the plugin ["p"], and the plugin id ["a/../p"]. *)
Lemma paths_are_not_checked_witness :
  let w := new_PluginStateManager "cache" "p" in
  (plainName "a" /\ hasSlash "b" = false)
  /\ channelPath w "a/../b" = "cache/plugins/p/channel/b.json"
  /\ channelPath w "a/../b" = channelPath w "b"
  /\ channelPath w "../epic/b" = epicEventsPath w "b"
  /\ epicEventsPath w "../channel/b" = channelPath w "b"
  /\ globalPath (new_PluginStateManager "cache" "a/../p") = globalPath w.
Proof.
  cbn zeta.
  assert (plainName "a") as H1 by (repeat split; discriminate).
  assert (hasSlash "b" = false) as H2 by reflexivity.
  assert (plainName "p") as H3 by (repeat split; discriminate).
  split; [done|].
  destruct (paths_are_not_checked "a" "b" (new_PluginStateManager "cache" "p") H1 H2)
    as (Ha & _ & Hb & Hc & Hd).
  split; [by vm_compute|]. split; [exact Ha|]. split; [exact Hb|]. split; [exact Hc|].
  by apply Hd.
Defined.

(** ** The scenarios *)

(** Scenario S4, the read: the child C names the parent P, which has a
    state, and an origin O, which has none. *)
Lemma getChannelState_inheritance_witness :
  let w := parentOnDisk in
  let inheritFrom := Some (mkInheritFrom (Some "P") (Some "O")) in
  noState w "C"
  /\ (getChannelState "C" inheritFrom w).1 =
       match namedWithState w (inheritFrom ≫= fromHistoryOriginChannelId) with
       | Some o =>
           inheritedFromOrigin
             (readNamed (inheritFrom ≫= fromHistoryOriginChannelId) w).1 o
       | None =>
           match namedWithState w (inheritFrom ≫= fromParentChannelId) with
           | Some p =>
               inheritedFromParent
                 (readNamed (inheritFrom ≫= fromParentChannelId)
                    (readNamed (inheritFrom ≫= fromHistoryOriginChannelId) w).2).1 p
           | None => noChannelState
           end
       end.
Proof.
  cbn zeta.
  assert (noState parentOnDisk "C") as H by (split; vm_compute; reflexivity).
  split; [exact H|].
  exact (getChannelState_inheritance "C" (Some (mkInheritFrom (Some "P") (Some "O")))
           parentOnDisk H).
Defined.

(** C5 as stated fails for a stored state that is falsy: the origin ["O"]
    has the state [0], the child ["C"] has none, and the child does not
    inherit it; with a parent that has the state [7], the parent is the
    one inherited from. *)
Lemma getChannelState_falsy_origin :
  let w := zeroOrigin in
  (getOwnChannelState "O" w).1 = mkChannelState (VNum 0) (mkMetadata (Some "m1") None None)
  /\ channelFiles w !! channelPath w "O" =
       Some (mkChannelFile (JNum 0) (mkMetadata (Some "m1") None None))
  /\ channelCache w !! "C" = None
  /\ channelFiles w !! channelPath w "C" = None
  /\ (getChannelState "C" (Some (mkInheritFrom None (Some "O"))) w).1 = noChannelState
  /\ (getChannelState "C" (Some (mkInheritFrom (Some "P") (Some "O"))) w).1 =
       mkChannelState (VNum 7) (mkMetadata (Some "m2") (Some "P") None).
Proof. vm_compute. repeat split. Qed.

(** Scenario S4, the write: the child C writes a new state. *)
Lemma inherited_read_then_write_witness :
  let w := parentOnDisk in
  let parent := getOwnChannelState "P" w in
  let read := getChannelState "C" (Some (mkInheritFrom (Some "P") None)) w in
  let w2 := (setChannelState "C" (VNum 6) (Some "m2") read.2).2 in
  (noState w "C" /\ "P" <> "" /\ is_Some (channelFiles w !! channelPath w "P"))
  /\ read.1 = (if truthy (state parent.1) then inheritedFromParent parent.1 "P"
               else noChannelState)
  /\ channelCache read.2 !! "P" = Some parent.1
  /\ getOwnChannelState "P" w2 = (parent.1, w2)
  /\ heap w2 = heap parent.2
  /\ channelFiles w2 !! channelPath w2 "P" = channelFiles w !! channelPath w "P".
Proof.
  cbn zeta.
  assert (noState parentOnDisk "C") as H1 by (split; vm_compute; reflexivity).
  assert ("P" <> "") as H2 by discriminate.
  assert (is_Some (channelFiles parentOnDisk !! channelPath parentOnDisk "P")) as H3.
  { vm_compute. by eexists. }
  split; [done|].
  exact (inherited_read_then_write "P" "C" false (VNum 6) (Some "m2") parentOnDisk H1 H2 H3).
Defined.

(** C6 as stated fails: the state the child inherits is the object of
    the parent's cache entry, not a copy of it. A plugin that reads the
    child's state, changes it in place and writes it to the child has
    changed the state a read of the parent returns, from [{counter: 5}]
    to [{counter: 6}]. *)
Lemma inherited_state_is_shared :
  let w := parentOnDisk in
  let read := getChannelState "C" (Some (mkInheritFrom (Some "P") None)) w in
  let w2 := (assignInPlace (state read.1) (counter 6) ;;
             setChannelState "C" (state read.1) (Some "m2")) read.2 in
  let before := getOwnChannelState "P" read.2 in
  let after := getOwnChannelState "P" w2.2 in
  (exists l, state read.1 = VRef l /\ state <$> channelCache read.2 !! "P" = Some (VRef l))
  /\ JSON_stringify (heap before.2) (state before.1) = counter 5
  /\ JSON_stringify (heap after.2) (state after.1) = counter 6.
Proof.
  cbn zeta. split; [|split].
  - exists 2%positive. split; vm_compute; reflexivity.
  - vm_compute. reflexivity.
  - vm_compute. reflexivity.
Qed.

(** * Further properties of the code *)

(** ** The position map and the depth *)

Lemma lastIndex_unique (ids : list string) (id : string) (k k' : nat) :
  lastIndex ids id k -> lastIndex ids id k' -> k = k'.
Proof.
  intros [Hk Hlast] [Hk' Hlast'].
  destruct (lt_eq_lt_dec k k') as [[Hlt|Heq]|Hgt]; [|done|].
  - by destruct (Hlast k' Hlt).
  - by destruct (Hlast' k Hgt).
Qed.

(** The position map of a list of ids holds exactly the ids of the list,
    each with its last index. *)
Lemma positions_lookup (ids : list string) (id : string) :
  match setPositions 0 ids ∅ !! id with
  | Some k => lastIndex ids id k
  | None => id ∉ ids
  end.
Proof.
  destruct (decide (id ∈ ids)) as [Hin|Hn].
  - destruct (setPositions_in ids 0 ∅ id Hin) as (k & -> & Hat & Hlast). by split.
  - by rewrite setPositions_notin, lookup_empty.
Qed.

Lemma lastIndex_app (ids more : list string) (id : string) (k : nat) :
  id ∉ more -> lastIndex ids id k -> lastIndex (ids ++ more) id k.
Proof.
  intros Hn [Hk Hlast]. split.
  - by apply lookup_app_l_Some.
  - intros j Hj Hat. apply lookup_app_Some in Hat as [Hat|[_ Hat]].
    + by apply (Hlast j).
    + apply Hn. by apply list_elem_of_lookup_2 in Hat.
Qed.

Lemma calculateCurrentDepth_at (ids : list string) (id : string) (k : nat) (targetDepth : Z) :
  id <> "" -> lastIndex ids id k ->
  calculateCurrentDepth (new_PluginContextFactory ids) (Some id) targetDepth =
    Z.min (Z.of_nat (length ids) - 1 - Z.of_nat k) targetDepth.
Proof.
  intros Hne Hk. unfold calculateCurrentDepth. simpl.
  destruct (String.eqb_spec id "") as [|_]; [done|].
  pose proof (positions_lookup ids id) as H.
  destruct (setPositions 0 ids ∅ !! id) as [k'|].
  - by rewrite (lastIndex_unique ids id k k').
  - destruct Hk as [Hk _]. destruct H. by apply list_elem_of_lookup_2 in Hk.
Qed.

(** X1: the depth [calculateCurrentDepth] returns for a non-negative
    target depth lies between 0 and the target depth. *)
Theorem calculateCurrentDepth_bounds (ids : list string) (lastModifiedAt : option string)
    (targetDepth : Z) :
  0 <= targetDepth ->
  0 <= calculateCurrentDepth (new_PluginContextFactory ids) lastModifiedAt targetDepth
    <= targetDepth.
Proof.
  intros Ht. unfold calculateCurrentDepth. simpl.
  destruct (truthy_id lastModifiedAt) as [id|]; [|lia].
  pose proof (positions_lookup ids id) as H.
  destruct (setPositions 0 ids ∅ !! id) as [k|]; [|lia].
  destruct H as [Hk _]. apply lookup_lt_Some in Hk. lia.
Qed.

Lemma calculateCurrentDepth_bounds_witness :
  0 <= 3
  /\ 0 <= calculateCurrentDepth (new_PluginContextFactory ["a"; "b"; "c"]) (Some "b") 3 <= 3.
Proof.
  assert (0 <= 3) as H by lia.
  split; [exact H|].
  exact (calculateCurrentDepth_bounds ["a"; "b"; "c"] (Some "b") 3 H).
Defined.

(** X2: an injection modified at the newest message of the context is at
    depth 0, and every message that arrives afterwards moves it one
    deeper until it rests at the target depth: with [more] later
    messages the depth is [min (length more) targetDepth]. *)
Theorem calculateCurrentDepth_ages (older more : list string) (id : string)
    (targetDepth : Z) :
  id <> "" ->
  id ∉ more ->
  0 <= targetDepth ->
  calculateCurrentDepth (new_PluginContextFactory (older ++ [id])) (Some id) targetDepth = 0
  /\ calculateCurrentDepth (new_PluginContextFactory (older ++ [id] ++ more)) (Some id)
       targetDepth = Z.min (Z.of_nat (length more)) targetDepth.
Proof.
  intros Hne Hn Ht.
  assert (lastIndex (older ++ [id]) id (length older)) as Hlast.
  { split.
    - by rewrite lookup_app_r, Nat.sub_diag.
    - intros j Hj Hat. apply lookup_lt_Some in Hat.
      rewrite length_app in Hat. simpl in Hat. lia. }
  split.
  - rewrite (calculateCurrentDepth_at _ id (length older)) by done.
    rewrite length_app. simpl. lia.
  - rewrite app_assoc.
    rewrite (calculateCurrentDepth_at _ id (length older));
      [|done|by apply lastIndex_app].
    rewrite !length_app. simpl. f_equal. lia.
Qed.

Lemma calculateCurrentDepth_ages_witness :
  let older := ["a"; "b"] in
  let more := ["d"; "e"; "f"] in
  ("c" <> "" /\ ("c" ∉ more) /\ 0 <= 2)
  /\ calculateCurrentDepth (new_PluginContextFactory (older ++ ["c"])) (Some "c") 2 = 0
  /\ calculateCurrentDepth (new_PluginContextFactory (older ++ ["c"] ++ more)) (Some "c") 2 =
       Z.min (Z.of_nat (length more)) 2.
Proof.
  cbn zeta.
  assert ("c" <> "") as H1 by discriminate.
  assert ("c" ∉ ["d"; "e"; "f"]) as H2.
  { intros H. repeat (apply elem_of_cons in H as [H|H]; [discriminate|]).
    by apply elem_of_nil in H. }
  assert (0 <= 2) as H3 by lia.
  split; [done|].
  exact (calculateCurrentDepth_ages ["a"; "b"] ["d"; "e"; "f"] "c" 2 H1 H2 H3).
Defined.

(** X3: for a context created on the current list of ids,
    [messagesSinceId] is [Infinity] exactly for an id that is null, empty
    or not in the list, is a number from 0 to the length of the list
    minus one otherwise, and [calculateCurrentDepth] is the smaller of
    that number and the target depth. *)
Theorem messagesSinceId_current (ids : list string) (msgId : option string)
    (targetDepth : Z) :
  let this := new_PluginContextFactory ids in
  match messagesSinceId (snapshotOf this) this msgId with
  | Some n =>
      0 <= n < Z.of_nat (length ids)
      /\ calculateCurrentDepth this msgId targetDepth = Z.min n targetDepth
  | None =>
      calculateCurrentDepth this msgId targetDepth = targetDepth
      /\ (msgId = None \/ msgId = Some "" \/ exists id, msgId = Some id /\ id ∉ ids)
  end.
Proof.
  cbn zeta. unfold messagesSinceId, calculateCurrentDepth. simpl.
  destruct msgId as [id|]; simpl; [|by auto].
  destruct (String.eqb_spec id "") as [->|Hne]; [by auto|].
  pose proof (positions_lookup ids id) as H.
  destruct (setPositions 0 ids ∅ !! id) as [k|].
  - destruct H as [Hk _]. apply lookup_lt_Some in Hk. split; [lia|done].
  - split; [done|]. right. right. by exists id.
Qed.

(** X4: [updateMessageIds] and a context created before it. The context
    keeps the array of ids it was created with, and reads the position
    map the update has filled again: its [messagesSinceId] of an id of the
    new list is the length of the old list, minus one, minus the index of
    the id in the new list (a negative number when the index is not
    below the old length), where a context created after the update
    has the length of the new list. *)
Theorem messagesSinceId_after_update (oldIds newIds : list string) (id : string) :
  id <> "" ->
  id ∈ newIds ->
  let before := new_PluginContextFactory oldIds in
  let after := updateMessageIds before newIds in
  exists pos, lastIndex newIds id pos
    /\ messagesSinceId (snapshotOf before) after (Some id) =
         Some (Z.of_nat (length oldIds) - 1 - Z.of_nat pos)
    /\ messagesSinceId (snapshotOf after) after (Some id) =
         Some (Z.of_nat (length newIds) - 1 - Z.of_nat pos).
Proof.
  intros Hne Hin. cbn zeta. unfold messagesSinceId. simpl.
  destruct (String.eqb_spec id "") as [|_]; [done|].
  pose proof (positions_lookup newIds id) as H.
  destruct (setPositions 0 newIds ∅ !! id) as [k|]; [|done].
  by exists k.
Qed.

Lemma messagesSinceId_after_update_witness :
  let before := new_PluginContextFactory ["a"] in
  let after := updateMessageIds before ["a"; "b"; "c"] in
  ("c" <> "" /\ "c" ∈ ["a"; "b"; "c"])
  /\ messagesSinceId (snapshotOf before) after (Some "c") = Some (-2)
  /\ exists pos, lastIndex ["a"; "b"; "c"] "c" pos
       /\ messagesSinceId (snapshotOf before) after (Some "c") =
            Some (Z.of_nat (length ["a"]) - 1 - Z.of_nat pos)
       /\ messagesSinceId (snapshotOf after) after (Some "c") =
            Some (Z.of_nat (length ["a"; "b"; "c"]) - 1 - Z.of_nat pos).
Proof.
  cbn zeta.
  assert ("c" <> "") as H1 by discriminate.
  assert ("c" ∈ ["a"; "b"; "c"]) as H2 by (do 2 constructor; by left).
  split; [done|]. split; [by vm_compute|].
  exact (messagesSinceId_after_update ["a"] ["a"; "b"; "c"] "c" H1 H2).
Defined.

(** ** The event log under several operations *)

Lemma StronglySorted_filter {A : Type} (R : A -> A -> Prop) (P : A -> Prop)
    `{!forall x, Decision (P x)} (l : list A) :
  StronglySorted R l -> StronglySorted R (filter P l).
Proof.
  induction 1 as [|x l Hs IH Hall]; [constructor|].
  rewrite filter_cons. destruct (decide (P x)); [|done].
  constructor; [done|].
  apply Forall_forall. intros y Hy. apply list_elem_of_filter in Hy as [_ Hy].
  rewrite Forall_forall in Hall. by apply Hall.
Qed.

Lemma logInvariant_filter (P : StateEvent -> Prop) `{!forall e, Decision (P e)}
    (events : list StateEvent) :
  logInvariant events -> logInvariant (filter P events).
Proof.
  intros [Hnd Hs]. split; [by apply filter_ids_NoDup|by apply StronglySorted_filter].
Qed.

Lemma filter_comm {A : Type} (P Q : A -> Prop) `{!forall x, Decision (P x)}
    `{!forall x, Decision (Q x)} (l : list A) :
  filter P (filter Q l) = filter Q (filter P l).
Proof.
  rewrite !list_filter_filter. apply list_filter_iff. intros x. tauto.
Qed.

(** What a filter keeps of the log [recordEpicEvent] computes. *)
Lemma recorded_filter `{!ConsistentComparator} (P : StateEvent -> Prop)
    `{!forall e, Decision (P e)} (events : list StateEvent) (m : string) (d : value)
    (now : string) :
  filter P (recorded events m d now) =
    Array_sort compareMessageId
      (filter P (filter (fun e => messageId e <> m) events) ++
       filter P [mkStateEvent m now d]).
Proof. unfold recorded. by rewrite filter_Array_sort_idOrder, filter_app. Qed.

Lemma compareMessageId_undated (a b : StateEvent) :
  compareMessageId (undated a) (undated b) = compareMessageId a b.
Proof. done. Qed.

(** The log after two calls of [recordEpicEvent] for different ids, the
    readings of the clock left out. *)
Lemma recorded_twice_undated `{!ConsistentComparator} (events : list StateEvent)
    (m1 m2 : string) (d1 d2 : value) (t1 t2 : string) :
  m1 <> m2 ->
  undated <$> recorded (recorded events m1 d1 t1) m2 d2 t2 =
    Array_sort compareMessageId
      ((undated <$> filter (fun e => messageId e <> m1 /\ messageId e <> m2) events) ++
       [mkStateEvent m1 "" d1] ++ [mkStateEvent m2 "" d2]).
Proof.
  intros Hne. unfold recorded at 1.
  rewrite recorded_filter, filter_cons_True, filter_nil by done.
  rewrite Array_sort_app_idOrder, list_filter_filter.
  rewrite (Array_sort_fmap _ undated) by apply compareMessageId_undated.
  rewrite <- !app_assoc, !fmap_app. f_equal. f_equal. f_equal.
  apply list_filter_iff. intros e. tauto.
Qed.

(** X5: the log does not depend on the order in which the events of two
    messages arrive, as long as [localeCompare] does not tie their ids:
    whatever the log holds and whatever the clock reads at each of the
    calls, recording for [m1] and then for [m2] leaves the same ids with
    the same deltas in the same order as recording for [m2] and then for
    [m1]. *)
Theorem recordEpicEvent_order `{!ConsistentComparator} (c m1 m2 : string)
    (d1 d2 : value) (ta tb tc td : string) (w : World) :
  ~ (localeCompare m1 m2 <= 0 /\ localeCompare m2 m1 <= 0) ->
  undated <$> eventLog ((recordEpicEvent c m1 d1 ta ;; recordEpicEvent c m2 d2 tb) w).2 c =
  undated <$> eventLog ((recordEpicEvent c m2 d2 tc ;; recordEpicEvent c m1 d1 td) w).2 c.
Proof.
  intros Htie.
  assert (m1 <> m2) as Hne.
  { intros ->. apply Htie. by destruct (localeCompare_total m2 m2). }
  assert (forall ma mb da db ta tb,
            eventLog ((recordEpicEvent c ma da ta ;; recordEpicEvent c mb db tb) w).2 c =
            recorded (recorded (eventLog w c) ma da ta) mb db tb) as Hlog.
  { intros. unfold bind.
    pose proof (recordEpicEvent_log c ma da ta0 w) as H1.
    destruct (recordEpicEvent c ma da ta0 w) as [[] w1]. simpl in H1.
    by rewrite recordEpicEvent_log, H1. }
  rewrite !Hlog, !recorded_twice_undated by done.
  rewrite (list_filter_iff (fun e => messageId e <> m2 /\ messageId e <> m1)
             (fun e => messageId e <> m1 /\ messageId e <> m2)) by (intros e; tauto).
  rewrite !(Array_sort_app _ _ (_ ++ _)). f_equal. simpl.
  destruct (localeCompare_total m1 m2) as [H12|H21].
  - assert (~ localeCompare m2 m1 <= 0) as Hn by tauto.
    unfold compareMessageId. simpl.
    rewrite (proj2 (Z.leb_le _ _) H12). by rewrite (proj2 (Z.leb_gt _ _)) by lia.
  - assert (~ localeCompare m1 m2 <= 0) as Hn by tauto.
    unfold compareMessageId. simpl.
    rewrite (proj2 (Z.leb_le _ _) H21). by rewrite (proj2 (Z.leb_gt _ _)) by lia.
Qed.

(** X6: an event recorded for a message that is not in the live set has
    no effect on the replay: for every consistent [localeCompare], on a
    log that is sorted in its order, [getEpicState] with that live set
    returns the same state after the event was recorded as before, for
    every bound and reducer. *)
Theorem recordEpicEvent_deleted_message `{!ConsistentComparator} (c m : string)
    (d : value) (now : string) (upTo : option string) (live : gset string)
    (reducer : Reducer) (w : World) :
  StronglySorted idOrder (eventLog w c) ->
  m ∉ live ->
  let before := getEpicState c upTo (Some live) reducer w in
  let after := getEpicState c upTo (Some live) reducer (recordEpicEvent c m d now w).2 in
  after.1 = before.1 /\ heap after.2 = heap before.2.
Proof.
  intros Hs Hm. cbn zeta.
  assert (filter (fun e => messageId e ∈ live) (recorded (eventLog w c) m d now) =
          filter (fun e => messageId e ∈ live) (eventLog w c)) as Hlive.
  { rewrite recorded_filter, filter_cons_False, filter_nil, app_nil_r by done.
    rewrite list_filter_filter.
    rewrite (list_filter_iff _ (fun e => messageId e ∈ live)).
    - by apply Array_sort_idOrder_id, StronglySorted_filter.
    - intros e. split; [by intros [He _]|]. intros He. split; [done|].
      intros Heq. apply Hm. by rewrite <- Heq. }
  assert (liveEvents (Some live)
            (boundedEvents (truthy_id upTo) (recorded (eventLog w c) m d now)) =
          liveEvents (Some live) (boundedEvents (truthy_id upTo) (eventLog w c))) as Hkept.
  { unfold liveEvents, boundedEvents. destruct (truthy_id upTo) as [u|]; [|done].
    rewrite !eventsUpTo_sorted by (done || apply Array_sort_idOrder).
    rewrite (filter_comm _ (fun e => localeCompare (messageId e) u <= 0)), Hlive.
    apply filter_comm. }
  pose proof (recordEpicEvent_log c m d now w) as Hlog.
  pose proof (recordEpicEvent_world c m d now w) as Hw. cbn zeta in Hw.
  set (w' := (recordEpicEvent c m d now w).2) in *.
  unfold getEpicState, bind.
  assert (getEpicEvents c w' = (recorded (eventLog w c) m d now, w')) as Hread.
  { apply getEpicEvents_cached. rewrite Hw. simpl. apply lookup_insert_eq. }
  rewrite Hread. unfold eventLog in *.
  assert (heap w' = heap (getEpicEvents c w).2) as Hheap by by rewrite Hw.
  destruct (getEpicEvents c w) as [events w1]. cbn [fst snd] in *.
  destruct (replay_fold upTo (Some live) reducer (recorded events m d now) VNull w')
    as [H1 _].
  destruct (replay_fold upTo (Some live) reducer events VNull w1) as [H2 _].
  cbn zeta in H1, H2. rewrite Hkept, Hheap, <- H2 in H1.
  by injection H1.
Qed.

(** The stored log of any channel after [forkEpicState] is the one it
    had, or the copy (the thread itself, or a channel whose file is the
    same file). *)
Lemma forkEpicState_logIds (p t forkPoint : string) (w : World) (c' : string) :
  logIds (forkEpicState p t forkPoint w).2 c' = logIds w c'
  \/ logIds (forkEpicState p t forkPoint w).2 c' =
       messageId <$> forked (eventLog w p) forkPoint.
Proof.
  rewrite forkEpicState_world. rewrite <- (getEpicEvents_logIds p c' w).
  set (w1 := (getEpicEvents p w).2).
  destruct (forked (eventLog w p) forkPoint) as [|e copy]; [by left|].
  unfold logIds, epicEventsPath. simpl.
  destruct (decide (t = c')) as [<-|Hne].
  - right. by rewrite lookup_insert_eq.
  - rewrite lookup_insert_ne by done.
    destruct (epicEventsCache w1 !! c'); [by left|].
    rewrite lookup_insert. case_decide as Hp.
    + right. apply (stringify_events_ids (heap w1) (e :: copy)).
    + by left.
Qed.

(** A replay changes no stored log. *)
Lemma getEpicState_logIds (c : string) (upTo : option string) (live : option (gset string))
    (reducer : Reducer) (w : World) (c' : string) :
  logIds (getEpicState c upTo live reducer w).2 c' = logIds w c'.
Proof.
  rewrite <- (getEpicEvents_logIds c c' w). unfold getEpicState, bind.
  destruct (getEpicEvents c w) as [events w1]. simpl.
  destruct (replay_fold upTo live reducer events VNull w1) as [_ H]. cbn zeta in H.
  unfold logIds, epicEventsPath.
  apply (f_equal (fun x => (cacheDir x, pluginId x, epicEventsCache x, epicFiles x))) in H.
  simpl in H. by injection H as -> -> -> ->.
Qed.

(** X7: for every consistent [localeCompare], no sequence of calls of
    [recordEpicEvent], [forkEpicState] and [getEpicState] breaks the
    invariant of the event logs: when every log is sorted by message id
    in the order of [localeCompare] with one event per id, every log
    still is after the calls. *)
Theorem epic_calls_keep_invariant `{!ConsistentComparator} (calls : list EpicCall)
    (w : World) :
  (forall c, logInvariant (eventLog w c)) ->
  forall c, logInvariant (eventLog (runEpicCalls calls w).2 c).
Proof.
  revert w. induction calls as [|call rest IH]; intros w Hinv c; [apply Hinv|].
  simpl. unfold bind.
  destruct (runEpicCall call w) as [[] w1] eqn:E.
  apply IH. intros c0.
  replace w1 with (runEpicCall call w).2 by by rewrite E.
  clear E IH. destruct call as [c1 m d now|p t forkPoint|c1 upTo live reducer]; simpl.
  - destruct (recordEpicEvent_logIds c1 m d now w c0) as [Heq|Heq];
      rewrite <- !eventLog_ids in Heq.
    + eapply logInvariant_ids; [symmetry; exact Heq|apply Hinv].
    + eapply logInvariant_ids; [symmetry; exact Heq|].
      apply recorded_invariant, Hinv.
  - destruct (forkEpicState_logIds p t forkPoint w c0) as [Heq|Heq];
      rewrite <- !eventLog_ids in Heq.
    + eapply logInvariant_ids; [symmetry; exact Heq|apply Hinv].
    + eapply logInvariant_ids; [symmetry; exact Heq|].
      apply logInvariant_filter, Hinv.
  - pose proof (getEpicState_logIds c1 upTo live reducer w c0) as Heq.
    rewrite <- !eventLog_ids in Heq. unfold bind.
    destruct (getEpicState c1 upTo live reducer w) as [st w2]. simpl in *.
    eapply logInvariant_ids; [symmetry; exact Heq|apply Hinv].
Qed.

Lemma JSON_parse_heap (doc : json) (h : gmap loc json) : h ⊆ (JSON_parse doc h).2.
Proof.
  destruct doc; simpl; try done;
    apply insert_subseteq, not_elem_of_dom, is_fresh.
Qed.

Lemma stringify_parse_weaken (doc : json) (h h' : gmap loc json) :
  (JSON_parse doc h).2 ⊆ h' -> JSON_stringify h' (JSON_parse doc h).1 = doc.
Proof.
  intros Hsub. destruct doc; simpl in *; try done;
    by erewrite lookup_weaken; [| apply lookup_insert_eq | exact Hsub].
Qed.

(** What [JSON.parse] builds of an epic file serialises to the file. *)
Lemma parse_events_stringify (docs : list StateEventDoc) (h : gmap loc json) :
  h ⊆ (parse_events docs h).2
  /\ stringify_event (parse_events docs h).2 <$> (parse_events docs h).1 = docs.
Proof.
  revert h. induction docs as [|d rest IH]; intros h; simpl; [done|].
  pose proof (JSON_parse_heap (docDelta d) h) as H1.
  pose proof (stringify_parse_weaken (docDelta d) h) as Hd.
  destruct (JSON_parse (docDelta d) h) as [v h1]. cbn [fst snd] in *.
  destruct (IH h1) as [H2 Hrest].
  destruct (parse_events rest h1) as [events h2]. cbn [fst snd] in *.
  split; [by transitivity h1|].
  rewrite fmap_cons, Hrest. f_equal. unfold stringify_event. simpl.
  rewrite (Hd h2 H2). by destruct d.
Qed.

(** Reading a log builds objects and changes none. *)
Lemma getEpicEvents_heap (c : string) (w : World) : heap w ⊆ heap (getEpicEvents c w).2.
Proof.
  destruct (getEpicEvents_cases c w)
    as [(events & Hc & ->)|[(docs & Hc & Hf & ->)|(Hc & Hf & ->)]]; [done| |done].
  simpl. apply parse_events_stringify.
Qed.

(** X8: a [recordEpicEvent] or a [forkEpicState] changes the stored log
    of no channel but the one it writes, as long as the files are
    different files: the cache entry of such a channel is the list of
    events it was (ids, timestamps and deltas), its file holds the
    documents it held, and no object of the heap is changed. For the
    parent of a fork, whose log the fork reads, the file is unchanged
    and the log read afterwards is the list of events read before. *)
Theorem epic_write_leaves_other_logs (c m : string) (d : value) (now : string)
    (p t forkPoint : string) (w : World) (c' : string) :
  (epicEventsPath w c' <> epicEventsPath w c ->
   let w' := (recordEpicEvent c m d now w).2 in
   epicEventsCache w' !! c' = epicEventsCache w !! c'
   /\ epicFiles w' !! epicEventsPath w' c' = epicFiles w !! epicEventsPath w c'
   /\ heap w ⊆ heap w')
  /\ (epicEventsPath w c' <> epicEventsPath w t -> c' <> p ->
      let w' := (forkEpicState p t forkPoint w).2 in
      epicEventsCache w' !! c' = epicEventsCache w !! c'
      /\ epicFiles w' !! epicEventsPath w' c' = epicFiles w !! epicEventsPath w c'
      /\ heap w ⊆ heap w')
  /\ (epicEventsPath w p <> epicEventsPath w t ->
      let w' := (forkEpicState p t forkPoint w).2 in
      epicFiles w' !! epicEventsPath w' p = epicFiles w !! epicEventsPath w p
      /\ eventLog w' p = eventLog w p
      /\ heap w ⊆ heap w').
Proof.
  split; [|split]; intros Hpath; cbn zeta.
  - assert (c' <> c) as Hne by (intros ->; done).
    split; [by apply recordEpicEvent_cache_other|].
    rewrite recordEpicEvent_world.
    pose proof (getEpicEvents_epicEventsPath c c' w) as Hp1.
    pose proof (getEpicEvents_epicEventsPath c c w) as Hp2.
    destruct (getEpicEvents_files c w) as (_ & _ & Hfiles).
    pose proof (getEpicEvents_heap c w) as Hheap.
    set (w1 := (getEpicEvents c w).2) in *.
    split; [|done].
    unfold epicEventsPath at 1. simpl. fold (epicEventsPath w1 c').
    rewrite lookup_insert_ne by congruence. by rewrite Hp1, Hfiles.
  - intros Hnp. assert (c' <> t) as Hne by (intros ->; done).
    rewrite forkEpicState_world.
    pose proof (getEpicEvents_epicEventsPath p c' w) as Hp1.
    pose proof (getEpicEvents_epicEventsPath p t w) as Hp2.
    destruct (getEpicEvents_files p w) as (_ & _ & Hfiles).
    pose proof (getEpicEvents_heap p w) as Hheap.
    pose proof (getEpicEvents_cache_other p c' w Hnp) as Hcache.
    set (w1 := (getEpicEvents p w).2) in *.
    destruct (forked (eventLog w p) forkPoint) as [|e copy].
    + by rewrite Hp1, Hfiles.
    + split; [|split; [|done]].
      * simpl. by rewrite lookup_insert_ne.
      * unfold epicEventsPath at 1. simpl. fold (epicEventsPath w1 c').
        rewrite lookup_insert_ne by congruence. by rewrite Hp1, Hfiles.
  - assert (p <> t) as Hne by (intros ->; done).
    rewrite forkEpicState_world.
    pose proof (getEpicEvents_epicEventsPath p p w) as Hp1.
    pose proof (getEpicEvents_epicEventsPath p t w) as Hp2.
    destruct (getEpicEvents_files p w) as (_ & _ & Hfiles).
    pose proof (getEpicEvents_heap p w) as Hheap.
    pose proof (getEpicEvents_again p w) as Hagain.
    destruct (forked (eventLog w p) forkPoint) as [|e copy].
    { split; [by rewrite Hp1, Hfiles|]. split; [|done].
      unfold eventLog. by rewrite Hagain. }
    split; [|split; [|done]].
    + unfold epicEventsPath at 1. simpl. fold (epicEventsPath (getEpicEvents p w).2 p).
      rewrite lookup_insert_ne by congruence. by rewrite Hp1, Hfiles.
    + unfold eventLog.
      destruct (getEpicEvents_cases p w)
        as [(events & Hc & Hr)|[(docs & Hc & Hf & Hr)|(Hc & Hf & Hr)]];
        rewrite Hr in *; cbn [fst snd] in *.
      * rewrite (getEpicEvents_cached p events); [done|].
        simpl. by rewrite lookup_insert_ne.
      * rewrite (getEpicEvents_cached p (parse_events docs (heap w)).1); [done|].
        simpl. rewrite lookup_insert_ne by done. apply lookup_insert_eq.
      * rewrite getEpicEvents_noLog; [done|]. split; simpl.
        -- by rewrite lookup_insert_ne.
        -- unfold epicEventsPath at 1. simpl. fold (epicEventsPath w p).
           by rewrite lookup_insert_ne.
Qed.

(** ** The files and [clearCache] *)

(** X9: what was written is read again after [clearCache], from the
    files: the global state and the state of a channel have the document
    of the value that was set, and the event log of a channel has the
    events that were saved, with their ids, timestamps and the documents
    of their deltas, in the same order. *)
Theorem state_survives_clearCache (v : value) (c : string) (msgId : option string)
    (m now : string) (w : World) :
  (let w' := (setGlobalState v w).2 in
   let read := getGlobalState (clearCache w').2 in
   JSON_stringify (heap read.2) read.1 = JSON_stringify (heap w') v)
  /\ (let w' := (setChannelState c v msgId w).2 in
      let read := getChannelState c None (clearCache w').2 in
      JSON_stringify (heap read.2) (state read.1) = JSON_stringify (heap w') v
      /\ Some (metadata read.1) = metadata <$> channelCache w' !! c)
  /\ (let w' := (recordEpicEvent c m v now w).2 in
      let read := getEpicEvents c (clearCache w').2 in
      stringify_event (heap read.2) <$> read.1 =
        stringify_event (heap w') <$> eventLog w' c).
Proof.
  split; [|split]; cbn zeta.
  - unfold setGlobalState, getGlobalState, clearCache, stringify, logger, parse, bind,
      gets, modify, ret. simpl.
    unfold globalPath. simpl. rewrite lookup_insert_eq. simpl.
    pose proof (stringify_parse (JSON_stringify (heap w) v) (heap w)) as H.
    by destruct (JSON_parse (JSON_stringify (heap w) v) (heap w)).
  - rewrite setChannelState_world.
    set (w1 := (getOwnChannelState c w).2).
    set (md := writtenMetadata _ _).
    simpl. rewrite lookup_insert_eq. simpl.
    destruct (getChannelState_from_file c (mkChannelFile (JSON_stringify (heap w1) v) md)
                None
                (clearCache
                   (set_logged (logged w1 ++ [(Debug, "Saved channel state")])
                      (set_channelCache (<[c := mkChannelState v md]> (channelCache w1))
                         (set_channelFiles
                            (<[channelPath w1 c :=
                                 mkChannelFile (JSON_stringify (heap w1) v) md]>
                               (channelFiles w1)) w1)))).2) as [H1 H2].
    + apply lookup_empty.
    + unfold clearCache, bind, modify, channelPath. simpl.
      fold (channelPath w1 c). apply lookup_insert_eq.
    + simpl in H1, H2. by rewrite H1, H2.
  - rewrite recordEpicEvent_log, recordEpicEvent_world.
    set (w1 := (getEpicEvents c w).2).
    set (log := recorded (eventLog w c) m v now).
    unfold getEpicEvents, clearCache, bind, gets, modify, ret. simpl.
    rewrite lookup_empty. unfold epicEventsPath. simpl.
    fold (epicEventsPath w1 c). rewrite lookup_insert_eq.
    cbn [heap set_epicEventsCache set_channelCache set_globalCache set_logged
         set_epicFiles].
    destruct (parse_events_stringify (stringify_event (heap w1) <$> log) (heap w1))
      as [_ H].
    by destruct (parse_events (stringify_event (heap w1) <$> log) (heap w1)).
Qed.

(** ** Channel state under several operations *)

Lemma noState_set_logged (l : list (level * string)) (w : World) (c : string) :
  noState (set_logged l w) c <-> noState w c.
Proof. done. Qed.

Lemma getOwnChannelState_noState_other (x c : string) (w : World) :
  noState w c -> noState (getOwnChannelState x w).2 c.
Proof.
  intros Hno. destruct (decide (x = c)) as [->|Hne].
  - by rewrite getOwnChannelState_noState.
  - destruct (getOwnChannelState_frame x w) as (Hdir & Hid & Hfiles & _ & Hcache).
    destruct Hno as [Hc Hf]. split.
    + by rewrite Hcache.
    + unfold channelPath. by rewrite Hdir, Hid, Hfiles.
Qed.

Lemma inheritFromOrigin_noState (inheritFrom : option InheritFrom) (c : string) (w : World) :
  noState w c -> noState (inheritFromOrigin inheritFrom w).2 c.
Proof.
  intros Hno. unfold inheritFromOrigin. destruct (truthy_id _) as [o|]; [|done].
  unfold bind. pose proof (getOwnChannelState_noState_other o c w Hno) as H.
  destruct (getOwnChannelState o w) as [origin w1]. simpl in H.
  by destruct (truthy (state origin)).
Qed.

Lemma inheritFromParent_noState (inheritFrom : option InheritFrom) (c : string) (w : World) :
  noState w c -> noState (inheritFromParent inheritFrom w).2 c.
Proof.
  intros Hno. unfold inheritFromParent. destruct (truthy_id _) as [o|]; [|done].
  unfold bind. pose proof (getOwnChannelState_noState_other o c w Hno) as H.
  destruct (getOwnChannelState o w) as [parent w1]. simpl in H.
  by destruct (truthy (state parent)).
Qed.

Lemma getChannelState_noState (c : string) (inheritFrom : option InheritFrom) (w : World) :
  noState w c -> noState (getChannelState c inheritFrom w).2 c.
Proof.
  intros Hno. unfold getChannelState, bind.
  rewrite loadChannelState_noState by done.
  pose proof (inheritFromOrigin_noState inheritFrom c w Hno) as H1.
  destruct (inheritFromOrigin inheritFrom w) as [[result|] w1]; [done|]. simpl in H1.
  pose proof (inheritFromParent_noState inheritFrom c w1 H1) as H2.
  by destruct (inheritFromParent inheritFrom w1) as [[result|] w2].
Qed.

Lemma setChannelState_noState_other (p c : string) (v : value) (msgId : option string)
    (w : World) :
  channelPath w c <> channelPath w p ->
  noState w c -> noState (setChannelState p v msgId w).2 c.
Proof.
  intros Hpath Hno.
  assert (c <> p) as Hne by (intros ->; done).
  rewrite setChannelState_world.
  destruct (getOwnChannelState_frame p w) as (Hdir & Hid & Hfiles & _ & Hcache).
  destruct Hno as [Hc Hf]. split; simpl.
  - rewrite lookup_insert_ne by done. by rewrite Hcache.
  - unfold channelPath in *. simpl. rewrite Hdir, Hid, Hfiles.
    by rewrite lookup_insert_ne.
Qed.

(** X10: an inherited state is not kept for the child. For a child
    without a stored state, a named (non-empty) parent and two different
    files: a read with inheritance leaves the child without a state, and
    the child's next read consults the parent again. When the parent is
    written in between, the child reads the new state of the parent with
    [parentChannelId] recorded if that state is truthy, and [null]
    without [parentChannelId] if it is falsy (null, false, 0 or the
    empty string). *)
Theorem inheritance_follows_parent (p c : string) (v : value) (msgId : option string)
    (w : World) :
  noState w c ->
  p <> "" ->
  channelPath w c <> channelPath w p ->
  let inheritFrom := Some (mkInheritFrom (Some p) None) in
  let w1 := (getChannelState c inheritFrom w).2 in
  let w2 := (setChannelState p v msgId w1).2 in
  let read := (getChannelState c inheritFrom w2).1 in
  noState w1 c
  /\ noState w2 c
  /\ state read = (if truthy v then v else VNull)
  /\ parentChannelId (metadata read) = (if truthy v then Some p else None).
Proof.
  intros Hno Hp Hpath. cbn zeta.
  pose proof (getChannelState_noState c (Some (mkInheritFrom (Some p) None)) w Hno) as H1.
  set (w1 := (getChannelState c _ w).2) in *.
  assert (channelPath w1 c <> channelPath w1 p) as Hpath1.
  { assert (cacheDir w1 = cacheDir w /\ pluginId w1 = pluginId w) as [Hd Hi].
    { unfold w1, getChannelState, bind. rewrite loadChannelState_noState by done.
      unfold inheritFromOrigin, inheritFromParent. simpl.
      destruct (String.eqb_spec p "") as [|_]; [done|]. unfold bind.
      destruct (getOwnChannelState_frame p w) as (Hdir & Hid & _).
      destruct (getOwnChannelState p w) as [parent w0]. simpl in *.
      by destruct (truthy (state parent)). }
    unfold channelPath. by rewrite Hd, Hi. }
  pose proof (setChannelState_noState_other p c v msgId w1 Hpath1 H1) as H2.
  pose proof (setChannelState_world p v msgId w1) as Hw2. cbn zeta in Hw2.
  set (w2 := (setChannelState p v msgId w1).2) in *.
  split; [done|]. split; [done|].
  unfold getChannelState, bind. rewrite loadChannelState_noState by done.
  unfold inheritFromOrigin, inheritFromParent. simpl.
  destruct (String.eqb_spec p "") as [|_]; [done|]. unfold bind.
  rewrite (getOwnChannelState_cached p
             (mkChannelState v
                (writtenMetadata (metadata (getOwnChannelState p w1).1) msgId))).
  - simpl. by destruct (truthy v).
  - rewrite Hw2. simpl. apply lookup_insert_eq.
Qed.

Lemma inheritance_follows_parent_witness :
  let w := parentOnDisk in
  let inheritFrom := Some (mkInheritFrom (Some "P") None) in
  let w1 := (getChannelState "C" inheritFrom w).2 in
  let w2 := (setChannelState "P" (VNum 9) (Some "m4") w1).2 in
  let w3 := (setChannelState "P" (VNum 0) (Some "m5") w1).2 in
  (noState w "C" /\ "P" <> "" /\ channelPath w "C" <> channelPath w "P")
  /\ noState w1 "C"
  /\ noState w2 "C"
  /\ (getChannelState "C" inheritFrom w2).1 =
       mkChannelState (VNum 9) (mkMetadata (Some "m4") (Some "P") None)
  /\ (getChannelState "C" inheritFrom w3).1 = noChannelState.
Proof.
  cbn zeta.
  assert (noState parentOnDisk "C") as H1 by (split; vm_compute; reflexivity).
  assert ("P" <> "") as H2 by discriminate.
  assert (channelPath parentOnDisk "C" <> channelPath parentOnDisk "P") as H3
    by (vm_compute; discriminate).
  split; [done|].
  destruct (inheritance_follows_parent "P" "C" (VNum 9) (Some "m4") parentOnDisk H1 H2 H3)
    as (Ha & Hb & _).
  split; [exact Ha|]. split; [exact Hb|]. split; by vm_compute.
Defined.

Lemma getOwnChannelState_ancestry (x : string) (w : World) :
  storedWithoutAncestry w ->
  storedWithoutAncestry (getOwnChannelState x w).2
  /\ noAncestry (metadata (getOwnChannelState x w).1).
Proof.
  intros [Hcache Hfiles]. unfold getOwnChannelState, bind.
  destruct (loadChannelState_cases x w)
    as [(result & Hc & ->)|[(parsed & Hc & Hf & ->)|(Hno & ->)]]; simpl.
  - split; [done|]. by apply (Hcache x).
  - split; [|by apply (Hfiles _ _ Hf)]. split; simpl; [|done].
    intros c result Hlook. destruct (decide (x = c)) as [<-|Hne].
    + rewrite lookup_insert_eq in Hlook. injection Hlook as <-. simpl.
      by apply (Hfiles _ _ Hf).
    + rewrite lookup_insert_ne in Hlook by done. by apply (Hcache c).
  - done.
Qed.

Lemma getChannelState_ancestry (c : string) (inheritFrom : option InheritFrom) (w : World) :
  storedWithoutAncestry w -> storedWithoutAncestry (getChannelState c inheritFrom w).2.
Proof.
  intros Hinv.
  assert (forall x w0, storedWithoutAncestry w0 ->
            storedWithoutAncestry (loadChannelState x w0).2) as Hload.
  { intros x w0 H0. destruct (getOwnChannelState_ancestry x w0 H0) as [H _].
    unfold getOwnChannelState, bind in H.
    by destruct (loadChannelState x w0) as [[result|] w1]. }
  assert (forall w0, storedWithoutAncestry w0 ->
            storedWithoutAncestry (inheritFromOrigin inheritFrom w0).2) as Horigin.
  { intros w0 H0. unfold inheritFromOrigin. destruct (truthy_id _) as [o|]; [|done].
    unfold bind. destruct (getOwnChannelState_ancestry o w0 H0) as [H _].
    destruct (getOwnChannelState o w0) as [origin w1]. simpl in H.
    by destruct (truthy (state origin)). }
  assert (forall w0, storedWithoutAncestry w0 ->
            storedWithoutAncestry (inheritFromParent inheritFrom w0).2) as Hparent.
  { intros w0 H0. unfold inheritFromParent. destruct (truthy_id _) as [o|]; [|done].
    unfold bind. destruct (getOwnChannelState_ancestry o w0 H0) as [H _].
    destruct (getOwnChannelState o w0) as [parent w1]. simpl in H.
    by destruct (truthy (state parent)). }
  unfold getChannelState, bind.
  specialize (Hload c w Hinv).
  destruct (loadChannelState c w) as [[result|] w0]; [done|]. simpl in Hload.
  specialize (Horigin w0 Hload).
  destruct (inheritFromOrigin inheritFrom w0) as [[result|] w1]; [done|]. simpl in Horigin.
  specialize (Hparent w1 Horigin).
  by destruct (inheritFromParent inheritFrom w1) as [[result|] w2].
Qed.

Lemma setChannelState_ancestry (c : string) (v : value) (msgId : option string) (w : World) :
  storedWithoutAncestry w -> storedWithoutAncestry (setChannelState c v msgId w).2.
Proof.
  intros Hinv. rewrite setChannelState_world.
  destruct (getOwnChannelState_ancestry c w Hinv) as [[Hcache Hfiles] Hmd].
  set (w1 := (getOwnChannelState c w).2) in *.
  split; simpl.
  - intros c' result Hlook. destruct (decide (c = c')) as [<-|Hne].
    + rewrite lookup_insert_eq in Hlook. by injection Hlook as <-.
    + rewrite lookup_insert_ne in Hlook by done. by apply (Hcache c').
  - intros path parsed Hlook.
    destruct (decide (channelPath w1 c = path)) as [<-|Hne].
    + rewrite lookup_insert_eq in Hlook. by injection Hlook as <-.
    + rewrite lookup_insert_ne in Hlook by done. by apply (Hfiles path).
Qed.

(** X11: the ancestry an inherited read reports is never stored. From a
    store whose metadata names no parent and no history origin (a new
    manager on an empty cache directory in particular), no sequence of
    [getChannelState] and [setChannelState] calls, with or without
    inheritance, leaves metadata in the cache or in a file that names
    one; what a channel reads of its own state has neither field. *)
Theorem ancestry_is_never_stored (calls : list ChannelCall) (w : World) (c : string) :
  storedWithoutAncestry w ->
  let w' := (runChannelCalls calls w).2 in
  storedWithoutAncestry w'
  /\ noAncestry (metadata (getChannelState c None w').1).
Proof.
  intros Hinv. cbn zeta.
  assert (storedWithoutAncestry (runChannelCalls calls w).2) as Hall.
  { revert w Hinv. induction calls as [|call rest IH]; intros w Hinv; [done|].
    simpl. unfold bind.
    destruct (runChannelCall call w) as [[] w1] eqn:E. apply IH.
    replace w1 with (runChannelCall call w).2 by by rewrite E.
    destruct call as [c0 inheritFrom|c0 st msgId]; simpl.
    - unfold bind. pose proof (getChannelState_ancestry c0 inheritFrom w Hinv) as H.
      by destruct (getChannelState c0 inheritFrom w).
    - by apply setChannelState_ancestry. }
  split; [done|].
  rewrite getChannelState_own. by apply getOwnChannelState_ancestry.
Qed.

Lemma ancestry_is_never_stored_witness :
  let inheritFrom := Some (mkInheritFrom (Some "P") (Some "O")) in
  let calls := [CallSet "P" (VNum 5) (Some "m1"); CallGet "C" inheritFrom;
                CallSet "C" (VNum 6) (Some "m2")] in
  let w := new_PluginStateManager "cache" "notes" in
  let w' := (runChannelCalls calls w).2 in
  storedWithoutAncestry w
  /\ (getChannelState "C" inheritFrom (runChannelCalls [CallSet "P" (VNum 5) (Some "m1")] w).2).1
       = mkChannelState (VNum 5) (mkMetadata (Some "m1") (Some "P") None)
  /\ (getChannelState "C" inheritFrom w').1
       = mkChannelState (VNum 6) (mkMetadata (Some "m2") None None)
  /\ storedWithoutAncestry w'
  /\ noAncestry (metadata (getChannelState "C" None w').1).
Proof.
  cbn zeta.
  assert (storedWithoutAncestry (new_PluginStateManager "cache" "notes")) as H.
  { split; intros ? ? Hl; simpl in Hl; by rewrite lookup_empty in Hl. }
  split; [exact H|]. split; [by vm_compute|]. split; [by vm_compute|].
  exact (ancestry_is_never_stored
           [CallSet "P" (VNum 5) (Some "m1");
            CallGet "C" (Some (mkInheritFrom (Some "P") (Some "O")));
            CallSet "C" (VNum 6) (Some "m2")]
           (new_PluginStateManager "cache" "notes") "C" H).
Defined.

(** X12: a [setChannelState] without a message id, or with the empty
    string as message id, keeps the [lastModifiedMessageId] the channel
    has: after a write at the message [m] and a second write without
    one, the channel has the state of the second write and is last
    modified at [m]. *)
Theorem setChannelState_keeps_lastModified (c m : string) (v1 v2 : value)
    (msgId : option string) (inheritFrom : option InheritFrom) (w : World) :
  m <> "" ->
  truthy_id msgId = None ->
  let w' := ((setChannelState c v1 (Some m) ;; setChannelState c v2 msgId) w).2 in
  let read := (getChannelState c inheritFrom w').1 in
  state read = v2 /\ lastModifiedMessageId (metadata read) = Some m.
Proof.
  intros Hm Hnone. cbn zeta. unfold bind.
  pose proof (setChannelState_world c v1 (Some m) w) as H1. cbn zeta in H1.
  destruct (setChannelState c v1 (Some m) w) as [[] w1]. simpl in H1.
  rewrite setChannelState_world.
  assert (getOwnChannelState c w1 =
          (mkChannelState v1 (writtenMetadata (metadata (getOwnChannelState c w).1) (Some m)),
           w1)) as Hown.
  { apply getOwnChannelState_cached. rewrite H1. simpl. apply lookup_insert_eq. }
  rewrite Hown. simpl.
  unfold getChannelState, bind.
  erewrite loadChannelState_cached by (simpl; apply lookup_insert_eq).
  simpl. split; [done|]. unfold writtenMetadata. simpl. rewrite Hnone.
  by destruct (String.eqb_spec m "").
Qed.

Lemma setChannelState_keeps_lastModified_witness :
  let w := new_PluginStateManager "cache" "notes" in
  let w' := ((setChannelState "C" (VNum 1) (Some "m1") ;;
              setChannelState "C" (VNum 2) (Some "")) w).2 in
  let read := (getChannelState "C" None w').1 in
  ("m1" <> "" /\ truthy_id (Some "") = None)
  /\ state read = VNum 2 /\ lastModifiedMessageId (metadata read) = Some "m1".
Proof.
  cbn zeta.
  assert ("m1" <> "") as H1 by discriminate.
  assert (truthy_id (Some "") = None) as H2 by reflexivity.
  split; [done|].
  exact (setChannelState_keeps_lastModified "C" "m1" (VNum 1) (VNum 2) (Some "") None
           (new_PluginStateManager "cache" "notes") H1 H2).
Defined.

(** ** Repeated reads *)

Lemma getGlobalState_cached (w : World) :
  not_null (globalCache w) = true -> getGlobalState w = (globalCache w, w).
Proof. intros Hc. unfold getGlobalState, bind, gets, ret. by rewrite Hc. Qed.

Lemma getGlobalState_file (w : World) (data : json) :
  not_null (globalCache w) = false ->
  globalFiles w !! globalPath w = Some data ->
  getGlobalState w =
    ((JSON_parse data (heap w)).1,
     set_globalCache (JSON_parse data (heap w)).1 (set_heap (JSON_parse data (heap w)).2 w)).
Proof.
  intros Hc Hf. unfold getGlobalState, bind, gets, ret, modify, parse.
  rewrite Hc, Hf. by destruct (JSON_parse data (heap w)).
Qed.

Lemma getGlobalState_absent (w : World) :
  not_null (globalCache w) = false ->
  globalFiles w !! globalPath w = None ->
  getGlobalState w = (VNull, w).
Proof. intros Hc Hf. unfold getGlobalState, bind, gets, ret. by rewrite Hc, Hf. Qed.

(** X13: a read that is repeated returns the same value, the same object
    if it is one, and changes nothing any more: for the global state,
    for the own state of a channel and for the event log of a channel,
    the second read returns what the first returned and leaves the world
    as the first left it. *)
Theorem reads_are_repeatable (c : string) (w : World) :
  getGlobalState (getGlobalState w).2 = ((getGlobalState w).1, (getGlobalState w).2)
  /\ getChannelState c None (getChannelState c None w).2 =
       ((getChannelState c None w).1, (getChannelState c None w).2)
  /\ getEpicEvents c (getEpicEvents c w).2 = ((getEpicEvents c w).1, (getEpicEvents c w).2).
Proof.
  split; [|split].
  - destruct (not_null (globalCache w)) eqn:Hc.
    { rewrite (getGlobalState_cached w Hc). cbn [fst snd].
      by rewrite (getGlobalState_cached w Hc). }
    destruct (globalFiles w !! globalPath w) as [data|] eqn:Hf.
    + rewrite (getGlobalState_file w data Hc Hf). cbn [fst snd].
      destruct (not_null (JSON_parse data (heap w)).1) eqn:Hv.
      * by rewrite getGlobalState_cached.
      * assert (data = JNull) as -> by by destruct data.
        by rewrite (getGlobalState_file _ JNull).
    + rewrite (getGlobalState_absent w Hc Hf). cbn [fst snd].
      by rewrite (getGlobalState_absent w Hc Hf).
  - rewrite !getChannelState_own. unfold getOwnChannelState, bind.
    destruct (loadChannelState_cases c w)
      as [(result & Hc & ->)|[(parsed & Hc & Hf & ->)|(Hno & ->)]]; simpl.
    + by rewrite (loadChannelState_cached c result).
    + erewrite loadChannelState_cached; [done|]. simpl. apply lookup_insert_eq.
    + by rewrite loadChannelState_noState.
  - apply getEpicEvents_again.
Qed.

(** ** The state at a message *)

(** ** The state at a message *)

(** A bound that no event exceeds is no bound. *)
Lemma replay_within_bound (upTo : option string) (live : option (gset string))
    (reducer : Reducer) (events : list StateEvent) (st : value) (w : World) :
  Forall (fun e => pastTarget upTo e = false) events ->
  replay upTo live reducer events st w = replay None live reducer events st w.
Proof.
  intros Hall. revert st w. induction Hall as [|e rest He _ IH]; intros st w; [done|].
  simpl. rewrite He. destruct (deleted live e); unfold bind.
  - destruct (logger Debug "Skipping epic event for deleted message" w). apply IH.
  - destruct (call reducer st (delta e) w). apply IH.
Qed.

(** X14: the state at a message that is not older than any event is the
    current state: with a reducer, for a non-empty message id that no id
    of the log exceeds under [localeCompare], [getStateAtMessage] equals
    [getState('epic')]. *)
Theorem getStateAtMessage_newest (ctx : PluginStateContext) (reducer : Reducer)
    (msgId : string) (w : World) :
  epicReducer ctx = Some reducer ->
  msgId <> "" ->
  Forall (fun e => localeCompare (messageId e) msgId <= 0) (eventLog w (channelId ctx)) ->
  getStateAtMessage ctx msgId w = getState ctx epic w.
Proof.
  intros Hr Hne Hall. unfold getStateAtMessage, getState, getEpicState, eventLog, bind in *.
  rewrite Hr. destruct (getEpicEvents (channelId ctx) w) as [events w1]. simpl in Hall.
  apply replay_within_bound. eapply Forall_impl; [exact Hall|].
  intros e He. unfold pastTarget. simpl. destruct (String.eqb_spec msgId "") as [|_]; [done|].
  destruct (localeCompare (messageId e) msgId >? 0) eqn:E; [|done].
  by apply localeCompare_gt in E.
Qed.

(** ** Paths of identifiers without a separator *)

(** X15. A channel id without a path separator names one file of its own
    in each scope: the channel file is [<channel directory>/<id>.json],
    the epic file is [<epic directory>/<id>.json], distinct ids of this
    kind have distinct files, and the channel file, the epic file and
    the global file never coincide, whatever [cacheDir] and [pluginId]
    are. *)
Theorem plain_ids_have_own_files (w : World) (c c' : string) :
  hasSlash c = false -> hasSlash c' = false ->
  channelPath w c =
    path_join [cacheDir w; "plugins"; pluginId w; "channel"] +:+ "/" +:+ c +:+ ".json"
  /\ epicEventsPath w c =
    path_join [cacheDir w; "plugins"; pluginId w; "epic"] +:+ "/" +:+ c +:+ ".json"
  /\ (channelPath w c = channelPath w c' -> c = c')
  /\ (epicEventsPath w c = epicEventsPath w c' -> c = c')
  /\ channelPath w c <> epicEventsPath w c'
  /\ channelPath w c <> globalPath w
  /\ epicEventsPath w c <> globalPath w.
Proof.
  intros Hc Hc'.
  pose proof (plainName_json c Hc) as Hj. pose proof (plainName_json c' Hc') as Hj'.
  destruct (path_join_dir (cacheDir w) (pluginId w)) as [X HX].
  pose proof (HX _ plainName_channel) as Hchannel.
  pose proof (HX _ plainName_epic) as Hepic.
  pose proof (HX _ plainName_global) as Hglobal.
  unfold channelPath, epicEventsPath, globalPath.
  rewrite !(path_join_file _ _ "channel") by (done || apply plainName_channel).
  rewrite !(path_join_file _ _ "epic") by (done || apply plainName_epic).
  rewrite Hchannel, Hepic, Hglobal, !append_assoc.
  split; [done|]. split; [done|]. split; [|split; [|split; [|split]]].
  - intros H. apply String.app_inj, String.app_inj in H.
    injection H as H. by apply append_inv_tail in H.
  - intros H. apply String.app_inj, String.app_inj in H.
    injection H as H. by apply append_inv_tail in H.
  - intros H. apply String.app_inj in H. rewrite !append_cons in H. discriminate.
  - intros H. apply String.app_inj in H. rewrite !append_cons in H. discriminate.
  - intros H. apply String.app_inj in H. rewrite !append_cons in H. discriminate.
Qed.

Lemma plain_ids_have_own_files_witness :
  let w := new_PluginStateManager "/var/cache" "notes" in
  hasSlash "1001" = false /\ hasSlash "1002" = false /\
  channelPath w "1001" = "/var/cache/plugins/notes/channel/1001.json" /\
  (channelPath w "1001" = channelPath w "1002" -> "1001" = "1002").
Proof.
  intros w.
  assert (hasSlash "1001" = false) as H1 by reflexivity.
  assert (hasSlash "1002" = false) as H2 by reflexivity.
  split; [done|]. split; [done|]. split; [by vm_compute|].
  apply (plain_ids_have_own_files w "1001" "1002" H1 H2).
Defined.

(** ** Writing and reading the epic state through a context *)

Lemma foldReducer_app (reducer : Reducer) (ds1 ds2 : list value) (st : value)
    (h : gmap loc json) :
  foldReducer reducer (ds1 ++ ds2) st h =
    foldReducer reducer ds2 (foldReducer reducer ds1 st h).1 (foldReducer reducer ds1 st h).2.
Proof.
  revert st h. induction ds1 as [|d ds1 IH]; intros st h; [done|].
  simpl. destruct (reducer st d h) as [st' h']. apply IH.
Qed.

Lemma foldReducer_keeps (reducer : Reducer) (ds : list value) (st : value)
    (h : gmap loc json) :
  keepsObjects reducer -> (foldReducer reducer ds st h).2 = h.
Proof.
  intros Hkeep. revert st. induction ds as [|d ds IH]; intros st; [done|].
  simpl. pose proof (Hkeep st d h) as Hd. destruct (reducer st d h) as [st' h'].
  simpl in Hd. subst h'. apply IH.
Qed.

(** An event for a message that no recorded id exceeds, and that has no
    event yet, goes to the end of a sorted log. *)
Lemma recorded_newest `{!ConsistentComparator} (events : list StateEvent) (m : string)
    (d : value) (now : string) :
  StronglySorted idOrder events ->
  Forall (fun e => localeCompare (messageId e) m <= 0 /\ messageId e <> m) events ->
  recorded events m d now = events ++ [mkStateEvent m now d].
Proof.
  intros Hs Hall. unfold recorded.
  rewrite filter_all by (eapply Forall_impl; [exact Hall|]; by intros e [_ He]).
  apply Array_sort_idOrder_id.
  apply StronglySorted_app_2; [|done|repeat constructor].
  intros x1 x2 H1 H2. apply list_elem_of_singleton in H2 as ->.
  rewrite Forall_forall in Hall. by apply Hall.
Qed.

(** A second event for that message takes the place of the first. *)
Lemma recorded_again (events : list StateEvent) (m : string) (d1 d2 : value)
    (t1 t2 : string) :
  recorded (events ++ [mkStateEvent m t1 d1]) m d2 t2 = recorded events m d2 t2.
Proof.
  unfold recorded. rewrite filter_app.
  by rewrite (filter_cons_False _ (mkStateEvent m t1 d1)), filter_nil, app_nil_r
    by (simpl; tauto).
Qed.

(** The log is no part of what an operation on the event logs reads. *)
Lemma getEpicEvents_set_logged (l : list (level * string)) (c : string) (w : World) :
  getEpicEvents c (set_logged l w) =
    ((getEpicEvents c w).1, set_logged l (getEpicEvents c w).2).
Proof.
  unfold getEpicEvents, bind, gets, ret, modify. simpl.
  destruct (epicEventsCache w !! c); [done|].
  unfold epicEventsPath. simpl.
  destruct (epicFiles w !! _) as [docs|]; [|done].
  change (heap (set_logged l w)) with (heap w).
  by destruct (parse_events docs (heap w)).
Qed.

Lemma world_but_logged (a b : World) :
  set_logged [] (set_heap ∅ a) = set_logged [] (set_heap ∅ b) ->
  heap a = heap b -> a = set_logged (logged a) b.
Proof.
  destruct a, b. unfold set_logged, set_heap. simpl.
  intros H Hh. injection H as -> -> -> -> -> -> -> ->. by subst.
Qed.

(** With a reducer that leaves the heap as it is, [getEpicState] returns
    the fold of the log and leaves the log and the heap as they are. *)
Lemma getEpicState_keeps (c : string) (upTo : option string) (live : option (gset string))
    (reducer : Reducer) (w : World) :
  keepsObjects reducer ->
  let r := getEpicState c upTo live reducer w in
  r.1 = (foldReducer reducer
           (delta <$> liveEvents live (boundedEvents (truthy_id upTo) (eventLog w c)))
           VNull (heap (getEpicEvents c w).2)).1
  /\ heap r.2 = heap (getEpicEvents c w).2
  /\ replayed c r.2 = replayed c w.
Proof.
  intros Hkeep. cbn zeta.
  pose proof (getEpicEvents_again c w) as Hagain.
  unfold getEpicState, replayed, eventLog, bind in *.
  destruct (getEpicEvents c w) as [events w1]. cbn [fst snd] in *.
  destruct (replay_fold upTo live reducer events VNull w1) as [H1 H2]. cbn zeta in H1, H2.
  pose proof (foldReducer_keeps reducer
                (delta <$> liveEvents live (boundedEvents (truthy_id upTo) events))
                VNull (heap w1) Hkeep) as Hheap.
  rewrite <- H1 in Hheap |- *. cbn [fst snd] in *.
  split; [done|]. split; [done|].
  rewrite (world_but_logged _ _ H2 Hheap), getEpicEvents_set_logged, Hagain. done.
Qed.

(** [recordEpicEvent] leaves the new log, and the heap after the read. *)
Lemma recordEpicEvent_replayed (c m : string) (d : value) (now : string) (w : World) :
  replayed c (recordEpicEvent c m d now w).2 =
    (recorded (eventLog w c) m d now, heap (getEpicEvents c w).2).
Proof.
  unfold replayed. rewrite recordEpicEvent_log. f_equal.
  pose proof (recordEpicEvent_world c m d now w) as Hw. cbn zeta in Hw.
  rewrite (getEpicEvents_cached c (recorded (eventLog w c) m d now)).
  - by rewrite Hw.
  - rewrite Hw. simpl. apply lookup_insert_eq.
Qed.

(** X16. In a context with a reducer that leaves the heap as it is
    (it creates and changes no object), on a log sorted in the order of
    a consistent [localeCompare], when the
    current message is in the context's message list, has no event yet
    and is not exceeded by the id of any recorded event: in the sequence
    read, [setState('epic', v1)], read, [setState('epic', v2)], read,
    the second read returns the reducer applied to the state of the
    first read and [v1], and the third read returns the reducer applied
    to the state of the first read and [v2], the first delta being
    replaced. *)
Theorem epic_write_then_read `{!ConsistentComparator} (ctx : PluginStateContext)
    (reducer : Reducer) (v1 v2 : value) (t1 t2 : string) (w : World) :
  epicReducer ctx = Some reducer ->
  keepsObjects reducer ->
  StronglySorted idOrder (eventLog w (channelId ctx)) ->
  currentMessageId ctx ∈ contextMessageIds ctx ->
  Forall (fun e => localeCompare (messageId e) (currentMessageId ctx) <= 0
                   /\ messageId e <> currentMessageId ctx)
    (eventLog w (channelId ctx)) ->
  let before := getState ctx epic w in
  let once := getState ctx epic (setState ctx epic v1 t1 before.2).2 in
  let twice := getState ctx epic (setState ctx epic v2 t2 once.2).2 in
  once.1 = (reducer before.1 v1 (heap before.2)).1
  /\ twice.1 = (reducer before.1 v2 (heap before.2)).1.
Proof.
  intros Hred Hkeep Hs Hlive Hall. cbn zeta.
  unfold getState, setState. rewrite Hred.
  set (c := channelId ctx) in *. set (m := currentMessageId ctx) in *.
  set (live := contextMessageIds ctx) in *.
  set (L := eventLog w c) in *. set (h := heap (getEpicEvents c w).2).
  (* the first read *)
  destruct (getEpicState_keeps c None (Some live) reducer w Hkeep) as (Hb1 & Hb2 & Hb3).
  cbn zeta in Hb1, Hb2, Hb3. fold L h in Hb1, Hb2.
  set (before := getEpicState c None (Some live) reducer w) in *.
  assert (replayed c before.2 = (L, h)) as Hb by by rewrite Hb3.
  (* the step: a write and a read, from a manager with the log [L] or
     the log [L] and an event of the current message *)
  assert (forall x t0 v0 t v,
            replayed c x = (L, h) \/ replayed c x = (L ++ [mkStateEvent m t0 v0], h) ->
            let r := getEpicState c None (Some live) reducer
                       (recordEpicEvent c m v t x).2 in
            r.1 = (reducer before.1 v h).1
            /\ replayed c r.2 = (L ++ [mkStateEvent m t v], h)) as Hstep.
  { intros x t0 v0 t v Hx. cbn zeta.
    destruct (getEpicState_keeps c None (Some live) reducer
                (recordEpicEvent c m v t x).2 Hkeep) as (Hr1 & _ & Hr3).
    cbn zeta in Hr1, Hr3.
    pose proof (recordEpicEvent_replayed c m v t x) as Hrec.
    assert (recorded (eventLog x c) m v t = L ++ [mkStateEvent m t v]) as Hlog.
    { destruct Hx as [Hx|Hx]; injection Hx as -> _.
      - by apply recorded_newest.
      - rewrite recorded_again. by apply recorded_newest. }
    assert (heap (getEpicEvents c x).2 = h) as Hh by (by destruct Hx as [Hx|Hx]; injection Hx).
    rewrite Hlog, Hh in Hrec. injection Hrec as Hrl Hrh.
    split; [|by rewrite Hr3; unfold replayed; rewrite Hrl, Hrh].
    rewrite Hr1, Hrl, Hrh. unfold liveEvents, boundedEvents. simpl truthy_id. cbn iota.
    rewrite filter_app, filter_cons_True, filter_nil by done.
    rewrite fmap_app, foldReducer_app. simpl.
    rewrite Hb1. unfold liveEvents, boundedEvents. simpl truthy_id. cbn iota.
    rewrite (foldReducer_keeps reducer _ VNull h Hkeep).
    by destruct (reducer _ v h). }
  rewrite Hb2.
  destruct (Hstep before.2 "" VNull t1 v1 (or_introl Hb)) as [Ho1 Ho2].
  cbn zeta in Ho1, Ho2. split; [exact Ho1|].
  by destruct (Hstep _ t1 v1 t2 v2 (or_intror Ho2)) as [Ht1 _].
Qed.

(** ** Rewriting and extending the log *)

(** X17. The update case of [recordEpicEvent]: in a log with one event
    per id, a second event for a message replaces the first. The log is
    the one the second call alone would leave, and it holds exactly one
    event for the message, the one with the second delta. *)
Theorem recordEpicEvent_overwrites `{!ConsistentComparator} (c m : string)
    (d1 d2 : value) (t1 t2 : string) (w : World) :
  NoDup (messageId <$> eventLog w c) ->
  let twice := eventLog ((recordEpicEvent c m d1 t1 ;; recordEpicEvent c m d2 t2) w).2 c in
  twice = eventLog (recordEpicEvent c m d2 t2 w).2 c
  /\ filter (fun e => messageId e = m) twice = [mkStateEvent m t2 d2].
Proof.
  intros Hnd. cbn zeta.
  assert (eventLog ((recordEpicEvent c m d1 t1 ;; recordEpicEvent c m d2 t2) w).2 c =
          recorded (recorded (eventLog w c) m d1 t1) m d2 t2) as ->.
  { unfold bind. pose proof (recordEpicEvent_log c m d1 t1 w) as H1.
    destruct (recordEpicEvent c m d1 t1 w) as [[] w1]. simpl in H1.
    by rewrite recordEpicEvent_log, H1. }
  rewrite recordEpicEvent_log.
  assert (recorded (recorded (eventLog w c) m d1 t1) m d2 t2 =
          recorded (eventLog w c) m d2 t2) as ->.
  { unfold recorded at 1.
    rewrite recorded_filter, filter_cons_False, filter_nil, app_nil_r by (simpl; tauto).
    rewrite Array_sort_app_idOrder, list_filter_filter. unfold recorded.
    do 2 f_equal. apply list_filter_iff. tauto. }
  split; [done|].
  apply Permutation_singleton_r.
  rewrite recorded_perm, filter_cons_True by done.
  apply Permutation_skip. rewrite list_filter_filter.
  apply reflexive_eq, filter_none, Forall_forall. intros e _. tauto.
Qed.

(** The replay right after [recordEpicEvent], with a bound. *)
Lemma getEpicState_recorded_bound (c m : string) (d : value) (now : string)
    (upTo : option string) (live : option (gset string)) (reducer : Reducer) (w : World) :
  let r := getEpicState c upTo live reducer (recordEpicEvent c m d now w).2 in
  (r.1, heap r.2) =
    foldReducer reducer
      (delta <$> liveEvents live
                   (boundedEvents (truthy_id upTo) (recorded (eventLog w c) m d now)))
      VNull (heap (getEpicEvents c w).2).
Proof.
  cbn zeta.
  pose proof (recordEpicEvent_world c m d now w) as Hw. cbn zeta in Hw.
  set (w' := (recordEpicEvent c m d now w).2) in *.
  assert (getEpicEvents c w' = (recorded (eventLog w c) m d now, w')) as Hread.
  { apply getEpicEvents_cached. rewrite Hw. simpl. apply lookup_insert_eq. }
  assert (heap w' = heap (getEpicEvents c w).2) as Hheap by by rewrite Hw.
  unfold getEpicState, bind. rewrite Hread.
  destruct (replay_fold upTo live reducer (recorded (eventLog w c) m d now) VNull w')
    as [H1 _].
  cbn zeta in H1. by rewrite H1, Hheap.
Qed.

(** X18. History is stable: for every consistent [localeCompare], on a
    log sorted in its order, an event recorded for a message that
    compares greater than a non-empty [m] changes nothing in the state
    replayed up to [m], for every live set and reducer. *)
Theorem recordEpicEvent_later_message `{!ConsistentComparator} (c m later : string)
    (d : value) (now : string) (live : option (gset string)) (reducer : Reducer)
    (w : World) :
  StronglySorted idOrder (eventLog w c) ->
  m <> "" ->
  ~ localeCompare later m <= 0 ->
  let before := getEpicState c (Some m) live reducer w in
  let after := getEpicState c (Some m) live reducer (recordEpicEvent c later d now w).2 in
  after.1 = before.1 /\ heap after.2 = heap before.2.
Proof.
  intros Hs Hm Hlater. cbn zeta.
  assert (truthy_id (Some m) = Some m) as Hid.
  { unfold truthy_id. by rewrite eqb_false. }
  assert (boundedEvents (Some m) (recorded (eventLog w c) later d now) =
          boundedEvents (Some m) (eventLog w c)) as Hbound.
  { unfold boundedEvents.
    rewrite !eventsUpTo_sorted by (done || apply Array_sort_idOrder).
    rewrite recorded_filter, filter_cons_False, filter_nil, app_nil_r by done.
    rewrite list_filter_filter.
    rewrite (list_filter_iff _ (fun e => localeCompare (messageId e) m <= 0)).
    - by apply Array_sort_idOrder_id, StronglySorted_filter.
    - intros e. split; [by intros [He _]|]. intros He. split; [done|].
      intros Heq. apply Hlater. by rewrite <- Heq. }
  pose proof (getEpicState_recorded_bound c later d now (Some m) live reducer w) as H1.
  cbn zeta in H1. rewrite Hid, Hbound in H1.
  assert (((getEpicState c (Some m) live reducer w).1,
           heap (getEpicState c (Some m) live reducer w).2) =
          foldReducer reducer
            (delta <$> liveEvents live (boundedEvents (Some m) (eventLog w c)))
            VNull (heap (getEpicEvents c w).2)) as H2.
  { unfold getEpicState, bind, eventLog.
    destruct (getEpicEvents c w) as [events w1]. cbn [fst snd].
    destruct (replay_fold (Some m) live reducer events VNull w1) as [H2 _].
    cbn zeta in H2. by rewrite Hid in H2. }
  rewrite <- H2 in H1. by injection H1.
Qed.

End Properties.

(** * The scenarios of the event logs

    The examples run with the collation [alphanumericCollation], in
    which [a] sorts before [B] as it does in the default locales. *)

#[local] Existing Instance alphanumericCollation.
#[local] Existing Instance alphanumericCollation_consistent.

(** C1 as stated fails in two ways. For the empty string as bound the
    code replays the whole log, where the claim stops before the first
    event. And the bound is compared with [localeCompare], not
    lexicographically: on the log of the ids [a] and [B], which the code
    stores in this order, the replay up to [B] applies both events,
    where the lexicographic comparison stops before the first one, [a]
    being greater than [B] in the order of the code units. *)
Lemma getEpicState_empty_bound :
  (let w := (recordEpicEvent "c" "m1" (VNum 1) "t" (new_PluginStateManager "cache" "p")).2 in
   let log := getEpicEvents "c" w in
   let r := getEpicState "c" (Some "") None sumReducer w in
   let stated :=
     replaySpec (collation := codeUnitCollation) (Some "") None sumReducer
       log.1 (heap log.2) in
   r.1 = VNum 1 /\ stated.1 = VNull /\ (r.1, heap r.2) <> stated)
  /\ (let w := (recordAll [mkRecordCall "c" "a" (VNum 1) "t1";
                           mkRecordCall "c" "B" (VNum 2) "t2"]
                  (new_PluginStateManager "cache" "p")).2 in
      let log := getEpicEvents "c" w in
      let r := getEpicState "c" (Some "B") None sumReducer w in
      let stated :=
        replaySpec (collation := codeUnitCollation) (Some "B") None sumReducer
          log.1 (heap log.2) in
      messageId <$> log.1 = ["a"; "B"]
      /\ ~ lex_le "a" "B"
      /\ r.1 = VNum 3 /\ stated.1 = VNull /\ (r.1, heap r.2) <> stated).
Proof.
  vm_compute. repeat split; congruence.
Qed.

(** The invariant on a run: four calls on a new manager, the third one
    for a message id that has an event; [a] is stored before [B]. *)
Lemma recordEpicEvent_log_invariant_witness :
  let w := new_PluginStateManager "cache" "notes" in
  let calls := [mkRecordCall "c" "m3" (VNum 3) "t1"; mkRecordCall "c" "B" (VNum 1) "t2";
                mkRecordCall "c" "m3" (VNum 4) "t3"; mkRecordCall "c" "a" (VNum 2) "t4"] in
  (forall c', logInvariant (eventLog w c'))
  /\ (forall c', logInvariant (eventLog (recordAll calls w).2 c'))
  /\ eventLog (recordAll calls w).2 "c" =
       [mkStateEvent "a" "t4" (VNum 2); mkStateEvent "B" "t2" (VNum 1);
        mkStateEvent "m3" "t3" (VNum 4)].
Proof.
  cbn zeta. split; [|split].
  - intros c'. apply new_PluginStateManager_invariant.
  - apply (recordEpicEvent_log_invariant (new_PluginStateManager "cache" "notes")
             "c" "m3" (VNum 3) "t1"
             [mkRecordCall "c" "m3" (VNum 3) "t1"; mkRecordCall "c" "B" (VNum 1) "t2";
              mkRecordCall "c" "m3" (VNum 4) "t3"; mkRecordCall "c" "a" (VNum 2) "t4"]).
    intros c'. apply new_PluginStateManager_invariant.
  - vm_compute. reflexivity.
Defined.

(** C2 as stated fails: the log is sorted by [localeCompare], which is
    not the lexicographic order. After an event for [a] and an event for
    [B] the log holds [a] before [B], and [a] is greater than [B] in the
    order of the code units. *)
Lemma recordEpicEvent_not_lexicographic :
  let w := (recordAll [mkRecordCall "c" "a" (VNum 1) "t1";
                       mkRecordCall "c" "B" (VNum 2) "t2"]
              (new_PluginStateManager "cache" "p")).2 in
  eventLog w "c" = [mkStateEvent "a" "t1" (VNum 1); mkStateEvent "B" "t2" (VNum 2)]
  /\ localeCompare "a" "B" = -1
  /\ ~ lex_le "a" "B"
  /\ ~ StronglySorted lexOrder (eventLog w "c").
Proof.
  cbn zeta. split; [by vm_compute|]. split; [by vm_compute|].
  split; [intros H; by apply H|].
  assert (eventLog (recordAll [mkRecordCall "c" "a" (VNum 1) "t1";
                               mkRecordCall "c" "B" (VNum 2) "t2"]
                      (new_PluginStateManager "cache" "p")).2 "c" =
          [mkStateEvent "a" "t1" (VNum 1); mkStateEvent "B" "t2" (VNum 2)]) as ->
    by by vm_compute.
  intros Hs. apply StronglySorted_cons in Hs as [Hall _].
  apply Forall_cons in Hall as [H _]. by apply H.
Qed.

(** C3 as stated fails in these cases. When the parent has no event up
    to the fork point, nothing is written and a child that has a log
    keeps it: its log is not the parent's events up to the fork point and
    the two replays differ. The replay takes the empty string as no
    bound, so that with the empty string as fork point the parent replays
    its whole log while the child received nothing. On a parent log that
    is not sorted (a file this program did not write) the replay stops at
    the first greater id, while the fork copies the smaller ids behind
    it. When the child is the parent itself, what is recorded on the
    parent afterwards is in the child's log. And the fork point is
    compared with [localeCompare]: the event of [a] is copied at the
    fork point [B], though [a] is not lexicographically up to [B]. *)
Lemma forkEpicState_as_stated_fails :
  (let w := (recordAll [mkRecordCall "P" "m5" (VNum 1) "t1";
                        mkRecordCall "T" "m1" (VNum 7) "t2"]
               (new_PluginStateManager "cache" "p")).2 in
   let w' := (forkEpicState "P" "T" "m3" w).2 in
   eventLog w' "T" = [mkStateEvent "m1" "t2" (VNum 7)]
   /\ filter (fun e => lex_le (messageId e) "m3") (eventLog w "P") = []
   /\ (getEpicState "T" (Some "m3") None sumReducer w').1 = VNum 7
   /\ (getEpicState "P" (Some "m3") None sumReducer w').1 = VNull)
  /\ (let w := (recordAll [mkRecordCall "P" "m1" (VNum 1) "t1"]
                  (new_PluginStateManager "cache" "p")).2 in
      let w' := (forkEpicState "P" "T" "" w).2 in
      eventLog w' "T" = []
      /\ (getEpicState "T" (Some "") None sumReducer w').1 = VNull
      /\ (getEpicState "P" (Some "") None sumReducer w').1 = VNum 1)
  /\ (let w := set_epicFiles
                 {[ "cache/plugins/p/epic/P.json" :=
                      [mkStateEventDoc "m3" "t3" (JNum 4); mkStateEventDoc "m1" "t1" (JNum 1)] ]}
                 (new_PluginStateManager "cache" "p") in
      let w' := (forkEpicState "P" "T" "m2" w).2 in
      eventLog w' "T" = [mkStateEvent "m1" "t1" (VNum 1)]
      /\ (getEpicState "T" (Some "m2") None sumReducer w').1 = VNum 1
      /\ (getEpicState "P" (Some "m2") None sumReducer w').1 = VNull)
  /\ (let w := (recordAll [mkRecordCall "P" "m1" (VNum 1) "t1"]
                  (new_PluginStateManager "cache" "p")).2 in
      let w' := (forkEpicState "P" "P" "m1" w).2 in
      eventLog (recordEpicEvent "P" "m2" (VNum 2) "t2" w').2 "P" =
        [mkStateEvent "m1" "t1" (VNum 1); mkStateEvent "m2" "t2" (VNum 2)])
  /\ (let w := (recordAll [mkRecordCall "P" "a" (VNum 1) "t1"]
                  (new_PluginStateManager "cache" "p")).2 in
      let w' := (forkEpicState "P" "T" "B" w).2 in
      eventLog w' "T" = [mkStateEvent "a" "t1" (VNum 1)]
      /\ filter (fun e => lex_le (messageId e) "B") (eventLog w "P") = []).
Proof. vm_compute. repeat split. Qed.

(** Scenario S5: the parent has the events m1, m2, m3 and the thread is
    forked at m2. *)
Lemma forkEpicState_correct_witness :
  let w := (recordAll [mkRecordCall "P" "m1" (VNum 1) "t1";
                       mkRecordCall "P" "m2" (VNum 1) "t2";
                       mkRecordCall "P" "m3" (VNum 1) "t3"]
              (new_PluginStateManager "cache" "p")).2 in
  let w' := (forkEpicState "P" "T" "m2" w).2 in
  (StronglySorted idOrder (eventLog w "P")
   /\ "m2" <> ""
   /\ epicEventsPath w "T" <> epicEventsPath w "P"
   /\ (noLog w "T" \/
       exists e, e ∈ eventLog w "P" /\ localeCompare (messageId e) "m2" <= 0))
  /\ eventLog w' "T" =
       [mkStateEvent "m1" "t1" (VNum 1); mkStateEvent "m2" "t2" (VNum 1)]
  /\ (forall live reducer,
        getEpicState "T" (Some "m2") live reducer w' =
        getEpicState "P" (Some "m2") live reducer w')
  /\ (forall m d now, eventLog (recordEpicEvent "P" m d now w').2 "T" = eventLog w' "T").
Proof.
  cbn zeta.
  set (w := (recordAll _ _).2).
  assert (StronglySorted idOrder (eventLog w "P")) as H1.
  { vm_compute. repeat constructor; discriminate. }
  assert ("m2" <> "") as H2 by discriminate.
  assert (epicEventsPath w "T" <> epicEventsPath w "P") as H3.
  { vm_compute. discriminate. }
  assert (noLog w "T" \/
          exists e, e ∈ eventLog w "P" /\ localeCompare (messageId e) "m2" <= 0) as H4.
  { right. exists (mkStateEvent "m1" "t1" (VNum 1)). split.
    - vm_compute. constructor.
    - vm_compute. discriminate. }
  split; [done|].
  destruct (forkEpicState_correct "P" "T" "m2" w H1 H2 H3 H4) as (Ha & Hb & Hc).
  split; [|by split]. rewrite Ha. by vm_compute.
Defined.

(** A fork at m3 of a parent whose only event is m5, for a thread that
    has a log. *)
Lemma forkEpicState_nothing_to_copy_witness :
  let w := (recordAll [mkRecordCall "P" "m5" (VNum 1) "t1";
                       mkRecordCall "T" "m1" (VNum 7) "t2"]
              (new_PluginStateManager "cache" "p")).2 in
  let w' := (forkEpicState "P" "T" "m3" w).2 in
  (forall e, e ∈ eventLog w "P" -> ~ localeCompare (messageId e) "m3" <= 0)
  /\ w' = (getEpicEvents "P" w).2
  /\ (globalFiles w' = globalFiles w /\ channelFiles w' = channelFiles w
      /\ epicFiles w' = epicFiles w)
  /\ (forall events, epicEventsCache w !! "T" = Some events ->
        epicEventsCache w' !! "T" = Some events)
  /\ logIds w' "T" = logIds w "T"
  /\ (noLog w "T" ->
        noLog w' "T"
        /\ forall upTo live reducer, (getEpicState "T" upTo live reducer w').1 = VNull).
Proof.
  cbn zeta.
  set (w := (recordAll _ _).2).
  assert (forall e, e ∈ eventLog w "P" -> ~ localeCompare (messageId e) "m3" <= 0) as H.
  { intros e He.
    assert (eventLog w "P" = [mkStateEvent "m5" "t1" (VNum 1)]) as Hlog by by vm_compute.
    rewrite Hlog in He. apply list_elem_of_singleton in He as ->.
    vm_compute. intros Hle. by apply Hle. }
  split; [exact H|].
  exact (forkEpicState_nothing_to_copy "P" "T" "m3" w H).
Defined.

(** C10 as stated fails: the fork point is compared with
    [localeCompare]. The parent has one event, of the id [a], and no
    event with an id lexicographically up to [B]; the fork at [B] writes
    all the same: the thread, which had no log, has the event in its
    cache entry and in its file. *)
Lemma forkEpicState_not_lexicographic :
  let w := (recordAll [mkRecordCall "P" "a" (VNum 1) "t1"]
              (new_PluginStateManager "cache" "p")).2 in
  let w' := (forkEpicState "P" "T" "B" w).2 in
  (forall e, e ∈ eventLog w "P" -> ~ lex_le (messageId e) "B")
  /\ noLog w "T"
  /\ epicEventsCache w' !! "T" = Some [mkStateEvent "a" "t1" (VNum 1)]
  /\ epicFiles w' !! epicEventsPath w' "T" = Some [mkStateEventDoc "a" "t1" (JNum 1)]
  /\ (getEpicState "T" None None sumReducer w').1 = VNum 1.
Proof.
  cbn zeta. split; [|split; [|split; [|split]]]; try by vm_compute.
  intros e He.
  assert (eventLog (recordAll [mkRecordCall "P" "a" (VNum 1) "t1"]
                      (new_PluginStateManager "cache" "p")).2 "P" =
          [mkStateEvent "a" "t1" (VNum 1)]) as Hlog by by vm_compute.
  rewrite Hlog in He. apply list_elem_of_singleton in He as ->.
  intros Hle. by apply Hle.
Qed.


(** Two events, for [B] and for [a], recorded in the one order and in
    the other, at different times. *)
Lemma recordEpicEvent_order_witness :
  let w := (recordAll [mkRecordCall "c" "m2" (VNum 2) "t2"]
              (new_PluginStateManager "cache" "notes")).2 in
  ~ (localeCompare "B" "a" <= 0 /\ localeCompare "a" "B" <= 0)
  /\ undated <$> eventLog ((recordEpicEvent "c" "B" (VNum 3) "t3" ;;
                            recordEpicEvent "c" "a" (VNum 1) "t4") w).2 "c" =
     undated <$> eventLog ((recordEpicEvent "c" "a" (VNum 1) "t5" ;;
                            recordEpicEvent "c" "B" (VNum 3) "t6") w).2 "c".
Proof.
  cbn zeta.
  set (w := (recordAll _ _).2).
  assert (~ (localeCompare "B" "a" <= 0 /\ localeCompare "a" "B" <= 0)) as H1.
  { vm_compute. intros [H _]. by apply H. }
  split; [done|].
  exact (recordEpicEvent_order "c" "B" "a" (VNum 3) (VNum 1) "t3" "t4" "t5" "t6" w H1).
Defined.

Lemma recordEpicEvent_deleted_message_witness :
  let w := (recordAll [mkRecordCall "c" "m1" (VNum 1) "t1";
                       mkRecordCall "c" "m3" (VNum 1) "t3"]
              (new_PluginStateManager "cache" "notes")).2 in
  let live : gset string := {["m1"; "m3"]} in
  let before := getEpicState "c" None (Some live) sumReducer w in
  let after := getEpicState "c" None (Some live) sumReducer
                 (recordEpicEvent "c" "m2" (VNum 5) "t2" w).2 in
  (StronglySorted idOrder (eventLog w "c") /\ "m2" ∉ live)
  /\ after.1 = before.1 /\ heap after.2 = heap before.2.
Proof.
  cbn zeta.
  set (w := (recordAll _ _).2).
  assert (StronglySorted idOrder (eventLog w "c")) as H1.
  { vm_compute. repeat constructor; discriminate. }
  assert ("m2" ∉ ({["m1"; "m3"]} : gset string)) as H2.
  { assert (bool_decide ("m2" ∈ ({["m1"; "m3"]} : gset string)) = false) as Hb
      by by vm_compute.
    by apply bool_decide_eq_false in Hb. }
  split; [done|].
  exact (recordEpicEvent_deleted_message "c" "m2" (VNum 5) "t2" None {["m1"; "m3"]}
           sumReducer w H1 H2).
Defined.

Lemma epic_calls_keep_invariant_witness :
  let calls := [CallRecord "P" "m2" (VNum 2) "t2"; CallRecord "P" "m1" (VNum 1) "t1";
                CallFork "P" "T" "m1"; CallReplay "T" None None sumReducer;
                CallRecord "T" "m0" (VNum 0) "t0"] in
  let w := new_PluginStateManager "cache" "notes" in
  (forall c, logInvariant (eventLog w c))
  /\ (forall c, logInvariant (eventLog (runEpicCalls calls w).2 c))
  /\ messageId <$> eventLog (runEpicCalls calls w).2 "T" = ["m0"; "m1"].
Proof.
  cbn zeta. split; [|split].
  - intros c. apply new_PluginStateManager_invariant.
  - apply (epic_calls_keep_invariant
             [CallRecord "P" "m2" (VNum 2) "t2"; CallRecord "P" "m1" (VNum 1) "t1";
              CallFork "P" "T" "m1"; CallReplay "T" None None sumReducer;
              CallRecord "T" "m0" (VNum 0) "t0"]
             (new_PluginStateManager "cache" "notes")).
    intros c. apply new_PluginStateManager_invariant.
  - by vm_compute.
Defined.

(** A fork of P into T, seen from P and from another channel C, whose
    log is in its file only. *)
Lemma epic_write_leaves_other_logs_witness :
  let w := (recordAll [mkRecordCall "P" "m1" (VNum 1) "t1";
                       mkRecordCall "C" "m2" (VNum 2) "t2"] ;; clearCache)
             (new_PluginStateManager "cache" "notes") in
  let w' := (forkEpicState "P" "T" "m1" w.2).2 in
  (epicEventsPath w.2 "C" <> epicEventsPath w.2 "T" /\ "C" <> "P"
   /\ epicEventsPath w.2 "P" <> epicEventsPath w.2 "T")
  /\ epicEventsCache w' !! "C" = None
  /\ epicFiles w' !! epicEventsPath w' "C" = Some [mkStateEventDoc "m2" "t2" (JNum 2)]
  /\ eventLog w' "P" = eventLog w.2 "P".
Proof.
  cbn zeta.
  set (w := ((recordAll _ ;; clearCache) _).2).
  assert (epicEventsPath w "C" <> epicEventsPath w "T") as H1 by (vm_compute; discriminate).
  assert ("C" <> "P") as H2 by discriminate.
  assert (epicEventsPath w "P" <> epicEventsPath w "T") as H3 by (vm_compute; discriminate).
  split; [done|].
  destruct (epic_write_leaves_other_logs "c" "m" VNull "t" "P" "T" "m1" w "C")
    as (_ & Hother & _).
  destruct (Hother H1 H2) as (Ha & Hb & _).
  destruct (epic_write_leaves_other_logs "c" "m" VNull "t" "P" "T" "m1" w "P")
    as (_ & _ & Hparent).
  destruct (Hparent H3) as (_ & Hc & _).
  split; [by rewrite Ha|]. split; [by rewrite Hb|]. exact Hc.
Defined.

Lemma getStateAtMessage_newest_witness :
  let ctx := createStateContext (new_PluginContextFactory ["m1"; "m2"; "m3"]) "c" "m3"
               None (Some sumReducer) in
  let w := (recordAll [mkRecordCall "c" "m1" (VNum 1) "t1";
                       mkRecordCall "c" "m2" (VNum 2) "t2"]
              (new_PluginStateManager "cache" "notes")).2 in
  (epicReducer ctx = Some sumReducer /\ "m3" <> ""
   /\ Forall (fun e => localeCompare (messageId e) "m3" <= 0) (eventLog w (channelId ctx)))
  /\ getStateAtMessage ctx "m3" w = getState ctx epic w
  /\ (getState ctx epic w).1 = VNum 3.
Proof.
  cbn zeta.
  set (w := (recordAll _ _).2).
  set (ctx := createStateContext _ _ _ _ _).
  assert (epicReducer ctx = Some sumReducer) as H1 by reflexivity.
  assert ("m3" <> "") as H2 by discriminate.
  assert (Forall (fun e => localeCompare (messageId e) "m3" <= 0)
            (eventLog w (channelId ctx))) as H3.
  { vm_compute. repeat constructor; discriminate. }
  split; [done|]. split; [|by vm_compute].
  exact (getStateAtMessage_newest ctx sumReducer "m3" w H1 H2 H3).
Defined.

(** The sequence read, write 10, read, write 20, read at the message m3
    of a channel with the event 1 at m1, with the reducer that adds. *)
Lemma epic_write_then_read_witness :
  let ctx := createStateContext (new_PluginContextFactory ["m1"; "m2"; "m3"])
               "c" "m3" None (Some sumReducer) in
  let w := (recordEpicEvent "c" "m1" (VNum 1) "t"
              (new_PluginStateManager "cache" "p")).2 in
  let before := getState ctx epic w in
  let once := getState ctx epic (setState ctx epic (VNum 10) "t1" before.2).2 in
  let twice := getState ctx epic (setState ctx epic (VNum 20) "t2" once.2).2 in
  (epicReducer ctx = Some sumReducer /\ keepsObjects sumReducer
   /\ StronglySorted idOrder (eventLog w (channelId ctx))
   /\ currentMessageId ctx ∈ contextMessageIds ctx)
  /\ before.1 = VNum 1 /\ once.1 = VNum 11 /\ twice.1 = VNum 21.
Proof.
  intros ctx w.
  assert (epicReducer ctx = Some sumReducer) as H1 by reflexivity.
  assert (keepsObjects sumReducer) as H2 by done.
  assert (StronglySorted idOrder (eventLog w (channelId ctx))) as H3.
  { vm_compute. repeat constructor. }
  assert (currentMessageId ctx ∈ contextMessageIds ctx) as H4.
  { assert (bool_decide (currentMessageId ctx ∈ contextMessageIds ctx) = true) as Hb
      by (by vm_compute).
    by apply bool_decide_eq_true in Hb. }
  assert (Forall (fun e => localeCompare (messageId e) (currentMessageId ctx) <= 0
                           /\ messageId e <> currentMessageId ctx)
            (eventLog w (channelId ctx))) as H5.
  { vm_compute. repeat constructor; discriminate. }
  pose proof (epic_write_then_read ctx sumReducer (VNum 10) (VNum 20) "t1" "t2" w
                H1 H2 H3 H4 H5) as [Ha Hb].
  cbn zeta in Ha, Hb.
  split; [done|]. split; [by vm_compute|]. split; [exact Ha|exact Hb].
Defined.

Lemma recordEpicEvent_overwrites_witness :
  let w := (recordEpicEvent "c" "m1" (VNum 1) "t"
              (new_PluginStateManager "cache" "p")).2 in
  NoDup (messageId <$> eventLog w "c")
  /\ eventLog ((recordEpicEvent "c" "m1" (VNum 5) "t1" ;;
                recordEpicEvent "c" "m1" (VNum 7) "t2") w).2 "c"
     = [mkStateEvent "m1" "t2" (VNum 7)].
Proof.
  intros w.
  assert (NoDup (messageId <$> eventLog w "c")) as H.
  { vm_compute. repeat constructor. set_solver. }
  split; [exact H|].
  destruct (recordEpicEvent_overwrites "c" "m1" (VNum 5) (VNum 7) "t1" "t2" w H)
    as [H1 _].
  cbn zeta in H1. rewrite H1. by vm_compute.
Defined.

(** An event for [B], recorded on a log that holds an event for [a]:
    the state up to [a] is what it was. *)
Lemma recordEpicEvent_later_message_witness :
  let w := (recordEpicEvent "c" "a" (VNum 1) "t"
              (new_PluginStateManager "cache" "p")).2 in
  (StronglySorted idOrder (eventLog w "c") /\ "a" <> ""
   /\ ~ localeCompare "B" "a" <= 0)
  /\ (getEpicState "c" (Some "a") None sumReducer
        (recordEpicEvent "c" "B" (VNum 5) "t" w).2).1 = VNum 1.
Proof.
  intros w.
  assert (StronglySorted idOrder (eventLog w "c")) as H1.
  { vm_compute. repeat constructor. }
  assert ("a" <> "") as H2 by discriminate.
  assert (~ localeCompare "B" "a" <= 0) as H3.
  { vm_compute. intros H. by apply H. }
  split; [done|].
  destruct (recordEpicEvent_later_message "c" "a" "B" (VNum 5) "t" None sumReducer w
              H1 H2 H3) as [Ha _].
  cbn zeta in Ha. rewrite Ha. by vm_compute.
Defined.
